(** * Othello move calculator: board logic, hashing, evaluation and search

    A shallow embedding of the engine under [src/engine]: [types.ts],
    [board.ts], [zobrist.ts], [evaluation.ts] and [search.ts].

    - A [Cell] ([0 | 1 | -1]) is an enumeration; unary minus on a cell is
      [negate].
    - A [Board] ([Cell[][]]) is a list of rows.  Reading [board[r][c]] is
      [cellAt], which yields [None] where JavaScript yields [undefined].
    - Loop indices and coordinates are integers ([Z]), since the ray walks
      add the direction offsets -1, 0, 1 to them.
    - JavaScript strings are sequences of UTF-16 code units ([list Z]).
    - The floating point arithmetic of the evaluator is IEEE binary64,
      modelled by the kernel's primitive floats. *)

From Stdlib Require Import ZArith List Bool Lia String Ascii DecimalString Floats Btauto.
From stdpp Require Import base option list sorting gmap.
Import ListNotations.

Local Open Scope Z_scope.

(** ** types.ts *)

(** [type Cell = 0 | 1 | -1]: empty, black, white. *)
Inductive Cell : Type := Empty | Black | White.

#[global] Instance Cell_eq_dec : EqDecision Cell.
Proof. solve_decision. Defined.

(** The numeric value of a cell, as the source writes it. *)
Definition cellValue (x : Cell) : Z :=
  match x with Empty => 0 | Black => 1 | White => -1 end.

(** [-color as Cell]. *)
Definition negate (x : Cell) : Cell :=
  match x with Empty => Empty | Black => White | White => Black end.

(** [type Board = Cell[][]]. *)
Abbreviation Board := (list (list Cell)).

(** The object [{ r, c }] of a move whose coordinates are integers. *)
Module Coord.
Record t : Type := mk { r : Z; c : Z }.
End Coord.

#[global] Instance Coord_eq_dec : EqDecision Coord.t.
Proof. solve_decision. Defined.

(** [type Move = { r: number; c: number } | null]; [None] is [null]. *)
Abbreviation Move := (option Coord.t).


(** ** JavaScript values used by the engine *)

Module Js.

(** A string: its UTF-16 code units. *)
Abbreviation str := (list Z).

(** A string literal of the source (all of them are ASCII). *)
Definition lit (s : string) : str :=
  map (fun a => Z.of_N (N_of_ascii a)) (list_ascii_of_string s).

(** A number that is an integer or [NaN] (what [parseInt] returns). *)
Inductive number : Type := Num (z : Z) | NaN.

#[global] Instance number_eq_dec : EqDecision number.
Proof. solve_decision. Defined.

(** [x - k] for an integer constant [k]. *)
Definition minus (x : number) (k : Z) : number :=
  match x with Num z => Num (z - k) | NaN => NaN end.

(** [x < k] and [x > k]: every comparison with [NaN] is false. *)
Definition lt (x : number) (k : Z) : bool :=
  match x with Num z => z <? k | NaN => false end.
Definition gt (x : number) (k : Z) : bool :=
  match x with Num z => z >? k | NaN => false end.

(** [String.fromCharCode(n)] for an integer [n] (ToUint16 of it). *)
Definition fromCharCode (n : Z) : str := [n mod 65536].

(** [n.toString()] for an integer [n] below 10^21 in size: its decimal
    digits, with a leading minus sign when negative. *)
Definition toString (n : Z) : str :=
  lit (DecimalString.NilZero.string_of_int (Z.to_int n)).

(** White space and line terminators, as [trim] and [parseInt] skip them. *)
Definition isWhiteSpace (u : Z) : bool :=
  existsb (Z.eqb u)
    [9; 10; 11; 12; 13; 32; 160; 5760; 8232; 8233; 8239; 8287; 12288; 65279]
  || ((8192 <=? u) && (u <=? 8202)).

Fixpoint trimStart (s : str) : str :=
  match s with
  | u :: s' => if isWhiteSpace u then trimStart s' else s
  | [] => []
  end.

(** [s.trim()]. *)
Definition trim (s : str) : str := rev (trimStart (rev (trimStart s))).

(** The value of a decimal digit. *)
Definition digitValue (u : Z) : option Z :=
  if (48 <=? u) && (u <=? 57) then Some (u - 48) else None.

(** The longest prefix of decimal digits of [s], read as a number; [acc]
    is [None] until a digit has been read. *)
Fixpoint readDigits (s : str) (acc : option Z) : option Z :=
  match s with
  | u :: s' =>
      match digitValue u with
      | Some d => readDigits s' (Some (10 * default 0 acc + d))
      | None => acc
      end
  | [] => acc
  end.

(** [parseInt(s)] in radix 10: leading white space, an optional sign, then
    the longest run of digits; [NaN] when there is none.  The [0x] prefix
    is left out: the engine only parses a string of one code unit. *)
Definition parseInt (s : str) : number :=
  let s := trimStart s in
  let '(sign, s) :=
    match s with
    | u :: s' => if u =? 45 then (-1, s') else if u =? 43 then (1, s') else (1, s)
    | [] => (1, s)
    end in
  match readDigits s None with
  | Some n => Num (sign * n)
  | None => NaN
  end.

(** [s.split(sep)] for a separator of one code unit. *)
Fixpoint split (sep : Z) (s : str) : list str :=
  match s with
  | [] => [[]]
  | u :: s' =>
      if u =? sep then [] :: split sep s'
      else match split sep s' with
           | line :: lines => (u :: line) :: lines
           | [] => [[u]]
           end
  end.

(** [lines.join(sep)] for a separator of one code unit. *)
Fixpoint join (sep : Z) (lines : list str) : str :=
  match lines with
  | [] => []
  | [line] => line
  | line :: lines' => line ++ sep :: join sep lines'
  end.

(** The object [{ r, c }] as [algebraicToMove] builds it: its row comes
    from [parseInt] and may be [NaN]. *)
Record coord : Type := mkCoord { r : number; c : number }.

#[global] Instance coord_eq_dec : EqDecision coord.
Proof. solve_decision. Defined.

End Js.

(** ** board.ts *)

Module BoardLogic.

(** [Array(8).fill(null).map(() => Array(8).fill(0))]. *)
Definition emptyBoard : Board := replicate 8 (replicate 8 Empty).

(** [board[r][c]]; [None] stands for [undefined] (an index outside the row).
    The source only reads squares of an 8x8 board after the bounds test
    [nr >= 0 && nr < 8 && nc >= 0 && nc < 8], or with loop indices in 0..7. *)
Definition cellAt (board : Board) (r c : Z) : option Cell :=
  if (0 <=? r) && (0 <=? c)
  then match board !! Z.to_nat r with
       | Some row => row !! Z.to_nat c
       | None => None
       end
  else None.

(** [board[r][c] === x]. *)
Definition cellIs (board : Board) (r c : Z) (x : Cell) : bool :=
  bool_decide (cellAt board r c = Some x).

(** [newBoard[r][c] = x] on a board that has the square.  Outside the
    board JavaScript throws (row missing) or grows the row (column past
    its end); the model leaves the board as it is there, and every
    statement about [applyMove] is made for squares of the board. *)
Definition setCell (board : Board) (r c : Z) (x : Cell) : Board :=
  if (0 <=? r) && (0 <=? c)
  then match board !! Z.to_nat r with
       | Some row => <[Z.to_nat r := <[Z.to_nat c := x]> row]> board
       | None => board
       end
  else board.

(** [createStartingBoard]. *)
Definition createStartingBoard : Board :=
  let board := emptyBoard in
  let board := setCell board 3 3 Black in
  let board := setCell board 3 4 White in
  let board := setCell board 4 3 White in
  let board := setCell board 4 4 Black in
  board.

(** The literal [directions] shared by the scanning functions. *)
Definition directions : list (Z * Z) :=
  [(-1, -1); (-1, 0); (-1, 1);
   (0, -1);           (0, 1);
   (1, -1);  (1, 0);  (1, 1)].

(** [nr >= 0 && nr < 8 && nc >= 0 && nc < 8]. *)
Definition inBounds (nr nc : Z) : bool :=
  (0 <=? nr) && (nr <? 8) && (0 <=? nc) && (nc <? 8).

(** The loop
    [while (inBounds && board[nr][nc] === opponent) { body; nr += dr; nc += dc; }]
    shared by [hasFlipsInDirection], [getFlipsInDirection] and
    [getFlippedPositions].  [body] updates the loop's accumulator.  [None]
    means the fuel ran out; [rayLoop_terminates] shows that [rayFuel]
    iterations suffice along each of the eight directions. *)
Fixpoint rayLoop {A : Type} (fuel : nat) (board : Board) (opponent : Cell)
    (dr dc : Z) (body : Z -> Z -> A -> A) (nr nc : Z) (acc : A)
    : option (Z * Z * A) :=
  match fuel with
  | O => None
  | S fuel' =>
      if inBounds nr nc && cellIs board nr nc opponent
      then rayLoop fuel' board opponent dr dc body (nr + dr) (nc + dc) (body nr nc acc)
      else Some (nr, nc, acc)
  end.

Definition rayFuel : nat := 9.

(** [hasFlipsInDirection]. *)
Definition hasFlipsInDirection (board : Board) (r c dr dc : Z) (color : Cell) : bool :=
  let opponent := negate color in
  match rayLoop rayFuel board opponent dr dc (fun _ _ _ => true) (r + dr) (c + dc) false with
  | Some (nr, nc, hasOpponent) =>
      hasOpponent && inBounds nr nc && cellIs board nr nc color
  | None => false
  end.

(** [getFlipsInDirection]. *)
Definition getFlipsInDirection (board : Board) (r c dr dc : Z) (color : Cell)
    : list (Z * Z) :=
  let opponent := negate color in
  match rayLoop rayFuel board opponent dr dc
          (fun nr nc flips => flips ++ [(nr, nc)]) (r + dr) (c + dc) [] with
  | Some (nr, nc, flips) =>
      if inBounds nr nc && cellIs board nr nc color then flips else []
  | None => []
  end.

(** The loop indices [0, 1, ..., 7] of [for (let i = 0; i < 8; i++)]. *)
Definition indices : list Z := [0; 1; 2; 3; 4; 5; 6; 7].

(** The body of the two nested loops of [generateLegalMoves] at square
    [(r, c)]: the moves it pushes. *)
Definition legalAt (board : Board) (color : Cell) (r c : Z) : list Move :=
  if negb (cellIs board r c Empty) then []
  else
    let isLegal :=
      existsb (fun d => hasFlipsInDirection board r c (fst d) (snd d) color) directions in
    if isLegal then [Some (Coord.mk r c)] else [].

(** [generateLegalMoves]. *)
Definition generateLegalMoves (board : Board) (color : Cell) : list Move :=
  match color with
  | Empty => []
  | _ =>
      flat_map (fun r => flat_map (fun c => legalAt board color r c) indices) indices
  end.

(** The body of [for (const [dr, dc] of directions)] in [applyMove]: the
    flips of one direction are counted and written. *)
Definition flipDirection (board : Board) (r c : Z) (color : Cell)
    (st : list (list Cell) * Z) (d : Z * Z) : list (list Cell) * Z :=
  let flipsInDirection := getFlipsInDirection board r c (fst d) (snd d) color in
  (fold_left (fun nb f => setCell nb (fst f) (snd f) color) flipsInDirection (fst st),
   snd st + Z.of_nat (length flipsInDirection)).

(** [applyMove]: the new board and the number of flipped discs. *)
Definition applyMove (board : Board) (move : Move) (color : Cell) : list (list Cell) * Z :=
  match move with
  | None => (board, 0)
  | Some m =>
      let r := Coord.r m in
      let c := Coord.c m in
      let newBoard := setCell board r c color in
      fold_left (flipDirection board r c color) directions (newBoard, 0)
  end.

(** [moveToAlgebraic]. *)
Definition moveToAlgebraic (move : Move) : Js.str :=
  match move with
  | None => Js.lit "pass"
  | Some m =>
      let col := Js.fromCharCode (97 + Coord.c m) in
      let row := Js.toString (Coord.r m + 1) in
      col ++ row
  end.

(** [algebraicToMove]; [None] is [null].  With two code units
    [charCodeAt(0)] is the first and [algebraic[1]] the string of the
    second. *)
Definition algebraicToMove (algebraic : Js.str) : option Js.coord :=
  if decide (algebraic = Js.lit "pass") then None
  else
    match algebraic with
    | [u0; u1] =>
        let col := u0 - 97 in
        let row := Js.minus (Js.parseInt [u1]) 1 in
        if (col <? 0) || (col >? 7) || Js.lt row 0 || Js.gt row 7 then None
        else Some (Js.mkCoord row (Js.Num col))
    | _ => None
    end.

(** [cell === 0 ? '.' : cell === 1 ? 'B' : 'W']. *)
Definition cellChar (cell : Cell) : Z :=
  match cell with Empty => 46 | Black => 66 | White => 87 end.

(** [serializeBoard]. *)
Definition serializeBoard (board : Board) : Js.str :=
  Js.join 10 (map (fun row => concat (map (fun cell => [cellChar cell]) row)) board).

(** The errors [deserializeBoard] throws. *)
Inductive FormatError : Type :=
| RowCount      (* 'Invalid board format: must have 8 rows' *)
| RowLength     (* 'Invalid board format: each row must have 8 columns' *)
| Character (u : Z).  (* `Invalid character: ${char}` *)

(** The inner loop [for (const char of line)]: the cells pushed so far are
    [row].  The source iterates by code point; a surrogate pair is then
    one [char] of two units, and it throws like each of its units would. *)
Fixpoint readRow (line : Js.str) (row : list Cell) : FormatError + list Cell :=
  match line with
  | [] => inr row
  | u :: line' =>
      if u =? 46 then readRow line' (row ++ [Empty])
      else if u =? 66 then readRow line' (row ++ [Black])
      else if u =? 87 then readRow line' (row ++ [White])
      else inl (Character u)
  end.

(** The outer loop [for (const line of lines)]. *)
Fixpoint readRows (lines : list Js.str) (board : Board) : FormatError + Board :=
  match lines with
  | [] => inr board
  | line :: lines' =>
      if negb (length line =? 8)%nat then inl RowLength
      else match readRow line [] with
           | inl e => inl e
           | inr row => readRows lines' (board ++ [row])
           end
  end.

(** [deserializeBoard]; [inl] is a thrown error. *)
Definition deserializeBoard (s : Js.str) : FormatError + Board :=
  let lines := Js.split 10 (Js.trim s) in
  if negb (length lines =? 8)%nat then inl RowCount
  else readRows lines [].

(** [countPieces]: the pair (black, white). *)
Definition countPieces (board : Board) : Z * Z :=
  fold_left
    (fun (n : Z * Z) (r : Z) =>
       fold_left
         (fun (n : Z * Z) (c : Z) =>
            if cellIs board r c Black then (fst n + 1, snd n)
            else if cellIs board r c White then (fst n, snd n + 1)
            else n)
         indices n)
    indices (0, 0).

(** A board of the shape the type documents: 8 rows of 8 cells. *)
Definition validBoard (board : Board) : Prop :=
  length board = 8%nat /\ Forall (fun row => length row = 8%nat) board.

(** Row-major order on moves: by row, then by column. *)
Definition rowMajorLt (a b : Move) : Prop :=
  match a, b with
  | Some a, Some b =>
      Coord.r a < Coord.r b \/ (Coord.r a = Coord.r b /\ Coord.c a < Coord.c b)
  | _, _ => False
  end.

#[global] Instance rowMajorLt_dec (a b : Move) : Decision (rowMajorLt a b).
Proof. destruct a, b; simpl; solve_decision. Defined.

(** The 64 squares in the order the nested loops visit them. *)
Definition allSquares : list Move :=
  flat_map (fun r => map (fun c => Some (Coord.mk r c)) indices) indices.

End BoardLogic.



(** ** zobrist.ts *)

Module Zobrist.
Import BoardLogic.

(** [ZOBRIST_SIDE_TO_MOVE]. *)
Definition ZOBRIST_SIDE_TO_MOVE : Z := 0x1a2b3c4d5e6f7a8b.

Section Table.

(** [ZOBRIST_PIECES[pos][colorIndex]]: the table [initializeZobrist]
    fills from [Math.random] when the module is loaded, fixed afterwards. *)
Variable ZOBRIST_PIECES : Z -> Z -> Z.

(** The body of the two nested loops of [hashBoard] at square [(r, c)]. *)
Definition hashSquare (board : Board) (hash r c : Z) : Z :=
  if cellIs board r c Empty then hash
  else
    let pos := r * 8 + c in
    let colorIndex := if cellIs board r c Black then 0 else 1 in
    Z.lxor hash (ZOBRIST_PIECES pos colorIndex).

(** [hashBoard]. *)
Definition hashBoard (board : Board) (sideToMove : Cell) : Z :=
  let hash :=
    fold_left (fun hash r => fold_left (fun hash c => hashSquare board hash r c) indices hash)
      indices 0 in
  match sideToMove with
  | Black => Z.lxor hash ZOBRIST_SIDE_TO_MOVE
  | _ => hash
  end.

(** [updateHash]; the board argument of the source is unused. *)
Definition updateHash (oldHash : Z) (move : Coord.t) (color : Cell)
    (flippedPositions : list (Z * Z)) : Z :=
  let hash := oldHash in
  (* Remove old side to move *)
  let hash := Z.lxor hash ZOBRIST_SIDE_TO_MOVE in
  (* Add the new piece *)
  let pos := Coord.r move * 8 + Coord.c move in
  let colorIndex := match color with Black => 0 | _ => 1 end in
  let hash := Z.lxor hash (ZOBRIST_PIECES pos colorIndex) in
  (* Update flipped pieces *)
  let hash :=
    fold_left
      (fun hash f =>
         let flipPos := fst f * 8 + snd f in
         let oldColorIndex := match color with Black => 1 | _ => 0 end in
         let hash := Z.lxor hash (ZOBRIST_PIECES flipPos oldColorIndex) in
         Z.lxor hash (ZOBRIST_PIECES flipPos colorIndex))
      flippedPositions hash in
  (* Add new side to move (opposite color) *)
  let newSideToMove := negate color in
  match newSideToMove with
  | Black => Z.lxor hash ZOBRIST_SIDE_TO_MOVE
  | _ => hash
  end.

(** The constant a square contributes to the hash when it holds [x]. *)
Definition pieceConstant (x : Cell) (pos : Z) : Z :=
  match x with
  | Empty => 0
  | Black => ZOBRIST_PIECES pos 0
  | White => ZOBRIST_PIECES pos 1
  end.

(** What square [(r, c)] of [board] contributes in [hashBoard]. *)
Definition squareConstant (board : Board) (p : Z * Z) : Z :=
  hashSquare board 0 (fst p) (snd p).

(** [hashBoard] without the side-to-move constant. *)
Definition pieceHash (board : Board) : Z := hashBoard board White.

(** The XOR of the toggles [updateHash] applies for the flipped squares. *)
Definition flipToggles (color : Cell) (flippedPositions : list (Z * Z)) : Z :=
  fold_left
    (fun hash f =>
       Z.lxor hash
         (Z.lxor (pieceConstant (negate color) (fst f * 8 + snd f))
                 (pieceConstant color (fst f * 8 + snd f))))
    flippedPositions 0.

End Table.

(** The 64 squares as pairs, in the order [hashBoard] visits them. *)
Definition squares : list (Z * Z) :=
  flat_map (fun r => map (fun c => (r, c)) indices) indices.

End Zobrist.

(** ** evaluation.ts *)

Module Evaluation.
Import BoardLogic.

(** An integer of the source as a binary64 number (exact below 2^53). *)
Definition ofZ (z : Z) : float :=
  if z <? 0 then PrimFloat.opp (PrimFloat.of_uint63 (Uint63.of_Z (- z)))
  else PrimFloat.of_uint63 (Uint63.of_Z z).

(** [Math.round(x)] for a finite [x]: the integer nearest to [x], the
    larger one at a tie, that is the floor of [x + 1/2] computed exactly.
    (The evaluator divides by at least 1 and never produces [NaN] or an
    infinity; the sign of a zero result is dropped.) *)
Definition mathRound (x : float) : Z :=
  match Prim2SF x with
  | S754_finite s m e =>
      let n := if s then Z.neg m else Z.pos m in
      if 0 <=? e then n * 2 ^ e
      else (2 * n + 2 ^ (- e)) / 2 ^ (- e + 1)
  | _ => 0
  end.

(** [EVAL_WEIGHTS]. *)
Record Weights : Type := {
  PIECE_SQUARE : float;
  MOBILITY : float;
  FRONTIER : float;
  STABILITY : float;
  DISC_DIFF : float
}.

Definition EVAL_WEIGHTS : Weights := {|
  PIECE_SQUARE := 1.0;
  MOBILITY := 78.0;
  FRONTIER := -50.0;
  STABILITY := 100.0;
  DISC_DIFF := 1.0
|}.

(** [SQUARE_WEIGHTS]. *)
Definition SQUARE_WEIGHTS : list (list Z) :=
  [[100; -20; 10; 5; 5; 10; -20; 100];
   [-20; -50; -2; -2; -2; -2; -50; -20];
   [10; -2; -1; -1; -1; -1; -2; 10];
   [5; -2; -1; -1; -1; -1; -2; 5];
   [5; -2; -1; -1; -1; -1; -2; 5];
   [10; -2; -1; -1; -1; -1; -2; 10];
   [-20; -50; -2; -2; -2; -2; -50; -20];
   [100; -20; 10; 5; 5; 10; -20; 100]].

(** [SQUARE_WEIGHTS[r][c]] for loop indices. *)
Definition squareWeight (r c : Z) : Z :=
  match SQUARE_WEIGHTS !! Z.to_nat r with
  | Some row => default 0 (row !! Z.to_nat c)
  | None => 0
  end.

(** Two counters [(mine, theirs)] updated over all squares in row-major
    order: the loop shape of the counting functions. *)
Definition overSquares (f : Z * Z -> Z -> Z -> Z * Z) : Z * Z :=
  fold_left (fun n r => fold_left (fun n c => f n r c) indices n) indices (0, 0).

(** [calculatePieceSquareScore]. *)
Definition calculatePieceSquareScore (board : Board) (color : Cell) : Z :=
  let opponent := negate color in
  let n :=
    overSquares (fun n r c =>
      let weight := squareWeight r c in
      if cellIs board r c color then (fst n + weight, snd n)
      else if cellIs board r c opponent then (fst n, snd n + weight)
      else n) in
  fst n - snd n.

(** [calculateMobilityScore]. *)
Definition calculateMobilityScore (board : Board) (color : Cell) : float :=
  let myMoves := Z.of_nat (length (generateLegalMoves board color)) in
  let oppMoves := Z.of_nat (length (generateLegalMoves board (negate color))) in
  (ofZ 100 * ofZ (myMoves - oppMoves) / ofZ (myMoves + oppMoves + 1))%float.

(** The inner direction loop of [calculateFrontierScore]. *)
Definition isFrontier (board : Board) (r c : Z) : bool :=
  existsb
    (fun d =>
       let nr := r + fst d in
       let nc := c + snd d in
       inBounds nr nc && cellIs board nr nc Empty)
    directions.

(** The counters [(myFrontier, oppFrontier)] of [calculateFrontierScore]. *)
Definition frontierCounts (board : Board) (color : Cell) : Z * Z :=
  let opponent := negate color in
  overSquares (fun n r c =>
    if cellIs board r c Empty then n
    else if isFrontier board r c then
      if cellIs board r c color then (fst n + 1, snd n)
      else if cellIs board r c opponent then (fst n, snd n + 1)
      else n
    else n).

(** [-50 * (myFrontier - oppFrontier) / (myFrontier + oppFrontier + 1)]. *)
Definition frontierFormula (myFrontier oppFrontier : Z) : float :=
  (ofZ (-50) * ofZ (myFrontier - oppFrontier) / ofZ (myFrontier + oppFrontier + 1))%float.

(** [calculateFrontierScore]. *)
Definition calculateFrontierScore (board : Board) (color : Cell) : float :=
  let n := frontierCounts board color in
  frontierFormula (fst n) (snd n).


(** [stable[r][c]] of the [boolean[][]] grid; a square outside it is not
    read by the source. *)
Definition stableAt (stable : list (list bool)) (r c : Z) : bool :=
  if (0 <=? r) && (0 <=? c)
  then match stable !! Z.to_nat r with
       | Some row => default false (row !! Z.to_nat c)
       | None => false
       end
  else false.

(** [stable[r][c] = true] for a square of the grid. *)
Definition markStable (stable : list (list bool)) (r c : Z) : list (list bool) :=
  if (0 <=? r) && (0 <=? c)
  then match stable !! Z.to_nat r with
       | Some row => <[Z.to_nat r := <[Z.to_nat c := true]> row]> stable
       | None => stable
       end
  else stable.

(** The loop of [isDirectionStable], entered at [(nr, nc)]; [None] means
    the fuel ran out. *)
Fixpoint directionLoop (fuel : nat) (board : Board) (stable : list (list bool))
    (dr dc : Z) (color : Cell) (nr nc : Z) : option bool :=
  match fuel with
  | O => None
  | S fuel' =>
      if inBounds nr nc then
        if negb (cellIs board nr nc color) || negb (stableAt stable nr nc)
        then Some false
        else directionLoop fuel' board stable dr dc color (nr + dr) (nc + dc)
      else Some true
  end.

(** [isDirectionStable]. *)
Definition isDirectionStable (board : Board) (stable : list (list bool))
    (r c dr dc : Z) (color : Cell) : bool :=
  default false (directionLoop rayFuel board stable dr dc color (r + dr) (c + dc)).

(** [isDiscStable]; [color] is [board[r][c]]. *)
Definition isDiscStable (board : Board) (stable : list (list bool)) (r c : Z) : bool :=
  match cellAt board r c with
  | Some Empty | None => false
  | Some color =>
      existsb (fun d => isDirectionStable board stable r c (fst d) (snd d) color) directions
  end.

(** One execution of the body of [while (changed)]: the grid after the
    scan, and the value of [changed]. *)
Definition stablePass (board : Board) (stable : list (list bool))
    : list (list bool) * bool :=
  fold_left
    (fun st r =>
       fold_left
         (fun (st : list (list bool) * bool) c =>
            if cellIs board r c Empty || stableAt (fst st) r c then st
            else if isDiscStable board (fst st) r c then (markStable (fst st) r c, true)
            else st)
         indices st)
    indices (stable, false).

(** [while (changed) { ... }]; [None] means the fuel ran out. *)
Fixpoint stableLoop (fuel : nat) (board : Board) (stable : list (list bool))
    : option (list (list bool)) :=
  match fuel with
  | O => None
  | S fuel' =>
      let st := stablePass board stable in
      if snd st then stableLoop fuel' board (fst st) else Some (fst st)
  end.

(** Each pass but the last marks a square, so 65 passes suffice. *)
Definition stableFuel : nat := 65.

(** The corner seeding of [calculateStableDiscs]. *)
Definition seedCorners (board : Board) : list (list bool) :=
  fold_left
    (fun stable k =>
       if negb (cellIs board (fst k) (snd k) Empty) then markStable stable (fst k) (snd k)
       else stable)
    [(0, 0); (0, 7); (7, 0); (7, 7)]
    (replicate 8 (replicate 8 false)).

(** [calculateStableDiscs]. *)
Definition calculateStableDiscs (board : Board) : list (list bool) :=
  let stable := seedCorners board in
  default stable (stableLoop stableFuel board stable).

(** [calculateStabilityScore]. *)
Definition calculateStabilityScore (board : Board) (color : Cell) : Z :=
  let stable := calculateStableDiscs board in
  let opponent := negate color in
  let n :=
    overSquares (fun n r c =>
      if stableAt stable r c then
        if cellIs board r c color then (fst n + 1, snd n)
        else if cellIs board r c opponent then (fst n, snd n + 1)
        else n
      else n) in
  100 * (fst n - snd n).

(** [calculateDiscDifferenceScore]. *)
Definition calculateDiscDifferenceScore (board : Board) (color : Cell) : Z :=
  let opponent := negate color in
  let n :=
    overSquares (fun n r c =>
      if cellIs board r c color then (fst n + 1, snd n)
      else if cellIs board r c opponent then (fst n, snd n + 1)
      else n) in
  fst n - snd n.

(** [EVAL_WEIGHTS.FRONTIER * frontierScore]: the frontier term of the sum
    in [evaluatePosition]. *)
Definition frontierTerm (board : Board) (color : Cell) : float :=
  (FRONTIER EVAL_WEIGHTS * calculateFrontierScore board color)%float.

(** [evaluatePosition]. *)
Definition evaluatePosition (board : Board) (color : Cell) : Z :=
  match color with
  | Empty => 0
  | _ =>
      let pieceSquareScore := ofZ (calculatePieceSquareScore board color) in
      let mobilityScore := calculateMobilityScore board color in
      let stabilityScore := ofZ (calculateStabilityScore board color) in
      let discDiffScore := ofZ (calculateDiscDifferenceScore board color) in
      let evaluation :=
        (PIECE_SQUARE EVAL_WEIGHTS * pieceSquareScore
         + MOBILITY EVAL_WEIGHTS * mobilityScore
         + frontierTerm board color
         + STABILITY EVAL_WEIGHTS * stabilityScore
         + DISC_DIFF EVAL_WEIGHTS * discDiffScore)%float in
      mathRound evaluation
  end.

(** The shape of the grid [calculateStableDiscs] allocates: 8 rows of 8. *)
Definition stableGrid (stable : list (list bool)) : Prop :=
  length stable = 8%nat /\ Forall (fun row => length row = 8%nat) stable.

(** The number of squares marked in the grid. *)
Definition stableCount (stable : list (list bool)) : Z :=
  fold_left
    (fun n r => fold_left (fun n c => if stableAt stable r c then n + 1 else n) indices n)
    indices 0.

End Evaluation.


(** ** search.ts *)

(** [interface TTEntry]. *)
Module TTEntry.
Inductive Flag : Type := EXACT | LOWER | UPPER.
Record t : Type := mk {
  key : Z;
  depth : Z;
  value : Z;
  flag : Flag;
  bestMove : Move
}.
End TTEntry.

(** What [minimax] returns; [timeout] is [false] where the source leaves
    the field out. *)
Module Outcome.
Record t : Type := mk {
  score : Z;
  bestMove : Move;
  pv : list Js.str;
  nodes : Z;
  timeout : bool
}.
End Outcome.

(** [interface EngineResult]. *)
Module EngineResult.
Record t : Type := mk {
  bestMove : Move;
  bestMoveAlgebraic : Js.str;
  flips : Z;
  score : Z;
  pv : list Js.str;
  nodes : Z;
  timeMs : Z;
  depthSearched : Z
}.
End EngineResult.

(** [interface SearchOptions]; [None] is a field left out. *)
Module SearchOptions.
Record t : Type := mk { depth : option Z; timeLimitMs : option Z }.
End SearchOptions.

Module Search.
Import BoardLogic.

Definition INFINITY : Z := 999999.
Definition MAX_TT_SIZE : Z := 1000000.

(** The state the search reads and writes: the module's
    [transpositionTable] (keys are the decimal strings of the hashes, so
    the hashes themselves) and the number of [Date.now()] calls made so
    far. *)
Record World : Type := mkWorld {
  table : gmap Z TTEntry.t;
  ticks : nat
}.

(** [getFlippedPositions]. *)
Definition getFlippedPositions (board : Board) (move : Move) (color : Cell)
    : list (Z * Z) :=
  match move with
  | None => []
  | Some m =>
      let r := Coord.r m in
      let c := Coord.c m in
      let opponent := negate color in
      fold_left
        (fun flipped d =>
           match rayLoop rayFuel board opponent (fst d) (snd d)
                   (fun nr nc directionFlips => directionFlips ++ [(nr, nc)])
                   (r + fst d) (c + snd d) [] with
           | Some (nr, nc, directionFlips) =>
               if inBounds nr nc && cellIs board nr nc color
               then flipped ++ directionFlips
               else flipped
           | None => flipped
           end)
        directions []
  end.

(** [corners.has(`${m.r},${m.c}`)]. *)
Definition isCorner (m : Coord.t) : bool :=
  bool_decide ((Coord.r m, Coord.c m) ∈ [(0, 0); (0, 7); (7, 0); (7, 7)]).

(** The comparator of [orderMoves]. *)
Definition compareMoves (board : Board) (color : Cell) (a b : Move) : Z :=
  match a, b with
  | Some a', Some b' =>
      let aIsCorner := isCorner a' in
      let bIsCorner := isCorner b' in
      if aIsCorner && negb bIsCorner then -1
      else if negb aIsCorner && bIsCorner then 1
      else
        let aFlips := snd (applyMove board a color) in
        let bFlips := snd (applyMove board b color) in
        if negb (aFlips =? bFlips) then bFlips - aFlips
        else
          let afterA := fst (applyMove board a color) in
          let afterB := fst (applyMove board b color) in
          let oppColor := negate color in
          let aOppMobility := Z.of_nat (length (generateLegalMoves afterA oppColor)) in
          let bOppMobility := Z.of_nat (length (generateLegalMoves afterB oppColor)) in
          aOppMobility - bOppMobility
  | _, _ => 0
  end.

(** [Array.prototype.sort] is stable; with a comparator that orders by
    keys its result is the stable insertion sort. *)
Fixpoint insertMove (cmp : Move -> Move -> Z) (x : Move) (sorted : list Move) : list Move :=
  match sorted with
  | [] => [x]
  | y :: rest => if cmp x y <=? 0 then x :: sorted else y :: insertMove cmp x rest
  end.

Definition sortMoves (cmp : Move -> Move -> Z) (moves : list Move) : list Move :=
  foldr (insertMove cmp) [] moves.

(** [orderMoves]. *)
Definition orderMoves (board : Board) (moves : list Move) (color : Cell) : list Move :=
  sortMoves (compareMoves board color) moves.

(** The variables of the move loop of [minimax]. *)
Record Loop : Type := mkLoop {
  bestMove : Move;
  bestScore : Z;
  bestPV : list Js.str;
  alpha : Z;
  beta : Z;
  nodes : Z
}.

(** The probe of [minimax]: the entry it returns from, if any. *)
Definition probe (tt : gmap Z TTEntry.t) (boardHash depth alpha beta : Z)
    : option TTEntry.t :=
  match tt !! boardHash with
  | Some ttEntry =>
      if TTEntry.depth ttEntry >=? depth then
        match TTEntry.flag ttEntry with
        | TTEntry.EXACT => Some ttEntry
        | TTEntry.LOWER => if TTEntry.value ttEntry >=? beta then Some ttEntry else None
        | TTEntry.UPPER => if TTEntry.value ttEntry <=? alpha then Some ttEntry else None
        end
      else None
  | None => None
  end.

(** The store at the end of [minimax]. *)
Definition store (tt : gmap Z TTEntry.t) (boardHash depth originalAlpha : Z) (l : Loop)
    : gmap Z TTEntry.t :=
  if Z.of_nat (size tt) <? MAX_TT_SIZE then
    let flag :=
      if bestScore l <=? originalAlpha then TTEntry.UPPER
      else if bestScore l >=? beta l then TTEntry.LOWER
      else TTEntry.EXACT in
    <[boardHash := TTEntry.mk boardHash depth (bestScore l) flag (bestMove l)]> tt
  else tt.

Section Engine.

(** The hash table of [zobrist.ts]. *)
Variable ZOBRIST_PIECES : Z -> Z -> Z.

(** [clock k] is what the [k]-th call of [Date.now()] returns. *)
Variable clock : nat -> Z.

Definition dateNow (w : World) : Z * World :=
  (clock (ticks w), mkWorld (table w) (S (ticks w))).

(** [deadline && nodes % 1024 === 0 && Date.now() > deadline], evaluated
    left to right; [Date.now()] is only called when the first two hold. *)
Definition timeoutCheck (deadline : option Z) (nodes : Z) (w : World) : bool * World :=
  match deadline with
  | Some d =>
      if negb (d =? 0) && (nodes mod 1024 =? 0)
      then let '(now, w') := dateNow w in (now >? d, w')
      else (false, w)
  | None => (false, w)
  end.

(** The loop [for (const move of orderedMoves)] of [minimax]; [recur] is
    the recursive call one ply shallower.  The boolean says that the loop
    was left by the [return] on a child's timeout. *)
Fixpoint moveLoop
    (recur : Board -> Z -> Z -> list Js.str -> Z -> World -> Outcome.t * World)
    (board : Board) (currentColor : Cell) (isMaximizing : bool)
    (currentPV : list Js.str) (boardHash : Z)
    (moves : list Move) (l : Loop) (w : World) : Loop * bool * World :=
  match moves with
  | [] => (l, false, w)
  | move :: rest =>
      let newBoard := fst (applyMove board move currentColor) in
      let newPV := currentPV ++ [moveToAlgebraic move] in
      let flippedPositions := getFlippedPositions board move currentColor in
      let newHash :=
        match move with
        | Some m => Zobrist.updateHash ZOBRIST_PIECES boardHash m currentColor flippedPositions
        | None => boardHash
        end in
      let '(result, w) := recur newBoard (alpha l) (beta l) newPV newHash w in
      let nodes' := nodes l + Outcome.nodes result in
      if Outcome.timeout result
      then (mkLoop (bestMove l) (bestScore l) (bestPV l) (alpha l) (beta l) nodes', true, w)
      else
        let l :=
          if isMaximizing then
            let a := Z.max (alpha l) (Outcome.score result) in
            if Outcome.score result >? bestScore l
            then mkLoop move (Outcome.score result) (Outcome.pv result) a (beta l) nodes'
            else mkLoop (bestMove l) (bestScore l) (bestPV l) a (beta l) nodes'
          else
            let b := Z.min (beta l) (Outcome.score result) in
            if Outcome.score result <? bestScore l
            then mkLoop move (Outcome.score result) (Outcome.pv result) (alpha l) b nodes'
            else mkLoop (bestMove l) (bestScore l) (bestPV l) (alpha l) b nodes' in
        if beta l <=? alpha l then (l, false, w)
        else moveLoop recur board currentColor isMaximizing currentPV boardHash rest l w
  end.

(** [minimax], by recursion on the remaining depth.  No progress callback
    is passed ([progressCallback] is [undefined]). *)
Fixpoint minimax (depth : nat) (board : Board) (color : Cell) (alpha beta : Z)
    (isMaximizing : bool) (currentPV : list Js.str) (boardHash : Z)
    (deadline : option Z) (w : World) : Outcome.t * World :=
  let nodes := 1 in
  (* Check timeout every 1024 nodes for efficiency *)
  let '(expired, w) := timeoutCheck deadline nodes w in
  if expired then (Outcome.mk (- INFINITY) None currentPV nodes true, w)
  else
  (* Check transposition table *)
  match probe (table w) boardHash (Z.of_nat depth) alpha beta with
  | Some ttEntry =>
      (Outcome.mk (TTEntry.value ttEntry) (TTEntry.bestMove ttEntry) currentPV nodes false, w)
  | None =>
  match depth with
  | O =>
      let score := Evaluation.evaluatePosition board color in
      (Outcome.mk (if isMaximizing then score else - score) None currentPV nodes false, w)
  | S depth' =>
      let currentColor := if isMaximizing then color else negate color in
      let moves := generateLegalMoves board currentColor in
      match moves with
      | [] =>
          let oppositeColor := negate currentColor in
          let oppositeMoves := generateLegalMoves board oppositeColor in
          match oppositeMoves with
          | [] =>
              let score := Evaluation.evaluatePosition board color in
              (Outcome.mk (if isMaximizing then score else - score) None
                 (currentPV ++ [Js.lit "pass"]) nodes false, w)
          | _ =>
              let '(result, w) :=
                minimax depth' board color alpha beta (negb isMaximizing)
                  (currentPV ++ [Js.lit "pass"]) boardHash deadline w in
              (Outcome.mk (Outcome.score result) None (Outcome.pv result)
                 (nodes + Outcome.nodes result) false, w)
          end
      | _ =>
          let orderedMoves := orderMoves board moves currentColor in
          let originalAlpha := alpha in
          let start :=
            mkLoop None (if isMaximizing then - INFINITY else INFINITY) currentPV
              alpha beta nodes in
          let '(l, timedOut, w) :=
            moveLoop
              (fun newBoard a b newPV newHash w =>
                 minimax depth' newBoard color a b (negb isMaximizing) newPV newHash deadline w)
              board currentColor isMaximizing currentPV boardHash orderedMoves start w in
          if timedOut
          then (Outcome.mk (bestScore l) (bestMove l) (bestPV l) (Search.nodes l) true, w)
          else
            (* Store in transposition table *)
            let w :=
              mkWorld (store (table w) boardHash (Z.of_nat depth) originalAlpha l) (ticks w) in
            (Outcome.mk (bestScore l) (bestMove l) (bestPV l) (Search.nodes l) false, w)
      end
  end
  end.

(** The variables of the iterative deepening loop of [engineSearch]. *)
Record Driver : Type := mkDriver {
  d_nodes : Z;
  d_bestMove : Move;
  d_bestScore : Z;
  d_pv : list Js.str;
  d_depthSearched : Z
}.

(** [for (currentDepth = 1; currentDepth <= depth && !stopped; currentDepth++)]
    with [remaining] iterations left before [currentDepth] exceeds [depth].
    [minimax] throws nothing, so the [catch] is never entered. *)
Fixpoint deepen (remaining : nat) (currentDepth : nat) (board : Board) (color : Cell)
    (startTime timeLimitMs : Z) (d : Driver) (w : World) : Driver * World :=
  match remaining with
  | O => (d, w)
  | S remaining' =>
      (* Check time limit *)
      let '(now, w) := dateNow w in
      if now - startTime >=? timeLimitMs then (d, w)
      else
        let deadline := startTime + timeLimitMs in
        let '(result, w) :=
          minimax currentDepth board color (- INFINITY) INFINITY true []
            (Zobrist.hashBoard ZOBRIST_PIECES board color) (Some deadline) w in
        if Outcome.timeout result then (d, w)
        else
          let d :=
            mkDriver (d_nodes d + Outcome.nodes result) (Outcome.bestMove result)
              (Outcome.score result) (Outcome.pv result) (Z.of_nat currentDepth) in
          deepen remaining' (S currentDepth) board color startTime timeLimitMs d w
  end.

(** [engineSearch] without a progress callback; the promise it returns
    resolves to the result. *)
Definition engineSearch (board : Board) (color : Cell) (options : SearchOptions.t)
    (w : World) : EngineResult.t * World :=
  let depth := default 6 (SearchOptions.depth options) in
  let timeLimitMs := default 2000 (SearchOptions.timeLimitMs options) in
  let '(startTime, w) := dateNow w in
  (* Check if we need to pass *)
  let legalMoves := generateLegalMoves board color in
  match legalMoves with
  | [] =>
      let score := Evaluation.evaluatePosition board color in
      let '(now, w) := dateNow w in
      (EngineResult.mk None (Js.lit "pass") 0 score [Js.lit "pass"] 1 (now - startTime) 0, w)
  | _ =>
      (* Iterative deepening *)
      let '(d, w) :=
        deepen (Z.to_nat depth) 1 board color startTime timeLimitMs
          (mkDriver 0 None (- INFINITY) [] 0) w in
      (* Calculate flips for the best move *)
      let flips :=
        match d_bestMove d with
        | Some _ => snd (applyMove board (d_bestMove d) color)
        | None => 0
        end in
      let '(now, w) := dateNow w in
      (EngineResult.mk (d_bestMove d) (moveToAlgebraic (d_bestMove d)) flips
         (d_bestScore d) (d_pv d) (d_nodes d) (now - startTime) (d_depthSearched d), w)
  end.

End Engine.

(** Every entry of the table was stored by a search of depth at most
    [bound]. *)
Definition shallow (bound : Z) (w : World) : Prop :=
  forall k e, table w !! k = Some e -> TTEntry.depth e <= bound.

End Search.


(** ** Legal play, in the words of the specification *)

Module Play.
Import BoardLogic.

(** One ply from a position (board, side to move): the side places a disc
    on a square that [generateLegalMoves] lists, or passes when it has no
    move while its opponent has one. *)
Inductive ply : list (list Cell) * Cell -> list (list Cell) * Cell -> Prop :=
| ply_move (board : Board) (side : Cell) (move : Move) :
    In move (generateLegalMoves board side) ->
    ply (board, side) (fst (applyMove board move side), negate side)
| ply_pass (board : Board) (side : Cell) :
    side <> Empty ->
    generateLegalMoves board side = [] ->
    generateLegalMoves board (negate side) <> [] ->
    ply (board, side) (board, negate side).

(** The disc on [(r, c)] is stable: whichever side is to move, no
    continuation of legal play changes the square. *)
Definition neverFlipped (board : Board) (r c : Z) : Prop :=
  forall (side : Cell) (later : list (list Cell) * Cell),
    side <> Empty -> rtc ply (board, side) later ->
    cellAt (fst later) r c = cellAt board r c.

End Play.

(** ** Sample inputs *)

Module Samples.
Import BoardLogic.

(** The top row [...BWWWW] over an otherwise empty board. *)
Definition edgeBoard : Board :=
  [Empty; Empty; Empty; Black; White; White; White; White]
    :: replicate 7 (replicate 8 Empty).

(** The starting board after Black's opening e3. *)
Definition afterE3 : Board :=
  fst (applyMove createStartingBoard (Some (Coord.mk 2 4)) Black).

(** One table [initializeZobrist] may draw: 128 distinct 64-bit values. *)
Definition sampleZobrist (pos colorIndex : Z) : Z :=
  ((2 * pos + colorIndex + 1) * 0x9e3779b97f4a7c15) mod 2 ^ 64.

(** A clock that advances one millisecond per reading. *)
Definition sampleClock (k : nat) : Z := Z.of_nat k.

(** A clock that stands far beyond any deadline used below. *)
Definition lateClock (k : nat) : Z := 1000000.

(** The state of a freshly loaded module: an empty table. *)
Definition freshWorld : Search.World := Search.mkWorld ∅ 0.

End Samples.

(** ** The transposition probe, in the words of the specification *)

Module Probe.
Import BoardLogic.



End Probe.

(** ** Counting square by square *)

Module Tally.
Import BoardLogic.

(** The number of squares of the 8x8 grid that hold [x]. *)
Definition discs (board : Board) (x : Cell) : Z :=
  fold_left (fun n p => n + (if cellIs board (fst p) (snd p) x then 1 else 0))
    Zobrist.squares 0.

End Tally.

(** ** Growth of the transposition table *)

Module Table.

(** The table of [w] holds every key of the table of [w0], and has not
    grown past the larger of the size of that table and [MAX_TT_SIZE]. *)
Definition grown (w0 w : Search.World) : Prop :=
  (forall k, is_Some (Search.table w0 !! k) -> is_Some (Search.table w !! k))
  /\ Z.of_nat (size (Search.table w))
       <= Z.max (Z.of_nat (size (Search.table w0))) Search.MAX_TT_SIZE.

End Table.

(** ** zobrist.ts: filling the table *)

Module ZobristInit.

(** [generateRandom64BitBigInt]; [high] and [low] are the two values
    [Math.floor(Math.random() * 0x100000000)] it draws. *)
Definition generateRandom64BitBigInt (high low : Z) : Z :=
  Z.lor (Z.shiftl high 32) low.

End ZobristInit.

(** ** Proof automation *)

(** Boolean tests on integers as propositions, for [lia]. *)
Ltac zprop :=
  repeat match goal with
  | H : _ = false |- _ => apply not_true_iff_false in H
  | |- _ = false => apply not_true_iff_false
  end;
  rewrite ?andb_true_iff, ?orb_true_iff, ?negb_true_iff, ?Z.leb_le, ?Z.ltb_lt,
    ?Z.geb_le, ?Z.gtb_lt, ?Z.eqb_eq in *.

(** Equations between XOR chains, decided bit by bit. *)
Ltac xor_chain :=
  apply Z.bits_inj'; intros ? _;
  repeat rewrite Z.lxor_spec; rewrite ?Z.bits_0; btauto.

(** * Properties *)

Import BoardLogic.

(** ** The ray loops end *)

Section RayLoop.
Context {A : Type} (board : Board) (opponent : Cell) (dr dc : Z) (body : Z -> Z -> A -> A).

(** If the ray leaves the board within [fuel] steps, the loop has ended
    by then. *)
Lemma rayLoop_leaves (fuel : nat) : forall (nr nc : Z) (acc : A) (k : nat),
  (k < fuel)%nat ->
  inBounds (nr + Z.of_nat k * dr) (nc + Z.of_nat k * dc) = false ->
  is_Some (rayLoop fuel board opponent dr dc body nr nc acc).
Proof.
  induction fuel as [|fuel IH]; intros nr nc acc k Hk Hout; [lia|].
  simpl. destruct (inBounds nr nc && cellIs board nr nc opponent) eqn:Hgo; [|by eexists].
  apply andb_true_iff in Hgo as [Hin _].
  destruct k as [|k].
  - replace (nr + Z.of_nat 0 * dr) with nr in Hout by lia.
    replace (nc + Z.of_nat 0 * dc) with nc in Hout by lia. congruence.
  - apply (IH _ _ _ k); [lia|].
    rewrite <- Hout. f_equal; lia.
Qed.

(** Along each of the eight directions [rayFuel] iterations suffice,
    wherever the walk starts. *)
Lemma rayLoop_terminates (nr nc : Z) (acc : A) :
  In (dr, dc) directions ->
  is_Some (rayLoop rayFuel board opponent dr dc body nr nc acc).
Proof.
  intros Hd.
  destruct (inBounds nr nc) eqn:Hin.
  - apply (rayLoop_leaves rayFuel nr nc acc 8); [unfold rayFuel; lia|].
    unfold inBounds in *. simpl in Hd.
    repeat (destruct Hd as [Hd|Hd]; [inversion Hd; subst; clear Hd; zprop; lia|]).
    destruct Hd.
  - apply (rayLoop_leaves rayFuel nr nc acc 0); [unfold rayFuel; lia|].
    rewrite <- Hin. f_equal; lia.
Qed.

End RayLoop.

(** ** Lists *)

Lemma flat_map_sublist {X Y : Type} (f g : X -> list Y) (l : list X) :
  (forall x, f x `sublist_of` g x) -> flat_map f l `sublist_of` flat_map g l.
Proof.
  intros Hfg. induction l as [|x l IH]; simpl; [constructor|].
  by apply sublist_app.
Qed.

Lemma StronglySorted_sublist {X : Type} (R : X -> X -> Prop) (l k : list X) :
  l `sublist_of` k -> StronglySorted R k -> StronglySorted R l.
Proof.
  induction 1 as [|x l k Hsub IH|x l k Hsub IH]; intros Hk.
  - constructor.
  - apply StronglySorted_inv in Hk as [Hk Hx].
    constructor; [by apply IH|].
    apply Forall_forall. intros y Hy.
    rewrite Forall_forall in Hx. apply Hx. by eapply elem_of_sublist.
  - apply StronglySorted_inv in Hk as [Hk _]. by apply IH.
Qed.

(** ** The squares [generateLegalMoves] returns *)

Lemma cellIs_true (board : Board) (r c : Z) (x : Cell) :
  cellIs board r c x = true <-> cellAt board r c = Some x.
Proof. unfold cellIs. apply bool_decide_eq_true. Qed.

Lemma indices_range (i : Z) : In i indices <-> 0 <= i <= 7.
Proof. unfold indices. simpl. lia. Qed.

Lemma legalAt_cases (board : Board) (color : Cell) (r c : Z) :
  legalAt board color r c = [] \/
  (legalAt board color r c = [Some (Coord.mk r c)]
   /\ cellAt board r c = Some Empty
   /\ exists d, In d directions /\ hasFlipsInDirection board r c (fst d) (snd d) color = true).
Proof.
  unfold legalAt.
  destruct (cellIs board r c Empty) eqn:He; cbn [negb]; [|by left].
  destruct (existsb (fun d => hasFlipsInDirection board r c (fst d) (snd d) color)
              directions) eqn:Hex; [right|by left].
  split; [done|]. split; [by apply cellIs_true|].
  apply existsb_exists in Hex as (d & Hd & Hflip). eauto.
Qed.

Lemma legalRow_sublist (board : Board) (color : Cell) (r : Z) (cols : list Z) :
  flat_map (fun c => legalAt board color r c) cols
    `sublist_of` map (fun c => Some (Coord.mk r c)) cols.
Proof.
  induction cols as [|c cols IH]; simpl; [constructor|].
  destruct (legalAt_cases board color r c) as [->|[-> _]]; simpl.
  - by apply sublist_cons.
  - by apply sublist_skip.
Qed.

Lemma generateLegalMoves_sublist (board : Board) (color : Cell) :
  generateLegalMoves board color `sublist_of` allSquares.
Proof.
  unfold generateLegalMoves, allSquares.
  destruct color; [apply sublist_nil_l| |];
    apply flat_map_sublist; intros r; apply legalRow_sublist.
Qed.

Lemma allSquares_sorted : StronglySorted rowMajorLt allSquares.
Proof. apply (bool_decide_unpack _). vm_compute. reflexivity. Qed.

Lemma allSquares_NoDup : NoDup allSquares.
Proof. apply (bool_decide_unpack _). vm_compute. reflexivity. Qed.

(** What membership in the result says about a move. *)
Lemma generateLegalMoves_In (board : Board) (color : Cell) (move : Move) :
  In move (generateLegalMoves board color) ->
  exists r c,
    move = Some (Coord.mk r c)
    /\ 0 <= r <= 7 /\ 0 <= c <= 7
    /\ cellAt board r c = Some Empty
    /\ exists d, In d directions /\ hasFlipsInDirection board r c (fst d) (snd d) color = true.
Proof.
  unfold generateLegalMoves. intros Hin.
  assert (In move (flat_map (fun r => flat_map (fun c => legalAt board color r c) indices)
                     indices)) as Hin'.
  { destruct color; [destruct Hin|done|done]. }
  clear Hin.
  apply in_flat_map in Hin' as (r & Hr & Hin).
  apply in_flat_map in Hin as (c & Hc & Hin).
  destruct (legalAt_cases board color r c) as [Hnil|(Hone & Hempty & Hd)].
  - rewrite Hnil in Hin. destruct Hin.
  - rewrite Hone in Hin. destruct Hin as [<-|[]].
    exists r, c. apply indices_range in Hr, Hc. auto.
Qed.

(** C10: [generateLegalMoves] returns non-null moves on squares of the
    8x8 grid that are empty on the input board, without repetition, in
    strictly increasing row-major order. *)
Theorem generateLegalMoves_enumeration (board : Board) (color : Cell) :
  Forall
    (fun move =>
       exists r c,
         move = Some (Coord.mk r c)
         /\ 0 <= r <= 7 /\ 0 <= c <= 7
         /\ cellAt board r c = Some Empty)
    (generateLegalMoves board color)
  /\ NoDup (generateLegalMoves board color)
  /\ StronglySorted rowMajorLt (generateLegalMoves board color).
Proof.
  split; [|split].
  - apply Forall_forall. intros move Hin.
    apply list_elem_of_In in Hin.
    apply generateLegalMoves_In in Hin as (r & c & -> & Hr & Hc & He & _).
    exists r, c. auto.
  - apply (sublist_NoDup _ _ allSquares_NoDup (generateLegalMoves_sublist board color)).
  - eapply StronglySorted_sublist; [apply generateLegalMoves_sublist|apply allSquares_sorted].
Qed.

(** ** Applying a legal move *)

(** Two ray loops over the same board walk in step: they stop on the same
    square, with accumulators related by any relation both bodies keep. *)
Lemma rayLoop_sim {A B : Type} (R : A -> B -> Prop) (board : Board) (opponent : Cell)
    (dr dc : Z) (f : Z -> Z -> A -> A) (g : Z -> Z -> B -> B) :
  (forall nr nc a b, R a b -> R (f nr nc a) (g nr nc b)) ->
  forall fuel nr nc a b, R a b ->
  match rayLoop fuel board opponent dr dc f nr nc a,
        rayLoop fuel board opponent dr dc g nr nc b with
  | Some (x, y, a'), Some (x', y', b') => x = x' /\ y = y' /\ R a' b'
  | None, None => True
  | _, _ => False
  end.
Proof.
  intros Hstep. induction fuel as [|fuel IH]; intros nr nc a b Hab; simpl; [done|].
  destruct (inBounds nr nc && cellIs board nr nc opponent); [|done].
  apply IH. by apply Hstep.
Qed.

(** A direction in which [hasFlipsInDirection] holds contributes at least
    one flip to [getFlipsInDirection]. *)
Lemma hasFlips_getFlips (board : Board) (r c dr dc : Z) (color : Cell) :
  hasFlipsInDirection board r c dr dc color = true ->
  getFlipsInDirection board r c dr dc color <> [].
Proof.
  unfold hasFlipsInDirection, getFlipsInDirection. cbv zeta.
  pose proof (rayLoop_sim (fun (h : bool) (l : list (Z * Z)) => h = true -> l <> [])
                board (negate color) dr dc
                (fun _ _ _ => true) (fun nr nc flips => flips ++ [(nr, nc)])) as Hsim.
  specialize (Hsim ltac:(intros ? ? ? [|] _ _; discriminate)
                rayFuel (r + dr) (c + dc) false [] ltac:(discriminate)).
  destruct (rayLoop rayFuel board (negate color) dr dc (fun _ _ _ => true)
              (r + dr) (c + dc) false) as [[[x y] h]|];
    destruct (rayLoop rayFuel board (negate color) dr dc
                (fun nr nc flips => flips ++ [(nr, nc)]) (r + dr) (c + dc) [])
      as [[[x' y'] l]|]; try done.
  destruct Hsim as (<- & <- & Hhl). intros Hflip.
  apply andb_true_iff in Hflip as [Hflip Hend].
  apply andb_true_iff in Hflip as [Hh Hin].
  rewrite Hin, Hend. simpl. by apply Hhl.
Qed.

(** Reading a square after a write. *)
Lemma cellAt_setCell (board : Board) (r c r' c' : Z) (x : Cell) :
  cellAt (setCell board r c x) r' c' =
    match cellAt board r c with
    | Some _ => if decide (r = r' /\ c = c') then Some x else cellAt board r' c'
    | None => cellAt board r' c'
    end.
Proof.
  unfold setCell, cellAt.
  destruct ((0 <=? r) && (0 <=? c)) eqn:Hrc; [|done].
  destruct (board !! Z.to_nat r) as [row|] eqn:Hrow; [|done].
  zprop. destruct Hrc as [Hr Hc].
  destruct (row !! Z.to_nat c) as [old|] eqn:Hold.
  - destruct (decide (r = r' /\ c = c')) as [[<- <-]|Hne].
    + assert ((0 <=? r) && (0 <=? c) = true) as -> by (zprop; lia).
      rewrite list_lookup_insert_eq by (by eapply lookup_lt_Some).
      rewrite list_lookup_insert_eq by (by eapply lookup_lt_Some). done.
    + destruct ((0 <=? r') && (0 <=? c')) eqn:Hrc'; [|done].
      zprop. destruct Hrc' as [Hr' Hc'].
      destruct (decide (r = r')) as [<-|Hrr].
      * rewrite list_lookup_insert_eq by (by eapply lookup_lt_Some).
        rewrite Hrow. apply list_lookup_insert_ne. intros Heq. apply Hne. split; [done|lia].
      * rewrite list_lookup_insert_ne by lia. done.
  - rewrite (list_insert_ge row) by (by apply lookup_ge_None).
    rewrite list_insert_id by done. done.
Qed.

(** A write of [x] keeps a square that already holds [x]. *)
Lemma setCell_keeps (board : Board) (r c r' c' : Z) (x : Cell) :
  cellAt board r' c' = Some x -> cellAt (setCell board r c x) r' c' = Some x.
Proof.
  intros H. rewrite cellAt_setCell.
  destruct (cellAt board r c); [|done]. by destruct (decide _).
Qed.

Section ApplyMove.
Context (board : Board) (r c : Z) (color : Cell).

Lemma flipDirection_keeps (r' c' : Z) (dirs : list (Z * Z)) : forall st,
  cellAt (fst st) r' c' = Some color ->
  cellAt (fst (fold_left (flipDirection board r c color) dirs st)) r' c' = Some color.
Proof.
  induction dirs as [|d dirs IH]; intros st Hst; simpl; [done|].
  apply IH. unfold flipDirection. simpl.
  generalize (getFlipsInDirection board r c (fst d) (snd d) color). intros flips.
  revert Hst. generalize (fst st). induction flips as [|f flips IHf]; intros nb Hnb; simpl; [done|].
  apply IHf. by apply setCell_keeps.
Qed.

Lemma flipDirection_count (dirs : list (Z * Z)) : forall st,
  snd st <= snd (fold_left (flipDirection board r c color) dirs st)
  /\ forall d, In d dirs ->
       snd st + Z.of_nat (length (getFlipsInDirection board r c (fst d) (snd d) color))
         <= snd (fold_left (flipDirection board r c color) dirs st).
Proof.
  induction dirs as [|d dirs IH]; intros st; simpl; [split; [lia|intros ? []]|].
  destruct (IH (flipDirection board r c color st d)) as [Hle Hin].
  assert (snd (flipDirection board r c color st d)
          = snd st + Z.of_nat (length (getFlipsInDirection board r c (fst d) (snd d) color)))
    as Hd by reflexivity.
  split; [lia|].
  intros d' [<-|Hd']; [lia|].
  specialize (Hin d' Hd'). lia.
Qed.

End ApplyMove.

(** C6: a move taken from [generateLegalMoves] flips at least one disc
    when applied, and its square holds the mover's colour afterwards. *)
Theorem applyMove_legal (board : Board) (color : Cell) (move : Move) :
  In move (generateLegalMoves board color) ->
  1 <= snd (applyMove board move color)
  /\ exists m, move = Some m
       /\ cellAt (fst (applyMove board move color)) (Coord.r m) (Coord.c m) = Some color.
Proof.
  intros Hin.
  apply generateLegalMoves_In in Hin as (r & c & -> & Hr & Hc & Hempty & d & Hd & Hflip).
  unfold applyMove. simpl. split.
  - destruct (flipDirection_count board r c color directions (setCell board r c color, 0))
      as [_ Hcount].
    specialize (Hcount d Hd). simpl in Hcount.
    apply hasFlips_getFlips in Hflip.
    destruct (getFlipsInDirection board r c (fst d) (snd d) color); [done|].
    simpl in Hcount. etransitivity; [|exact Hcount]. lia.
  - exists (Coord.mk r c). split; [done|]. simpl.
    apply (flipDirection_keeps board r c color r c directions (setCell board r c color, 0)).
    simpl. rewrite cellAt_setCell, Hempty. destruct (decide _) as [|Hne]; [done|].
    destruct Hne; done.
Qed.

(** Black's opening e3 on the starting board is such a move. *)
Lemma applyMove_legal_witness :
  In (Some (Coord.mk 2 4)) (generateLegalMoves createStartingBoard Black)
  /\ 1 <= snd (applyMove createStartingBoard (Some (Coord.mk 2 4)) Black)
  /\ exists m, Some (Coord.mk 2 4) = Some m
       /\ cellAt (fst (applyMove createStartingBoard (Some (Coord.mk 2 4)) Black))
            (Coord.r m) (Coord.c m) = Some Black.
Proof.
  assert (In (Some (Coord.mk 2 4)) (generateLegalMoves createStartingBoard Black)) as H.
  { vm_compute. auto. }
  split; [exact H|].
  exact (applyMove_legal createStartingBoard Black (Some (Coord.mk 2 4)) H).
Defined.

(** ** Serialization round trip *)

Lemma split_line (sep : Z) (line : Js.str) :
  sep ∉ line -> Js.split sep line = [line].
Proof.
  induction line as [|u line IH]; intros Hsep; simpl; [done|].
  apply not_elem_of_cons in Hsep as [Hu Hline].
  destruct (Z.eqb_spec u sep) as [->|_]; [done|].
  by rewrite IH.
Qed.

Lemma split_line_sep (sep : Z) (line rest : Js.str) :
  sep ∉ line -> Js.split sep (line ++ sep :: rest) = line :: Js.split sep rest.
Proof.
  induction line as [|u line IH]; intros Hsep; simpl.
  - by rewrite Z.eqb_refl.
  - apply not_elem_of_cons in Hsep as [Hu Hline].
    destruct (Z.eqb_spec u sep) as [->|_]; [done|].
    by rewrite IH.
Qed.

(** Splitting a joined list of lines gives the lines back, when there is
    at least one line and no line holds the separator. *)
Lemma split_join (sep : Z) (lines : list Js.str) :
  lines <> [] -> Forall (fun line => sep ∉ line) lines ->
  Js.split sep (Js.join sep lines) = lines.
Proof.
  induction lines as [|line lines IH]; intros Hne Hall; [done|].
  apply Forall_cons in Hall as [Hline Hall].
  destruct lines as [|line' lines].
  - simpl. by apply split_line.
  - change (Js.join sep (line :: line' :: lines))
      with (line ++ sep :: Js.join sep (line' :: lines)).
    rewrite split_line_sep by done. by rewrite IH.
Qed.

Lemma trimStart_id (u : Z) (s : Js.str) :
  Js.isWhiteSpace u = false -> Js.trimStart (u :: s) = u :: s.
Proof. intros H. simpl. by rewrite H. Qed.

(** [trim] leaves a string alone whose first and last code units are not
    white space. *)
Lemma trim_id (u v : Z) (s : Js.str) :
  Js.isWhiteSpace u = false -> Js.isWhiteSpace v = false ->
  Js.trim (u :: s ++ [v]) = u :: s ++ [v].
Proof.
  intros Hu Hv. unfold Js.trim.
  rewrite trimStart_id by done.
  assert (rev (u :: s ++ [v]) = v :: rev (u :: s)) as ->.
  { change (u :: s ++ [v]) with ((u :: s) ++ [v]). by rewrite rev_app_distr. }
  rewrite trimStart_id by done.
  change (rev (v :: rev (u :: s))) with (rev (rev (u :: s)) ++ [v]).
  by rewrite rev_involutive.
Qed.

Lemma cellChar_not_space (cell : Cell) : Js.isWhiteSpace (cellChar cell) = false.
Proof. by destruct cell. Qed.

Lemma cellChar_not_newline (row : list Cell) : 10 ∉ map cellChar row.
Proof.
  induction row as [|cell row IH]; [apply not_elem_of_nil|].
  simpl. apply not_elem_of_cons. split; [by destruct cell|done].
Qed.

Lemma rowText (row : list Cell) :
  concat (map (fun cell => [cellChar cell]) row) = map cellChar row.
Proof. induction row as [|cell row IH]; simpl; [done|by rewrite IH]. Qed.

Lemma readRow_text (row acc : list Cell) :
  readRow (map cellChar row) acc = inr (acc ++ row).
Proof.
  revert acc. induction row as [|cell row IH]; intros acc; simpl.
  - by rewrite app_nil_r.
  - destruct cell; simpl; rewrite IH, <- app_assoc; done.
Qed.

Lemma readRows_text (rows acc : list (list Cell)) :
  Forall (fun row => length row = 8%nat) rows ->
  readRows (map (map cellChar) rows) acc = inr (acc ++ rows).
Proof.
  revert acc. induction rows as [|row rows IH]; intros acc Hall; simpl.
  - by rewrite app_nil_r.
  - apply Forall_cons in Hall as [Hrow Hall].
    rewrite length_map, Hrow. simpl.
    rewrite readRow_text. simpl. rewrite IH by done. by rewrite <- app_assoc.
Qed.

(** The text of a board with at least one row, all rows of eight cells,
    starts and ends with the character of a cell. *)
Lemma join_ends (rows : list (list Cell)) :
  rows <> [] -> Forall (fun row => length row = 8%nat) rows ->
  exists x y s, Js.join 10 (map (map cellChar) rows) = cellChar x :: s ++ [cellChar y].
Proof.
  induction rows as [|row rows IH]; intros Hne Hall; [done|].
  apply Forall_cons in Hall as [Hrow Hall].
  destruct row as [|x row]; [done|].
  destruct rows as [|row' rows].
  - destruct row as [|x1 [|x2 [|x3 [|x4 [|x5 [|x6 [|x7 [|x8 row]]]]]]]]; try done.
    by exists x, x7, (map cellChar [x1; x2; x3; x4; x5; x6]).
  - destruct IH as (x' & y & s & Hjoin); [done|done|].
    exists x, y, (map cellChar row ++ 10 :: cellChar x' :: s).
    change (Js.join 10 (map (map cellChar) ((x :: row) :: row' :: rows)))
      with (map cellChar (x :: row) ++ 10 :: Js.join 10 (map (map cellChar) (row' :: rows))).
    rewrite Hjoin. simpl. f_equal. rewrite <- app_assoc. simpl. done.
Qed.

Lemma trim_text (rows : list (list Cell)) :
  rows <> [] -> Forall (fun row => length row = 8%nat) rows ->
  Js.trim (Js.join 10 (map (map cellChar) rows)) = Js.join 10 (map (map cellChar) rows).
Proof.
  intros Hne Hall. destruct (join_ends rows Hne Hall) as (x & y & s & ->).
  apply trim_id; apply cellChar_not_space.
Qed.

(** C9: deserializing the text of a valid board gives the board back. *)
Theorem deserialize_serialize (board : Board) :
  validBoard board -> deserializeBoard (serializeBoard board) = inr board.
Proof.
  intros [Hrows Hcols].
  assert (board <> []) as Hne by (intros ->; done).
  unfold deserializeBoard, serializeBoard.
  rewrite (map_ext _ (map cellChar) rowText).
  rewrite trim_text by done.
  rewrite split_join.
  - rewrite length_map, Hrows. simpl. by apply readRows_text.
  - by destruct board.
  - apply Forall_map, Forall_true. intros row. apply cellChar_not_newline.
Qed.

(** The starting board is valid and round-trips. *)
Lemma deserialize_serialize_witness :
  validBoard createStartingBoard
  /\ deserializeBoard (serializeBoard createStartingBoard) = inr createStartingBoard.
Proof.
  assert (validBoard createStartingBoard) as H.
  { split; [reflexivity|]. repeat constructor. }
  split; [exact H|]. exact (deserialize_serialize createStartingBoard H).
Defined.

(** ** Algebraic notation *)

(** [parseInt] of a string of one code unit: the digit, or [NaN]. *)
Lemma parseInt_unit (u : Z) :
  Js.parseInt [u] = match Js.digitValue u with Some d => Js.Num d | None => Js.NaN end.
Proof.
  unfold Js.parseInt, Js.digitValue. simpl Js.trimStart.
  destruct (Js.isWhiteSpace u) eqn:Hws.
  - assert ((48 <=? u) && (u <=? 57) = false) as ->; [|done].
    unfold Js.isWhiteSpace in Hws. simpl in Hws. zprop. lia.
  - destruct (Z.eqb_spec u 45) as [->|_]; [done|].
    destruct (Z.eqb_spec u 43) as [->|_]; [done|].
    simpl. unfold Js.digitValue.
    destruct ((48 <=? u) && (u <=? 57)); simpl; [f_equal; lia|done].
Qed.

(** What [algebraicToMove] does with two code units. *)
Lemma algebraicToMove_two (u0 u1 : Z) :
  algebraicToMove [u0; u1] =
    if (97 <=? u0) && (u0 <=? 104) then
      if (48 <=? u1) && (u1 <=? 57) then
        if (49 <=? u1) && (u1 <=? 56)
        then Some (Js.mkCoord (Js.Num (u1 - 49)) (Js.Num (u0 - 97)))
        else None
      else Some (Js.mkCoord Js.NaN (Js.Num (u0 - 97)))
    else None.
Proof.
  unfold algebraicToMove.
  destruct (decide ([u0; u1] = Js.lit "pass")) as [Heq|_]; [discriminate Heq|].
  rewrite parseInt_unit. unfold Js.digitValue.
  destruct ((97 <=? u0) && (u0 <=? 104)) eqn:Hcol.
  - assert ((u0 - 97 <? 0) || (u0 - 97 >? 7) = false) as -> by (zprop; lia).
    destruct ((48 <=? u1) && (u1 <=? 57)) eqn:Hdigit; simpl; [|done].
    destruct ((49 <=? u1) && (u1 <=? 56)) eqn:Hrow.
    + assert ((u1 - 48 - 1 <? 0) || (u1 - 48 - 1 >? 7) = false) as -> by (zprop; lia).
      do 3 f_equal. lia.
    + assert ((u1 - 48 - 1 <? 0) || (u1 - 48 - 1 >? 7) = true) as -> by (zprop; lia).
      done.
  - assert ((u0 - 97 <? 0) || (u0 - 97 >? 7) = true) as -> by (zprop; lia).
    done.
Qed.

(** The label of a move on the board decodes to the move. *)
Lemma algebraicToMove_moveToAlgebraic (r c : Z) :
  0 <= r <= 7 -> 0 <= c <= 7 ->
  algebraicToMove (moveToAlgebraic (Some (Coord.mk r c)))
    = Some (Js.mkCoord (Js.Num r) (Js.Num c)).
Proof.
  intros Hr Hc. apply indices_range in Hr, Hc. unfold indices in Hr, Hc. simpl in Hr, Hc.
  repeat (destruct Hr as [<-|Hr]); try destruct Hr;
    repeat (destruct Hc as [<-|Hc]); try destruct Hc; vm_compute; reflexivity.
Qed.

(** The pass token round-trips both ways. *)
Lemma algebraic_pass :
  moveToAlgebraic None = Js.lit "pass" /\ algebraicToMove (Js.lit "pass") = None.
Proof. split; reflexivity. Qed.

(** A string that decodes to a square is the label of that square. *)
Lemma moveToAlgebraic_algebraicToMove (algebraic : Js.str) (r c : Z) :
  algebraicToMove algebraic = Some (Js.mkCoord (Js.Num r) (Js.Num c)) ->
  moveToAlgebraic (Some (Coord.mk r c)) = algebraic.
Proof.
  intros H.
  destruct algebraic as [|u0 [|u1 [|u2 rest]]];
    try (unfold algebraicToMove in H; destruct (decide _); discriminate H).
  rewrite algebraicToMove_two in H.
  destruct ((97 <=? u0) && (u0 <=? 104)) eqn:Hcol; [|done].
  destruct ((48 <=? u1) && (u1 <=? 57)) eqn:Hdigit; [|done].
  destruct ((49 <=? u1) && (u1 <=? 56)) eqn:Hrow; [|done].
  injection H as <- <-. zprop.
  assert (In (u0 - 97) indices) as Hc by (apply indices_range; lia).
  assert (In (u1 - 49) indices) as Hr by (apply indices_range; lia).
  replace u0 with ((u0 - 97) + 97) at 2 by lia.
  replace u1 with ((u1 - 49) + 49) at 2 by lia.
  revert Hc Hr. generalize (u0 - 97) (u1 - 49). intros c r Hc Hr.
  unfold indices in Hr, Hc. simpl in Hr, Hc.
  repeat (destruct Hr as [<-|Hr]); try destruct Hr;
    repeat (destruct Hc as [<-|Hc]); try destruct Hc; vm_compute; reflexivity.
Qed.

(** Strings of the wrong length decode to [null]. *)
Lemma algebraicToMove_length (algebraic : Js.str) :
  length algebraic <> 2%nat -> algebraicToMove algebraic = None.
Proof.
  intros Hlen. unfold algebraicToMove. destruct (decide _); [done|].
  by destruct algebraic as [|u0 [|u1 [|u2 rest]]].
Qed.

(** A first character outside ['a'..'h'] decodes to [null]. *)
Lemma algebraicToMove_letter (u0 u1 : Z) :
  u0 < 97 \/ 104 < u0 -> algebraicToMove [u0; u1] = None.
Proof.
  intros H. rewrite algebraicToMove_two.
  assert ((97 <=? u0) && (u0 <=? 104) = false) as -> by (zprop; lia). done.
Qed.

(** The digits ['0'] and ['9'] decode to [null]. *)
Lemma algebraicToMove_digit (u0 u1 : Z) :
  u1 = 48 \/ u1 = 57 -> algebraicToMove [u0; u1] = None.
Proof.
  intros [-> | ->]; rewrite algebraicToMove_two; by destruct ((97 <=? u0) && (u0 <=? 104)).
Qed.

(** A second character that is no digit, after a letter of ['a'..'h'],
    decodes to an object whose row is [NaN]. *)
Lemma algebraicToMove_nondigit (u0 u1 : Z) :
  97 <= u0 <= 104 -> u1 < 48 \/ 57 < u1 ->
  algebraicToMove [u0; u1] = Some (Js.mkCoord Js.NaN (Js.Num (u0 - 97))).
Proof.
  intros H0 H1. rewrite algebraicToMove_two.
  assert ((97 <=? u0) && (u0 <=? 104) = true) as -> by (zprop; lia).
  assert ((48 <=? u1) && (u1 <=? 57) = false) as -> by (zprop; lia). done.
Qed.

(** C7: the malformed string "ax" (a non-digit second character) does not
    decode to [null]: [algebraicToMove] returns the object
    [{ r: NaN, c: 0 }], although labels of moves and the pass token do
    round-trip and wrong lengths, letters and digits decode to [null]. *)
Theorem algebraicToMove_ax :
  algebraicToMove (Js.lit "ax") = Some (Js.mkCoord Js.NaN (Js.Num 0))
  /\ algebraicToMove (Js.lit "ax") <> None.
Proof. split; [reflexivity|discriminate]. Qed.

(** ** Incremental hashing *)

Lemma lxor_side_differs (h : Z) : Z.lxor h Zobrist.ZOBRIST_SIDE_TO_MOVE <> h.
Proof.
  intros H. apply (f_equal (Z.lxor h)) in H.
  rewrite <- Z.lxor_assoc, Z.lxor_nilpotent, Z.lxor_0_l in H. discriminate H.
Qed.

Section Hashing.
Variable ZOBRIST_PIECES : Z -> Z -> Z.

(** C1: for White's legal opening d3 on the starting board the
    incremental hash is the from-scratch hash of the resulting position
    with the side-to-move constant XOR-ed in once more, so the two differ
    (whatever the random table holds). *)
Theorem updateHash_white_mismatch :
  let board := createStartingBoard in
  let move := Coord.mk 2 3 in
  let flipped := Search.getFlippedPositions board (Some move) White in
  let board' := fst (applyMove board (Some move) White) in
  let incremental :=
    Zobrist.updateHash ZOBRIST_PIECES (Zobrist.hashBoard ZOBRIST_PIECES board White)
      move White flipped in
  let scratch := Zobrist.hashBoard ZOBRIST_PIECES board' Black in
  In (Some move) (generateLegalMoves board White)
  /\ flipped = [(3, 3)]
  /\ incremental = Z.lxor scratch Zobrist.ZOBRIST_SIDE_TO_MOVE
  /\ incremental <> scratch.
Proof.
  cbv zeta.
  assert (Zobrist.updateHash ZOBRIST_PIECES
            (Zobrist.hashBoard ZOBRIST_PIECES createStartingBoard White)
            (Coord.mk 2 3) White
            (Search.getFlippedPositions createStartingBoard (Some (Coord.mk 2 3)) White)
          = Z.lxor
              (Zobrist.hashBoard ZOBRIST_PIECES
                 (fst (applyMove createStartingBoard (Some (Coord.mk 2 3)) White)) Black)
              Zobrist.ZOBRIST_SIDE_TO_MOVE) as Heq.
  { cbv -[Z.lxor Zobrist.ZOBRIST_SIDE_TO_MOVE]. xor_chain. }
  split; [vm_compute; auto|]. split; [reflexivity|]. split; [exact Heq|].
  rewrite Heq. apply lxor_side_differs.
Qed.

End Hashing.

(** ** Incremental hashing, in general *)

(** The squares a ray loop collects: consecutive steps from its entry
    point, all on the board and all holding the opponent's colour. *)
Lemma rayLoop_flips (board : Board) (opponent : Cell) (dr dc : Z) (fuel : nat) :
  forall (nr nc : Z) (acc : list (Z * Z)) (x y : Z) (l : list (Z * Z)),
    rayLoop fuel board opponent dr dc (fun nr nc flips => flips ++ [(nr, nc)]) nr nc acc
      = Some (x, y, l) ->
    exists n : nat,
      l = acc ++ map (fun k => (nr + Z.of_nat k * dr, nc + Z.of_nat k * dc)) (seq 0 n)
      /\ x = nr + Z.of_nat n * dr /\ y = nc + Z.of_nat n * dc
      /\ forall k, (k < n)%nat ->
           inBounds (nr + Z.of_nat k * dr) (nc + Z.of_nat k * dc) = true
           /\ cellAt board (nr + Z.of_nat k * dr) (nc + Z.of_nat k * dc) = Some opponent.
Proof.
  induction fuel as [|fuel IH]; intros nr nc acc x y l Hrun; [done|].
  simpl in Hrun.
  destruct (inBounds nr nc && cellIs board nr nc opponent) eqn:Hgo.
  - apply IH in Hrun as (n & -> & -> & -> & Hall).
    apply andb_true_iff in Hgo as [Hin Hcell]. apply cellIs_true in Hcell.
    exists (S n). split; [|split; [lia|split; [lia|]]].
    + rewrite <- app_assoc. f_equal. simpl. f_equal; [f_equal; lia|].
      rewrite <- seq_shift, map_map. apply map_ext. intros k. f_equal; lia.
    + intros [|k] Hk.
      * replace (nr + Z.of_nat 0 * dr) with nr by lia.
        replace (nc + Z.of_nat 0 * dc) with nc by lia. done.
      * specialize (Hall k ltac:(lia)).
        replace (nr + Z.of_nat (S k) * dr) with (nr + dr + Z.of_nat k * dr) by lia.
        replace (nc + Z.of_nat (S k) * dc) with (nc + dc + Z.of_nat k * dc) by lia. done.
  - injection Hrun as <- <- <-. exists 0%nat. simpl.
    rewrite app_nil_r. repeat split; try lia.
Qed.

(** The squares [getFlipsInDirection] returns lie [k >= 1] steps from the
    move's square, on the board, and hold the opponent's colour. *)
Lemma getFlips_elem (board : Board) (r c dr dc : Z) (color : Cell) (p : Z * Z) :
  In p (getFlipsInDirection board r c dr dc color) ->
  exists k, 1 <= k /\ p = (r + k * dr, c + k * dc)
            /\ inBounds (fst p) (snd p) = true
            /\ cellAt board (fst p) (snd p) = Some (negate color).
Proof.
  unfold getFlipsInDirection. cbv zeta.
  destruct (rayLoop _ _ _ _ _ _ _ _ _) as [[[x y] l]|] eqn:Hrun; [|done].
  apply rayLoop_flips in Hrun as (n & -> & _ & _ & Hall).
  destruct (inBounds x y && cellIs board x y color); [|done].
  simpl. intros Hin. apply in_map_iff in Hin as (k & <- & Hk).
  apply in_seq in Hk. destruct (Hall k ltac:(lia)) as [Hb Hc].
  exists (Z.of_nat k + 1). split; [lia|].
  replace (r + (Z.of_nat k + 1) * dr) with (r + dr + Z.of_nat k * dr) by lia.
  replace (c + (Z.of_nat k + 1) * dc) with (c + dc + Z.of_nat k * dc) by lia.
  done.
Qed.

Lemma getFlips_NoDup (board : Board) (r c dr dc : Z) (color : Cell) :
  In (dr, dc) directions -> NoDup (getFlipsInDirection board r c dr dc color).
Proof.
  intros Hd. unfold getFlipsInDirection. cbv zeta.
  destruct (rayLoop _ _ _ _ _ _ _ _ _) as [[[x y] l]|] eqn:Hrun; [|constructor].
  apply rayLoop_flips in Hrun as (n & -> & _ & _ & _).
  destruct (inBounds x y && cellIs board x y color); [|constructor].
  simpl. apply NoDup_fmap_2_strong; [|apply NoDup_ListNoDup, seq_NoDup].
  intros k1 k2 _ _ Heq. injection Heq as H1 H2.
  simpl in Hd.
  repeat (destruct Hd as [Hd|Hd]; [injection Hd as <- <-; lia|]). destruct Hd.
Qed.

(** Squares on rays of different directions differ. *)
Lemma rays_apart (r c k1 k2 : Z) (d1 d2 : Z * Z) :
  In d1 directions -> In d2 directions -> 1 <= k1 -> 1 <= k2 ->
  (r + k1 * fst d1, c + k1 * snd d1) = (r + k2 * fst d2, c + k2 * snd d2) ->
  d1 = d2.
Proof.
  intros H1 H2 Hk1 Hk2 Heq. injection Heq as Hr Hc. simpl in H1, H2.
  repeat (destruct H1 as [<-|H1]); try destruct H1;
    repeat (destruct H2 as [<-|H2]); try destruct H2;
    simpl in Hr, Hc; first [reflexivity | lia].
Qed.

(** [getFlippedPositions] lists the flips of the eight directions one
    after the other. *)
Lemma getFlippedPositions_flat (board : Board) (m : Coord.t) (color : Cell) :
  Search.getFlippedPositions board (Some m) color
  = flat_map (fun d => getFlipsInDirection board (Coord.r m) (Coord.c m) (fst d) (snd d) color)
      directions.
Proof.
  unfold Search.getFlippedPositions. cbv zeta.
  assert (forall dirs init,
            fold_left
              (fun flipped d =>
                 match rayLoop rayFuel board (negate color) (fst d) (snd d)
                         (fun nr nc directionFlips => directionFlips ++ [(nr, nc)])
                         (Coord.r m + fst d) (Coord.c m + snd d) [] with
                 | Some (nr, nc, directionFlips) =>
                     if inBounds nr nc && cellIs board nr nc color
                     then flipped ++ directionFlips
                     else flipped
                 | None => flipped
                 end) dirs init
            = init ++ flat_map
                        (fun d => getFlipsInDirection board (Coord.r m) (Coord.c m)
                                    (fst d) (snd d) color) dirs) as Hfold.
  { induction dirs as [|d dirs IH]; intros init; cbn [fold_left flat_map];
      [by rewrite app_nil_r|].
    rewrite IH, app_assoc. f_equal. unfold getFlipsInDirection. cbv zeta.
    destruct (rayLoop _ _ _ _ _ _ _ _ _) as [[[x y] l]|]; [|by rewrite app_nil_r].
    destruct (inBounds x y && cellIs board x y color); [done|by rewrite app_nil_r]. }
  apply Hfold.
Qed.

(** The board [applyMove] returns: the placed disc, then the flips in the
    order of [getFlippedPositions]. *)
Lemma applyMove_writes (board : Board) (m : Coord.t) (color : Cell) :
  fst (applyMove board (Some m) color)
  = fold_left (fun nb f => setCell nb (fst f) (snd f) color)
      (Search.getFlippedPositions board (Some m) color)
      (setCell board (Coord.r m) (Coord.c m) color).
Proof.
  rewrite getFlippedPositions_flat. unfold applyMove. cbv zeta.
  generalize (setCell board (Coord.r m) (Coord.c m) color). generalize 0.
  induction directions as [|d dirs IH]; intros n nb; cbn [fold_left flat_map]; [done|].
  rewrite fold_left_app. apply IH.
Qed.

(** The flipped squares are distinct squares of the board that hold the
    opponent's colour. *)
Lemma getFlippedPositions_facts (board : Board) (m : Coord.t) (color : Cell) :
  NoDup (Search.getFlippedPositions board (Some m) color)
  /\ forall p, In p (Search.getFlippedPositions board (Some m) color) ->
       inBounds (fst p) (snd p) = true
       /\ cellAt board (fst p) (snd p) = Some (negate color).
Proof.
  rewrite getFlippedPositions_flat. split.
  - change (flat_map ?f ?l) with (l ≫= f).
    apply NoDup_bind.
    + intros d1 d2 p Hd1 Hd2 Hp1 Hp2.
      apply list_elem_of_In in Hd1, Hd2, Hp1, Hp2.
      apply getFlips_elem in Hp1 as (k1 & Hk1 & -> & _).
      apply getFlips_elem in Hp2 as (k2 & Hk2 & Heq & _).
      exact (rays_apart _ _ k1 k2 d1 d2 Hd1 Hd2 Hk1 Hk2 Heq).
    + intros [dr dc] Hd. apply list_elem_of_In in Hd. by apply getFlips_NoDup.
    + apply (bool_decide_unpack _). vm_compute. reflexivity.
  - intros p Hp. apply in_flat_map in Hp as (d & _ & Hp).
    apply getFlips_elem in Hp as (k & _ & _ & Hb & Hc). done.
Qed.

Lemma fold_left_pointwise {H X : Type} (f g : H -> X -> H) (l : list X) :
  (forall h p, f h p = g h p) -> forall h, fold_left f l h = fold_left g l h.
Proof.
  intros Hfg. induction l as [|p l IH]; intros h; simpl; [done|]. by rewrite Hfg, IH.
Qed.

Lemma squares_nested {H : Type} (f : H -> Z -> Z -> H) (h0 : H) :
  fold_left (fun h r => fold_left (fun h c => f h r c) indices h) indices h0
  = fold_left (fun h p => f h (fst p) (snd p)) Zobrist.squares h0.
Proof. reflexivity. Qed.

Lemma squares_In (r c : Z) : In (r, c) Zobrist.squares <-> inBounds r c = true.
Proof.
  unfold Zobrist.squares. rewrite in_flat_map. unfold inBounds. split.
  - intros (r' & Hr & Hin). apply in_map_iff in Hin as (c' & [= <- <-] & Hc).
    apply indices_range in Hr, Hc. zprop. lia.
  - intros Hb. zprop. exists r. split; [apply indices_range; lia|].
    apply in_map_iff. exists c. split; [done|apply indices_range; lia].
Qed.

Lemma squares_NoDup : NoDup Zobrist.squares.
Proof. apply (bool_decide_unpack _). vm_compute. reflexivity. Qed.

(** XOR-ing a value into the start of an XOR fold XORs it into the result. *)
Lemma xor_fold_shift {X : Type} (g : X -> Z) (l : list X) : forall h a,
  fold_left (fun h p => Z.lxor h (g p)) l (Z.lxor h a)
  = Z.lxor (fold_left (fun h p => Z.lxor h (g p)) l h) a.
Proof.
  induction l as [|p l IH]; intros h a; simpl; [done|].
  rewrite <- IH. f_equal. xor_chain.
Qed.

(** Changing the term of one element changes an XOR fold over a list
    without repetition by the XOR of its old and new terms. *)
Lemma xor_fold_update {X : Type} `{EqDecision X} (g g' : X -> Z) (p0 : X) (l : list X) :
  NoDup l -> (forall p, p <> p0 -> g' p = g p) ->
  forall h,
    fold_left (fun h p => Z.lxor h (g' p)) l h
    = Z.lxor (fold_left (fun h p => Z.lxor h (g p)) l h)
        (if decide (p0 ∈ l) then Z.lxor (g p0) (g' p0) else 0).
Proof.
  intros Hnd Hg. induction Hnd as [|p l Hp Hnd IH]; intros h; simpl fold_left.
  - destruct (decide (p0 ∈ [])) as [Hin|_]; [by apply elem_of_nil in Hin|].
    by rewrite Z.lxor_0_r.
  - rewrite IH. destruct (decide (p = p0)) as [->|Hne].
    + destruct (decide (p0 ∈ l)) as [Hin|_]; [done|].
      destruct (decide (p0 ∈ p0 :: l)) as [_|Hout]; [|destruct Hout; by left].
      rewrite Z.lxor_0_r.
      replace (Z.lxor h (g' p0)) with (Z.lxor (Z.lxor h (g p0)) (Z.lxor (g p0) (g' p0)))
        by xor_chain.
      apply xor_fold_shift.
    + rewrite (Hg p Hne).
      destruct (decide (p0 ∈ l)) as [Hin|Hout];
        destruct (decide (p0 ∈ p :: l)) as [Hin'|Hout']; try done.
      * destruct Hout'. by right.
      * apply elem_of_cons in Hin' as [Heq|Hin']; [congruence|done].
Qed.

Section HashingFacts.
Variable ZOBRIST_PIECES : Z -> Z -> Z.

Lemma hashSquare_xor (board : Board) (h r c : Z) :
  Zobrist.hashSquare ZOBRIST_PIECES board h r c
  = Z.lxor h (Zobrist.squareConstant ZOBRIST_PIECES board (r, c)).
Proof.
  unfold Zobrist.squareConstant, Zobrist.hashSquare. simpl.
  destruct (cellIs board r c Empty); [by rewrite Z.lxor_0_r|done].
Qed.

Lemma pieceHash_squares (board : Board) :
  Zobrist.pieceHash ZOBRIST_PIECES board
  = fold_left (fun h p => Z.lxor h (Zobrist.squareConstant ZOBRIST_PIECES board p))
      Zobrist.squares 0.
Proof.
  unfold Zobrist.pieceHash, Zobrist.hashBoard.
  rewrite (squares_nested (Zobrist.hashSquare ZOBRIST_PIECES board)).
  apply fold_left_pointwise. intros h [r c]. apply hashSquare_xor.
Qed.

Lemma squareConstant_cell (board : Board) (r c : Z) (x : Cell) :
  cellAt board r c = Some x ->
  Zobrist.squareConstant ZOBRIST_PIECES board (r, c)
  = Zobrist.pieceConstant ZOBRIST_PIECES x (r * 8 + c).
Proof.
  intros Hx. unfold Zobrist.squareConstant, Zobrist.hashSquare, cellIs. simpl.
  rewrite Hx. by destruct x.
Qed.

(** One write changes the hash of the pieces by the constants of the old
    and the new content of the square. *)
Lemma pieceHash_setCell (board : Board) (r c : Z) (old x : Cell) :
  inBounds r c = true -> cellAt board r c = Some old ->
  Zobrist.pieceHash ZOBRIST_PIECES (setCell board r c x)
  = Z.lxor (Zobrist.pieceHash ZOBRIST_PIECES board)
      (Z.lxor (Zobrist.pieceConstant ZOBRIST_PIECES old (r * 8 + c))
              (Zobrist.pieceConstant ZOBRIST_PIECES x (r * 8 + c))).
Proof.
  intros Hb Hold. rewrite !pieceHash_squares.
  rewrite (xor_fold_update (Zobrist.squareConstant ZOBRIST_PIECES board)
             (Zobrist.squareConstant ZOBRIST_PIECES (setCell board r c x)) (r, c)
             Zobrist.squares squares_NoDup).
  - destruct (decide ((r, c) ∈ Zobrist.squares)) as [_|Hout];
      [|destruct Hout; by apply list_elem_of_In, squares_In].
    rewrite (squareConstant_cell board r c old Hold).
    rewrite (squareConstant_cell (setCell board r c x) r c x); [done|].
    rewrite cellAt_setCell, Hold. destruct (decide _) as [|Hne]; [done|by destruct Hne].
  - intros [r' c'] Hne. unfold Zobrist.squareConstant, Zobrist.hashSquare, cellIs. simpl.
    rewrite cellAt_setCell, Hold.
    destruct (decide (r = r' /\ c = c')) as [[<- <-]|_]; [done|done].
Qed.

Lemma flipToggles_cons (color : Cell) (p : Z * Z) (fl : list (Z * Z)) :
  Zobrist.flipToggles ZOBRIST_PIECES color (p :: fl)
  = Z.lxor (Zobrist.flipToggles ZOBRIST_PIECES color fl)
      (Z.lxor (Zobrist.pieceConstant ZOBRIST_PIECES (negate color) (fst p * 8 + snd p))
              (Zobrist.pieceConstant ZOBRIST_PIECES color (fst p * 8 + snd p))).
Proof.
  unfold Zobrist.flipToggles. simpl fold_left. rewrite Z.lxor_0_l.
  rewrite <- (Z.lxor_0_l (Z.lxor _ _)) at 1. apply xor_fold_shift.
Qed.

(** Writing the mover's colour on distinct squares that hold the
    opponent's colour changes the hash of the pieces by their toggles. *)
Lemma pieceHash_flips (color : Cell) (fl : list (Z * Z)) :
  NoDup fl ->
  forall board,
    (forall p, In p fl ->
       inBounds (fst p) (snd p) = true
       /\ cellAt board (fst p) (snd p) = Some (negate color)) ->
    Zobrist.pieceHash ZOBRIST_PIECES
      (fold_left (fun nb f => setCell nb (fst f) (snd f) color) fl board)
    = Z.lxor (Zobrist.pieceHash ZOBRIST_PIECES board)
        (Zobrist.flipToggles ZOBRIST_PIECES color fl).
Proof.
  induction 1 as [|p fl Hp Hnd IH]; intros board Hfl; simpl fold_left.
  - unfold Zobrist.flipToggles. simpl. by rewrite Z.lxor_0_r.
  - destruct (Hfl p ltac:(by left)) as [Hb Hc].
    rewrite IH.
    + rewrite (pieceHash_setCell board (fst p) (snd p) (negate color) color Hb Hc).
      rewrite flipToggles_cons. xor_chain.
    + intros q Hq. destruct (Hfl q ltac:(by right)) as [Hqb Hqc]. split; [done|].
      rewrite cellAt_setCell, Hc.
      destruct (decide (fst p = fst q /\ snd p = snd q)) as [[H1 H2]|_]; [|done].
      destruct Hp. apply list_elem_of_In.
      replace p with q; [done|]. destruct p, q; simpl in *; congruence.
Qed.

(** The toggles of [updateHash], collected. *)
Lemma updateHash_toggles (oldHash : Z) (m : Coord.t) (color : Cell) (fl : list (Z * Z)) :
  color <> Empty ->
  Zobrist.updateHash ZOBRIST_PIECES oldHash m color fl
  = Z.lxor
      (Z.lxor
         (Z.lxor (Z.lxor oldHash Zobrist.ZOBRIST_SIDE_TO_MOVE)
                 (Zobrist.pieceConstant ZOBRIST_PIECES color (Coord.r m * 8 + Coord.c m)))
         (Zobrist.flipToggles ZOBRIST_PIECES color fl))
      (match color with White => Zobrist.ZOBRIST_SIDE_TO_MOVE | _ => 0 end).
Proof.
  intros Hcolor. unfold Zobrist.updateHash. cbv zeta.
  assert (forall h,
            fold_left
              (fun hash f =>
                 Z.lxor
                   (Z.lxor hash
                      (ZOBRIST_PIECES (fst f * 8 + snd f)
                         match color with Black => 1 | _ => 0 end))
                   (ZOBRIST_PIECES (fst f * 8 + snd f)
                      match color with Black => 0 | _ => 1 end)) fl h
            = Z.lxor h (Zobrist.flipToggles ZOBRIST_PIECES color fl)) as Hfold.
  { induction fl as [|p fl IH]; intros h.
    - unfold Zobrist.flipToggles. simpl. by rewrite Z.lxor_0_r.
    - simpl fold_left. rewrite IH, flipToggles_cons.
      destruct color; [done| |]; simpl; xor_chain. }
  rewrite Hfold. destruct color; [done| |]; simpl; [by rewrite Z.lxor_0_r|done].
Qed.

(** The incremental hash after a legal move on a valid board: for a Black
    mover it is the from-scratch hash of the resulting position; for a
    White mover it is that hash with the side-to-move constant XOR-ed in
    once more. *)
Lemma updateHash_incremental (board : Board) (color : Cell) (m : Coord.t) :
  In (Some m) (generateLegalMoves board color) ->
  let board' := fst (applyMove board (Some m) color) in
  let incremental :=
    Zobrist.updateHash ZOBRIST_PIECES (Zobrist.hashBoard ZOBRIST_PIECES board color) m color
      (Search.getFlippedPositions board (Some m) color) in
  incremental
  = match color with
    | White =>
        Z.lxor (Zobrist.hashBoard ZOBRIST_PIECES board' (negate color))
          Zobrist.ZOBRIST_SIDE_TO_MOVE
    | _ => Zobrist.hashBoard ZOBRIST_PIECES board' (negate color)
    end.
Proof.
  intros Hlegal. cbv zeta.
  assert (color <> Empty) as Hcolor by (intros ->; destruct Hlegal).
  apply generateLegalMoves_In in Hlegal as (r & c & [= ->] & Hr & Hc & Hempty & _).
  destruct (getFlippedPositions_facts board (Coord.mk r c) color) as [Hnd Hfl].
  rewrite updateHash_toggles by done.
  rewrite applyMove_writes. simpl Coord.r. simpl Coord.c.
  assert (inBounds r c = true) as Hb by (unfold inBounds; zprop; lia).
  assert (Zobrist.pieceHash ZOBRIST_PIECES
            (fold_left (fun nb f => setCell nb (fst f) (snd f) color)
               (Search.getFlippedPositions board (Some (Coord.mk r c)) color)
               (setCell board r c color))
          = Z.lxor
              (Z.lxor (Zobrist.pieceHash ZOBRIST_PIECES board)
                 (Zobrist.pieceConstant ZOBRIST_PIECES color (r * 8 + c)))
              (Zobrist.flipToggles ZOBRIST_PIECES color
                 (Search.getFlippedPositions board (Some (Coord.mk r c)) color))) as Hpieces.
  { rewrite pieceHash_flips; [|exact Hnd|].
    - rewrite (pieceHash_setCell board r c Empty color Hb Hempty).
      cbn [Zobrist.pieceConstant]. by rewrite Z.lxor_0_l.
    - intros p Hp. destruct (Hfl p Hp) as [Hpb Hpc]. split; [exact Hpb|].
      rewrite cellAt_setCell, Hempty.
      destruct (decide (r = fst p /\ c = snd p)) as [[-> ->]|_]; [|exact Hpc].
      rewrite Hempty in Hpc. destruct color; [by destruct Hcolor|discriminate|discriminate]. }
  destruct color; [by destruct Hcolor| |]; cbn [negate].
  - change (Zobrist.hashBoard ZOBRIST_PIECES ?b White)
      with (Zobrist.pieceHash ZOBRIST_PIECES b).
    rewrite Hpieces.
    change (Zobrist.hashBoard ZOBRIST_PIECES board Black)
      with (Z.lxor (Zobrist.pieceHash ZOBRIST_PIECES board) Zobrist.ZOBRIST_SIDE_TO_MOVE).
    xor_chain.
  - change (Zobrist.hashBoard ZOBRIST_PIECES ?b Black)
      with (Z.lxor (Zobrist.pieceHash ZOBRIST_PIECES b) Zobrist.ZOBRIST_SIDE_TO_MOVE).
    rewrite Hpieces.
    change (Zobrist.hashBoard ZOBRIST_PIECES board White)
      with (Zobrist.pieceHash ZOBRIST_PIECES board).
    xor_chain.
Qed.

End HashingFacts.

(** With a White mover the incremental hash never equals the from-scratch
    hash, on any board and for any legal move. *)
Lemma updateHash_white_differs (ZOBRIST_PIECES : Z -> Z -> Z) (board : Board) (m : Coord.t) :
  In (Some m) (generateLegalMoves board White) ->
  Zobrist.updateHash ZOBRIST_PIECES (Zobrist.hashBoard ZOBRIST_PIECES board White) m White
    (Search.getFlippedPositions board (Some m) White)
  <> Zobrist.hashBoard ZOBRIST_PIECES (fst (applyMove board (Some m) White)) Black.
Proof.
  intros Hlegal.
  pose proof (updateHash_incremental ZOBRIST_PIECES board White m Hlegal) as Heq.
  cbv zeta in Heq. rewrite Heq. apply lxor_side_differs.
Qed.

(** ** The frontier term *)

(** C8: after Black's opening e3 Black has four frontier discs and White
    one; the normalized score is -25 and the weight -50 turns it into
    +1250, a positive term for the side with more frontier discs, none for
    the side with fewer. *)
Theorem frontierTerm_rewards_frontier :
  Evaluation.frontierCounts Samples.afterE3 Black = (4, 1)
  /\ Evaluation.calculateFrontierScore Samples.afterE3 Black = (-25)%float
  /\ Evaluation.frontierTerm Samples.afterE3 Black = 1250%float
  /\ Evaluation.frontierCounts Samples.afterE3 White = (1, 4)
  /\ Evaluation.frontierTerm Samples.afterE3 White = (-1250)%float.
Proof. repeat split; vm_compute; reflexivity. Qed.

(** Counters that a loop body raises by at most [k] in total stay within
    [k] per iteration. *)
Lemma counters_bound {X : Type} (g : Z * Z -> X -> Z * Z) (k : Z) :
  (forall n x, fst n <= fst (g n x) /\ snd n <= snd (g n x)
               /\ fst (g n x) + snd (g n x) <= fst n + snd n + k) ->
  forall (l : list X) (n : Z * Z),
    fst n <= fst (fold_left g l n) /\ snd n <= snd (fold_left g l n)
    /\ fst (fold_left g l n) + snd (fold_left g l n)
         <= fst n + snd n + k * Z.of_nat (length l).
Proof.
  intros Hg. induction l as [|x l IH]; intros n; simpl fold_left; [simpl; lia|].
  specialize (IH (g n x)). specialize (Hg n x).
  rewrite length_cons, Nat2Z.inj_succ. lia.
Qed.

Lemma overSquares_bound (f : Z * Z -> Z -> Z -> Z * Z) :
  (forall n r c, f n r c = n \/ f n r c = (fst n + 1, snd n) \/ f n r c = (fst n, snd n + 1)) ->
  0 <= fst (Evaluation.overSquares f) <= 64 /\ 0 <= snd (Evaluation.overSquares f) <= 64.
Proof.
  intros Hf. unfold Evaluation.overSquares.
  assert (forall n r,
            let n' := fold_left (fun n c => f n r c) indices n in
            fst n <= fst n' /\ snd n <= snd n' /\ fst n' + snd n' <= fst n + snd n + 8) as Hrow.
  { intros n r.
    pose proof (counters_bound (fun n c => f n r c) 1) as Hin.
    specialize (Hin ltac:(intros m c; destruct (Hf m r c) as [->|[->| ->]]; simpl; lia)
                  indices n).
    change (Z.of_nat (length indices)) with 8 in Hin. cbv zeta. lia. }
  pose proof (counters_bound (fun n r => fold_left (fun n c => f n r c) indices n) 8 Hrow
                indices (0, 0)) as H.
  change (Z.of_nat (length indices)) with 8 in H. cbn [fst snd] in H. lia.
Qed.

Lemma frontierCounts_bound (board : Board) (color : Cell) :
  0 <= fst (Evaluation.frontierCounts board color) <= 64
  /\ 0 <= snd (Evaluation.frontierCounts board color) <= 64.
Proof.
  apply overSquares_bound. intros n r c.
  destruct (cellIs board r c Empty); [by left|].
  destruct (Evaluation.isFrontier board r c); [|by left].
  destruct (cellIs board r c color); [by right; left|].
  destruct (cellIs board r c (negate color)); [by right; right|by left].
Qed.

(** For all counts a board can give, the weighted frontier term is
    positive exactly when the evaluated side has the larger count. *)
Lemma frontierFormula_sign (myFrontier oppFrontier : Z) :
  0 <= myFrontier <= 64 -> 0 <= oppFrontier <= 64 ->
  PrimFloat.ltb 0 (Evaluation.FRONTIER Evaluation.EVAL_WEIGHTS
                   * Evaluation.frontierFormula myFrontier oppFrontier)%float
    = (oppFrontier <? myFrontier).
Proof.
  intros Hmy Hopp.
  assert (forallb (fun my => forallb (fun opp =>
            Bool.eqb (PrimFloat.ltb 0 (Evaluation.FRONTIER Evaluation.EVAL_WEIGHTS
                                       * Evaluation.frontierFormula my opp)%float)
                     (opp <? my)) (seqZ 0 65)) (seqZ 0 65) = true) as Hall.
  { vm_compute. reflexivity. }
  rewrite forallb_forall in Hall.
  specialize (Hall myFrontier ltac:(apply list_elem_of_In, elem_of_seqZ; lia)).
  rewrite forallb_forall in Hall.
  specialize (Hall oppFrontier ltac:(apply list_elem_of_In, elem_of_seqZ; lia)).
  by apply eqb_prop in Hall.
Qed.

(** On every board the frontier term of [evaluatePosition] is positive
    exactly when the evaluated side has more frontier discs than its
    opponent. *)
Lemma frontierTerm_positive_iff (board : Board) (color : Cell) :
  PrimFloat.ltb 0 (Evaluation.frontierTerm board color) = true
  <-> snd (Evaluation.frontierCounts board color) < fst (Evaluation.frontierCounts board color).
Proof.
  unfold Evaluation.frontierTerm, Evaluation.calculateFrontierScore. cbv zeta.
  destruct (frontierCounts_bound board color) as [Hmy Hopp].
  rewrite frontierFormula_sign by done. apply Z.ltb_lt.
Qed.

(** ** Stability *)

(** A disc on the edge is marked at once: outwards the loop of
    [isDirectionStable] runs zero times and answers [true]. *)
Lemma isDirectionStable_outwards (board : Board) (stable : list (list bool)) (c : Z)
    (color : Cell) :
  Evaluation.isDirectionStable board stable 0 c (-1) 0 color = true.
Proof. reflexivity. Qed.

(** C4: on the board whose top row is [...BWWWW] the closure marks the
    black disc d1 stable, yet White's legal move c1 flips it (Black, if to
    move first, has no move and must pass): the marked disc is not stable
    in the specification's sense. *)
Theorem calculateStableDiscs_marks_flippable :
  cellAt Samples.edgeBoard 0 3 = Some Black
  /\ Evaluation.stableAt (Evaluation.calculateStableDiscs Samples.edgeBoard) 0 3 = true
  /\ generateLegalMoves Samples.edgeBoard Black = []
  /\ In (Some (Coord.mk 0 2)) (generateLegalMoves Samples.edgeBoard White)
  /\ cellAt (fst (applyMove Samples.edgeBoard (Some (Coord.mk 0 2)) White)) 0 3 = Some White
  /\ ~ Play.neverFlipped Samples.edgeBoard 0 3.
Proof.
  assert (In (Some (Coord.mk 0 2)) (generateLegalMoves Samples.edgeBoard White)) as Hlegal.
  { vm_compute. auto. }
  repeat split; try (vm_compute; reflexivity); [exact Hlegal|].
  intros Hstable.
  specialize (Hstable White
                (fst (applyMove Samples.edgeBoard (Some (Coord.mk 0 2)) White), negate White)).
  specialize (Hstable ltac:(discriminate)).
  specialize (Hstable ltac:(apply rtc_once; by apply Play.ply_move)).
  vm_compute in Hstable. discriminate Hstable.
Qed.

(** The same disc is flipped when Black is to move first: Black passes. *)
Lemma edgeBoard_black_to_move :
  rtc Play.ply (Samples.edgeBoard, Black)
    (fst (applyMove Samples.edgeBoard (Some (Coord.mk 0 2)) White), Black).
Proof.
  eapply rtc_l.
  - apply Play.ply_pass; [discriminate|reflexivity|vm_compute; discriminate].
  - apply rtc_once.
    apply (Play.ply_move Samples.edgeBoard White (Some (Coord.mk 0 2))).
    vm_compute. auto.
Qed.

(** ** The stability loops end *)

Section DirectionLoop.
Context (board : Board) (stable : list (list bool)) (dr dc : Z) (color : Cell).

Lemma directionLoop_leaves (fuel : nat) : forall (nr nc : Z) (k : nat),
  (k < fuel)%nat ->
  inBounds (nr + Z.of_nat k * dr) (nc + Z.of_nat k * dc) = false ->
  is_Some (Evaluation.directionLoop fuel board stable dr dc color nr nc).
Proof.
  induction fuel as [|fuel IH]; intros nr nc k Hk Hout; [lia|].
  simpl. destruct (inBounds nr nc) eqn:Hin; [|by eexists].
  destruct (negb (cellIs board nr nc color) || negb (Evaluation.stableAt stable nr nc));
    [by eexists|].
  destruct k as [|k].
  - replace (nr + Z.of_nat 0 * dr) with nr in Hout by lia.
    replace (nc + Z.of_nat 0 * dc) with nc in Hout by lia. congruence.
  - apply (IH _ _ k); [lia|].
    rewrite <- Hout. f_equal; lia.
Qed.

(** Along each of the eight directions the loop of [isDirectionStable]
    ends within [rayFuel] iterations. *)
Lemma directionLoop_terminates (nr nc : Z) :
  In (dr, dc) directions ->
  is_Some (Evaluation.directionLoop rayFuel board stable dr dc color nr nc).
Proof.
  intros Hd.
  destruct (inBounds nr nc) eqn:Hin.
  - apply (directionLoop_leaves rayFuel nr nc 8); [unfold rayFuel; lia|].
    unfold inBounds in *. simpl in Hd.
    repeat (destruct Hd as [Hd|Hd]; [inversion Hd; subst; clear Hd; zprop; lia|]).
    destruct Hd.
  - apply (directionLoop_leaves rayFuel nr nc 0); [unfold rayFuel; lia|].
    rewrite <- Hin. f_equal; lia.
Qed.

End DirectionLoop.

Lemma markStable_grid (stable : list (list bool)) (r c : Z) :
  Evaluation.stableGrid stable -> Evaluation.stableGrid (Evaluation.markStable stable r c).
Proof.
  intros [Hrows Hcols]. unfold Evaluation.markStable.
  destruct ((0 <=? r) && (0 <=? c)); [|done].
  destruct (stable !! Z.to_nat r) as [row|] eqn:Hrow; [|done].
  split; [by rewrite length_insert|].
  apply Forall_insert; [done|]. rewrite length_insert.
  rewrite Forall_forall in Hcols. apply Hcols. by eapply list_elem_of_lookup_2.
Qed.

Lemma stableAt_markStable (stable : list (list bool)) (r c r' c' : Z) :
  Evaluation.stableGrid stable -> inBounds r c = true ->
  Evaluation.stableAt (Evaluation.markStable stable r c) r' c'
  = if decide (r = r' /\ c = c') then true else Evaluation.stableAt stable r' c'.
Proof.
  intros [Hrows Hcols] Hb. unfold inBounds in Hb. zprop.
  unfold Evaluation.markStable, Evaluation.stableAt.
  assert ((0 <=? r) && (0 <=? c) = true) as -> by (zprop; lia).
  destruct (lookup_lt_is_Some_2 stable (Z.to_nat r) ltac:(lia)) as [row Hrow].
  rewrite Hrow.
  assert (length row = 8%nat) as Hlen.
  { rewrite Forall_forall in Hcols. apply Hcols. by eapply list_elem_of_lookup_2. }
  destruct (decide (r = r' /\ c = c')) as [[<- <-]|Hne].
  - assert ((0 <=? r) && (0 <=? c) = true) as -> by (zprop; lia).
    rewrite list_lookup_insert_eq by lia.
    rewrite list_lookup_insert_eq by lia. done.
  - destruct ((0 <=? r') && (0 <=? c')) eqn:Hrc'; [|done].
    zprop. destruct (decide (r = r')) as [<-|Hrr].
    + rewrite list_lookup_insert_eq by lia. rewrite Hrow.
      rewrite list_lookup_insert_ne; [done|]. intros Heq. apply Hne. split; [done|lia].
    + rewrite list_lookup_insert_ne by lia. done.
Qed.

(** Changing the term of one element changes a sum over a list without
    repetition by the difference of its new and old terms. *)
Lemma sum_fold_update {X : Type} `{EqDecision X} (g g' : X -> Z) (p0 : X) (l : list X) :
  NoDup l -> (forall p, p <> p0 -> g' p = g p) ->
  forall n,
    fold_left (fun n p => n + g' p) l n
    = fold_left (fun n p => n + g p) l n
      + (if decide (p0 ∈ l) then g' p0 - g p0 else 0).
Proof.
  intros Hnd Hg.
  assert (forall (l : list X) n a,
            fold_left (fun n p => n + g p) l (n + a)
            = fold_left (fun n p => n + g p) l n + a) as Hshift.
  { clear. induction l as [|p l IH]; intros n a; simpl; [done|].
    rewrite <- IH. f_equal. lia. }
  induction Hnd as [|p l Hp Hnd IH]; intros n; simpl fold_left.
  - destruct (decide (p0 ∈ [])) as [Hin|_]; [by apply elem_of_nil in Hin|lia].
  - rewrite IH. destruct (decide (p = p0)) as [->|Hne].
    + destruct (decide (p0 ∈ l)) as [Hin|_]; [done|].
      destruct (decide (p0 ∈ p0 :: l)) as [_|Hout]; [|destruct Hout; by left].
      replace (n + g' p0) with (n + g p0 + (g' p0 - g p0)) by lia.
      rewrite Hshift. lia.
    + rewrite (Hg p Hne).
      destruct (decide (p0 ∈ l)) as [Hin|Hout];
        destruct (decide (p0 ∈ p :: l)) as [Hin'|Hout']; try done.
      * destruct Hout'. by right.
      * apply elem_of_cons in Hin' as [Heq|Hin']; [congruence|done].
Qed.

Lemma stableCount_squares (stable : list (list bool)) :
  Evaluation.stableCount stable
  = fold_left
      (fun n p => n + (if Evaluation.stableAt stable (fst p) (snd p) then 1 else 0))
      Zobrist.squares 0.
Proof.
  unfold Evaluation.stableCount.
  rewrite (squares_nested (fun n r c => if Evaluation.stableAt stable r c then n + 1 else n)).
  apply fold_left_pointwise. intros n [r c]. simpl.
  destruct (Evaluation.stableAt stable r c); lia.
Qed.

Lemma stableCount_range (stable : list (list bool)) :
  0 <= Evaluation.stableCount stable <= 64.
Proof.
  rewrite stableCount_squares.
  assert (forall (l : list (Z * Z)) n,
            n <= fold_left
                   (fun n p => n + (if Evaluation.stableAt stable (fst p) (snd p)
                                    then 1 else 0)) l n
              <= n + Z.of_nat (length l)) as Hbound.
  { induction l as [|p l IH]; intros n; simpl fold_left; [simpl; lia|].
    specialize (IH (n + (if Evaluation.stableAt stable (fst p) (snd p) then 1 else 0))).
    rewrite length_cons, Nat2Z.inj_succ.
    destruct (Evaluation.stableAt stable (fst p) (snd p)); lia. }
  specialize (Hbound Zobrist.squares 0).
  change (Z.of_nat (length Zobrist.squares)) with 64 in Hbound. lia.
Qed.

(** Marking a square that was not marked raises the count by one. *)
Lemma stableCount_mark (stable : list (list bool)) (r c : Z) :
  Evaluation.stableGrid stable -> inBounds r c = true ->
  Evaluation.stableAt stable r c = false ->
  Evaluation.stableCount (Evaluation.markStable stable r c)
  = Evaluation.stableCount stable + 1.
Proof.
  intros Hgrid Hb Hfalse. rewrite !stableCount_squares.
  rewrite (sum_fold_update
             (fun p => if Evaluation.stableAt stable (fst p) (snd p) then 1 else 0)
             (fun p => if Evaluation.stableAt (Evaluation.markStable stable r c)
                            (fst p) (snd p) then 1 else 0)
             (r, c) Zobrist.squares squares_NoDup).
  - destruct (decide ((r, c) ∈ Zobrist.squares)) as [_|Hout];
      [|destruct Hout; by apply list_elem_of_In, squares_In].
    simpl. rewrite stableAt_markStable by done. rewrite Hfalse.
    destruct (decide (r = r /\ c = c)) as [_|Hne]; [lia|by destruct Hne].
  - intros [r' c'] Hne. simpl. rewrite stableAt_markStable by done.
    destruct (decide (r = r' /\ c = c')) as [[<- <-]|_]; done.
Qed.

(** A pass keeps the shape of the grid and unmarks nothing; when it
    reports a change it has marked at least one more square. *)
Lemma stablePass_progress (board : Board) (stable : list (list bool)) :
  Evaluation.stableGrid stable ->
  let st := Evaluation.stablePass board stable in
  Evaluation.stableGrid (fst st)
  /\ Evaluation.stableCount stable <= Evaluation.stableCount (fst st)
  /\ (snd st = true -> Evaluation.stableCount stable < Evaluation.stableCount (fst st)).
Proof.
  intros Hgrid. cbv zeta. unfold Evaluation.stablePass.
  rewrite (squares_nested
             (fun (st : list (list bool) * bool) r c =>
                if cellIs board r c Empty || Evaluation.stableAt (fst st) r c then st
                else if Evaluation.isDiscStable board (fst st) r c
                     then (Evaluation.markStable (fst st) r c, true)
                     else st)).
  set (inv := fun st : list (list bool) * bool =>
         Evaluation.stableGrid (fst st)
         /\ Evaluation.stableCount stable <= Evaluation.stableCount (fst st)
         /\ (snd st = true -> Evaluation.stableCount stable < Evaluation.stableCount (fst st))).
  assert (forall l : list (Z * Z),
            (forall p, In p l -> inBounds (fst p) (snd p) = true) ->
            forall st, inv st ->
              inv (fold_left
                     (fun (st : list (list bool) * bool) p =>
                        if cellIs board (fst p) (snd p) Empty
                           || Evaluation.stableAt (fst st) (fst p) (snd p) then st
                        else if Evaluation.isDiscStable board (fst st) (fst p) (snd p)
                             then (Evaluation.markStable (fst st) (fst p) (snd p), true)
                             else st) l st)) as Hfold.
  { induction l as [|p l IH]; intros Hl st Hst; cbn [fold_left]; [done|].
    apply IH; [intros q Hq; apply Hl; by right|].
    destruct (cellIs board (fst p) (snd p) Empty); cbn [orb]; [done|].
    destruct (Evaluation.stableAt (fst st) (fst p) (snd p)) eqn:Hmarked; [done|].
    destruct (Evaluation.isDiscStable board (fst st) (fst p) (snd p)); [|done].
    destruct Hst as (Hg & Hle & _). unfold inv. cbn [fst snd].
    rewrite stableCount_mark by (auto; apply Hl; by left).
    split; [by apply markStable_grid|]. split; [lia|]. intros _. lia. }
  apply Hfold.
  - intros [r c] Hp. by apply squares_In.
  - unfold inv. cbn [fst snd]. split; [done|]. split; [lia|discriminate].
Qed.

(** [while (changed)] ends: every pass but the last marks a square, and
    there are 64 squares. *)
Lemma stableLoop_terminates (board : Board) (fuel : nat) :
  forall stable : list (list bool),
    Evaluation.stableGrid stable ->
    64 - Evaluation.stableCount stable < Z.of_nat fuel ->
    is_Some (Evaluation.stableLoop fuel board stable).
Proof.
  induction fuel as [|fuel IH]; intros stable Hgrid Hfuel.
  - pose proof (stableCount_range stable). lia.
  - cbn [Evaluation.stableLoop].
    destruct (stablePass_progress board stable Hgrid) as (Hg & Hle & Hlt).
    cbv zeta in Hg, Hle, Hlt.
    destruct (snd (Evaluation.stablePass board stable)); [|by eexists].
    apply IH; [done|]. specialize (Hlt eq_refl). lia.
Qed.

Lemma seedCorners_grid (board : Board) : Evaluation.stableGrid (Evaluation.seedCorners board).
Proof.
  unfold Evaluation.seedCorners.
  assert (Evaluation.stableGrid (replicate 8 (replicate 8 false))) as Hinit.
  { split; [done|]. repeat constructor. }
  revert Hinit. generalize (replicate 8 (replicate 8 false)).
  generalize [(0, 0); (0, 7); (7, 0); (7, 7)].
  induction l as [|k l IH]; intros stable Hgrid; cbn [fold_left]; [done|].
  apply IH. destruct (negb (cellIs board (fst k) (snd k) Empty)); [|done].
  by apply markStable_grid.
Qed.

(** The closure of [calculateStableDiscs] is reached within [stableFuel]
    passes on every board. *)
Lemma calculateStableDiscs_terminates (board : Board) :
  is_Some (Evaluation.stableLoop Evaluation.stableFuel board (Evaluation.seedCorners board)).
Proof.
  apply stableLoop_terminates; [apply seedCorners_grid|].
  pose proof (stableCount_range (Evaluation.seedCorners board)).
  unfold Evaluation.stableFuel. lia.
Qed.

(** ** The deadline inside [minimax] *)

Section SearchFacts.
Variable ZOBRIST_PIECES : Z -> Z -> Z.
Variable clock : nat -> Z.

(** [nodes] is 1 when the deadline test runs, so [nodes % 1024 === 0]
    fails and the clock is not read. *)
Lemma timeoutCheck_first_node (deadline : option Z) (w : Search.World) :
  Search.timeoutCheck clock deadline 1 w = (false, w).
Proof.
  destruct deadline as [d|]; [|done].
  unfold Search.timeoutCheck. change (1 mod 1024 =? 0) with false.
  by rewrite andb_false_r.
Qed.

(** The move loop reports no timeout and reads no clock when the
    recursive calls do neither. *)
Lemma moveLoop_quiet
    (recur : Board -> Z -> Z -> list Js.str -> Z -> Search.World -> Outcome.t * Search.World)
    (board : Board) (currentColor : Cell) (isMaximizing : bool)
    (currentPV : list Js.str) (boardHash : Z) :
  (forall nb a b npv nh w,
      Outcome.timeout (fst (recur nb a b npv nh w)) = false
      /\ Search.ticks (snd (recur nb a b npv nh w)) = Search.ticks w) ->
  forall moves l w,
    snd (fst (Search.moveLoop ZOBRIST_PIECES recur board currentColor isMaximizing
                currentPV boardHash moves l w)) = false
    /\ Search.ticks (snd (Search.moveLoop ZOBRIST_PIECES recur board currentColor
                            isMaximizing currentPV boardHash moves l w))
       = Search.ticks w.
Proof.
  intros Hrecur. induction moves as [|move rest IH]; intros l w; [done|].
  cbn [Search.moveLoop].
  match goal with |- context [recur ?nb ?a ?b ?npv ?nh w] =>
    destruct (Hrecur nb a b npv nh w) as [Hquiet Hticks];
    destruct (recur nb a b npv nh w) as [result w1] end.
  simpl in Hquiet, Hticks. rewrite Hquiet.
  match goal with |- context [if ?t then (?l1, false, w1) else _] =>
    destruct t; [by simpl|] end.
  rewrite <- Hticks. apply IH.
Qed.

(** C2: whatever the deadline and the clock, [minimax] never reports a
    timeout and never reads the clock: the periodic deadline test cannot
    fire, since it looks at a node counter that is always 1. *)
Theorem minimax_never_times_out (depth : nat) :
  forall (board : Board) (color : Cell) (alpha beta : Z) (isMaximizing : bool)
         (currentPV : list Js.str) (boardHash : Z) (deadline : option Z)
         (w : Search.World),
    Outcome.timeout
      (fst (Search.minimax ZOBRIST_PIECES clock depth board color alpha beta isMaximizing
              currentPV boardHash deadline w)) = false
    /\ Search.ticks
         (snd (Search.minimax ZOBRIST_PIECES clock depth board color alpha beta isMaximizing
                 currentPV boardHash deadline w)) = Search.ticks w.
Proof.
  induction depth as [|depth IH]; intros; cbn [Search.minimax];
    rewrite timeoutCheck_first_node;
    destruct (Search.probe (Search.table w) boardHash _ alpha beta); try done.
  destruct (generateLegalMoves board (if isMaximizing then color else negate color)).
  - destruct (generateLegalMoves board _); [done|].
    match goal with |- context [Search.minimax _ _ depth ?b ?c ?al ?be ?m ?pv ?h ?d ?w0] =>
      destruct (IH b c al be m pv h d w0) as [_ Hticks];
      destruct (Search.minimax ZOBRIST_PIECES clock depth b c al be m pv h d w0) end.
    done.
  - match goal with |- context [Search.moveLoop _ ?rec ?b ?cc ?m ?pv ?h ?ms ?l ?w0] =>
      destruct (moveLoop_quiet rec b cc m pv h
                  ltac:(intros; apply IH) ms l w0) as [Hquiet Hticks];
      destruct (Search.moveLoop ZOBRIST_PIECES rec b cc m pv h ms l w0) as [[l' timedOut] w1]
    end.
    simpl in Hquiet, Hticks. subst timedOut. done.
Qed.

End SearchFacts.

(** The failing run of C2: the deadline passed long ago, and [minimax]
    still expands the whole depth-3 tree of the starting position. *)
Lemma minimax_past_deadline :
  let h := Zobrist.hashBoard Samples.sampleZobrist createStartingBoard Black in
  let result :=
    fst (Search.minimax Samples.sampleZobrist Samples.lateClock 3 createStartingBoard Black
           (- Search.INFINITY) Search.INFINITY true [] h (Some 1) Samples.freshWorld) in
  Outcome.timeout result = false /\ Outcome.nodes result = 61.
Proof. vm_compute. split; reflexivity. Qed.

(** ** The transposition probe *)

(** When the probe returns an entry. *)
Lemma probe_Some (tt : gmap Z TTEntry.t) (boardHash depth alpha beta : Z) (e : TTEntry.t) :
  Search.probe tt boardHash depth alpha beta = Some e
  <-> tt !! boardHash = Some e
      /\ depth <= TTEntry.depth e
      /\ (TTEntry.flag e = TTEntry.EXACT
          \/ (TTEntry.flag e = TTEntry.LOWER /\ beta <= TTEntry.value e)
          \/ (TTEntry.flag e = TTEntry.UPPER /\ TTEntry.value e <= alpha)).
Proof.
  unfold Search.probe. destruct (tt !! boardHash) as [e'|]; [|split; [done|intros [? _]; done]].
  split.
  - intros H. destruct (Z.geb_spec (TTEntry.depth e') depth) as [Hd|Hd]; [|done].
    destruct (TTEntry.flag e') eqn:Hflag.
    + injection H as <-. auto.
    + destruct (Z.geb_spec (TTEntry.value e') beta); [|done]. injection H as <-. auto 6.
    + destruct (Z.leb_spec (TTEntry.value e') alpha); [|done]. injection H as <-. auto 6.
  - intros (Heq & Hd & Hflag). injection Heq as ->.
    destruct (Z.geb_spec (TTEntry.depth e) depth); [|lia].
    destruct Hflag as [Hf|[[Hf Hv]|[Hf Hv]]]; rewrite Hf; [done| |].
    + destruct (Z.geb_spec (TTEntry.value e) beta); [done|lia].
    + destruct (Z.leb_spec (TTEntry.value e) alpha); [done|lia].
Qed.


(** Without a usable entry a leaf is evaluated statically, as it is
    against the empty table. *)
Lemma minimax_leaf_unprobed (ZOBRIST_PIECES : Z -> Z -> Z) (clock : nat -> Z)
    (board : Board) (color : Cell) (alpha beta : Z) (isMaximizing : bool)
    (currentPV : list Js.str) (boardHash : Z) (deadline : option Z) (w : Search.World) :
  Search.probe (Search.table w) boardHash 0 alpha beta = None ->
  fst (Search.minimax ZOBRIST_PIECES clock 0 board color alpha beta isMaximizing currentPV
         boardHash deadline w)
  = fst (Search.minimax ZOBRIST_PIECES clock 0 board color alpha beta isMaximizing currentPV
           boardHash deadline (Search.mkWorld ∅ (Search.ticks w))).
Proof.
  intros Hprobe. cbn [Search.minimax]. rewrite !timeoutCheck_first_node.
  change (Z.of_nat 0) with 0. rewrite Hprobe. done.
Qed.



(** ** The move the driver reports *)

Section DriverFacts.
Variable ZOBRIST_PIECES : Z -> Z -> Z.
Variable clock : nat -> Z.

(** A property of the state that the recursive calls keep is kept by the
    move loop. *)
Lemma moveLoop_invariant (P : Search.World -> Prop)
    (recur : Board -> Z -> Z -> list Js.str -> Z -> Search.World -> Outcome.t * Search.World)
    (board : Board) (currentColor : Cell) (isMaximizing : bool)
    (currentPV : list Js.str) (boardHash : Z) :
  (forall nb a b npv nh w, P w -> P (snd (recur nb a b npv nh w))) ->
  forall moves l w, P w ->
    P (snd (Search.moveLoop ZOBRIST_PIECES recur board currentColor isMaximizing
              currentPV boardHash moves l w)).
Proof.
  intros Hrecur. induction moves as [|move rest IH]; intros l w Hw; [done|].
  cbn [Search.moveLoop].
  match goal with |- context [recur ?nb ?a ?b ?npv ?nh w] =>
    pose proof (Hrecur nb a b npv nh w Hw) as Hw1;
    destruct (recur nb a b npv nh w) as [result w1] end.
  simpl in Hw1.
  destruct (Outcome.timeout result); [done|].
  match goal with |- context [if ?t then (?l1, false, w1) else _] =>
    destruct t; [done|] end.
  by apply IH.
Qed.

(** The best move of the loop is the one it started with or one of the
    moves it went through. *)
Lemma moveLoop_bestMove
    (recur : Board -> Z -> Z -> list Js.str -> Z -> Search.World -> Outcome.t * Search.World)
    (board : Board) (currentColor : Cell) (isMaximizing : bool)
    (currentPV : list Js.str) (boardHash : Z) :
  forall moves l w,
    let l' := fst (fst (Search.moveLoop ZOBRIST_PIECES recur board currentColor isMaximizing
                          currentPV boardHash moves l w)) in
    Search.bestMove l' = Search.bestMove l \/ In (Search.bestMove l') moves.
Proof.
  induction moves as [|move rest IH]; intros l w; cbv zeta; [by left|].
  cbn [Search.moveLoop].
  destruct (recur _ _ _ _ _ w) as [result w1].
  destruct (Outcome.timeout result); [by left|].
  match goal with |- context [if ?t then (?l1, false, w1) else _] =>
    destruct t;
    [|destruct (IH l1 w1) as [Heq|Hin]; [rewrite Heq|by right; right]];
    (destruct isMaximizing;
     [destruct (Outcome.score result >? Search.bestScore l)
     |destruct (Outcome.score result <? Search.bestScore l)];
     simpl; auto)
  end.
Qed.

Lemma sortMoves_In (cmp : Move -> Move -> Z) (moves : list Move) (x : Move) :
  In x (Search.sortMoves cmp moves) -> In x moves.
Proof.
  unfold Search.sortMoves. induction moves as [|y moves IH]; simpl; [done|].
  generalize dependent (foldr (Search.insertMove cmp) [] moves). intros sorted IH.
  induction sorted as [|z sorted IHs]; simpl.
  - intros [<-|[]]. by left.
  - destruct (cmp y z <=? 0); simpl.
    + intros [<-|Hin]; [by left|]. right. apply IH. exact Hin.
    + intros [<-|Hin].
      * right. apply IH. by left.
      * assert (In x (z :: sorted) -> In x moves) as IH' by exact IH.
        destruct (IHs ltac:(intros H; apply IH; by right) Hin) as [<-|H]; [by left|by right].
Qed.

Lemma store_shallow (bound depth : Z) (tt : gmap Z TTEntry.t) (boardHash originalAlpha : Z)
    (l : Search.Loop) (ticks : nat) :
  depth <= bound ->
  Search.shallow bound (Search.mkWorld tt ticks) ->
  Search.shallow bound
    (Search.mkWorld (Search.store tt boardHash depth originalAlpha l) ticks).
Proof.
  intros Hdepth Htt k e. unfold Search.store. simpl.
  destruct (Z.of_nat (size tt) <? Search.MAX_TT_SIZE); [|apply Htt].
  rewrite lookup_insert. case_decide; [|apply Htt].
  intros [= <-]. done.
Qed.

(** A search of depth at most [bound] stores entries of depth at most
    [bound]. *)
Lemma minimax_shallow (bound : Z) (depth : nat) :
  Z.of_nat depth <= bound ->
  forall board color alpha beta isMaximizing currentPV boardHash deadline w,
    Search.shallow bound w ->
    Search.shallow bound
      (snd (Search.minimax ZOBRIST_PIECES clock depth board color alpha beta isMaximizing
              currentPV boardHash deadline w)).
Proof.
  induction depth as [|depth IH]; intros Hbound; intros; cbn [Search.minimax];
    rewrite timeoutCheck_first_node;
    destruct (Search.probe (Search.table w) boardHash _ alpha beta); try done.
  destruct (generateLegalMoves board (if isMaximizing then color else negate color)).
  - destruct (generateLegalMoves board _); [done|].
    match goal with |- context [Search.minimax _ _ depth ?b ?c ?al ?be ?m ?pv ?h ?d ?w0] =>
      pose proof (IH ltac:(lia) b c al be m pv h d w0 ltac:(done)) as Hw1;
      destruct (Search.minimax ZOBRIST_PIECES clock depth b c al be m pv h d w0) end.
    done.
  - match goal with |- context [Search.moveLoop _ ?rec ?b ?cc ?m ?pv ?h ?ms ?l ?w0] =>
      pose proof (moveLoop_invariant (Search.shallow bound) rec b cc m pv h
                    ltac:(intros; apply IH; [lia|done]) ms l w0 ltac:(done)) as Hw1;
      destruct (Search.moveLoop ZOBRIST_PIECES rec b cc m pv h ms l w0) as [[l' timedOut] w1]
    end.
    simpl in Hw1. destruct timedOut; [done|]. simpl.
    destruct w1 as [tt1 ticks1]. by apply store_shallow.
Qed.

Lemma probe_shallow (bound depth : Z) (w : Search.World) (boardHash alpha beta : Z) :
  Search.shallow bound w -> bound < depth ->
  Search.probe (Search.table w) boardHash depth alpha beta = None.
Proof.
  intros Hw Hlt. destruct (Search.probe _ _ _ _ _) as [e|] eqn:Hprobe; [|done].
  apply probe_Some in Hprobe as (Hlookup & Hdepth & _).
  apply Hw in Hlookup. lia.
Qed.

(** When the probe at the root finds nothing usable, the move [minimax]
    returns is [null] or a legal move of the side to move. *)
Lemma minimax_root_move (depth : nat) (board : Board) (color : Cell) (alpha beta : Z)
    (isMaximizing : bool) (currentPV : list Js.str) (boardHash : Z) (deadline : option Z)
    (w : Search.World) :
  Search.probe (Search.table w) boardHash (Z.of_nat depth) alpha beta = None ->
  let move :=
    Outcome.bestMove
      (fst (Search.minimax ZOBRIST_PIECES clock depth board color alpha beta isMaximizing
              currentPV boardHash deadline w)) in
  move = None
  \/ In move (generateLegalMoves board (if isMaximizing then color else negate color)).
Proof.
  intros Hprobe. cbv zeta.
  destruct depth as [|depth]; cbn [Search.minimax];
    rewrite timeoutCheck_first_node, Hprobe; [left; reflexivity|].
  destruct (generateLegalMoves board (if isMaximizing then color else negate color))
    as [|move0 moves] eqn:Hmoves.
  - destruct (generateLegalMoves board
                (negate (if isMaximizing then color else negate color)));
      [left; reflexivity|].
    destruct (Search.minimax _ _ depth _ _ _ _ _ _ _ _ _). left; reflexivity.
  - match goal with |- context [Search.moveLoop _ ?rec ?b ?cc ?m ?pv ?h ?ms ?l ?w0] =>
      pose proof (moveLoop_bestMove rec b cc m pv h ms l w0) as Hbest;
      destruct (Search.moveLoop ZOBRIST_PIECES rec b cc m pv h ms l w0) as [[l' timedOut] w1]
    end.
    cbv zeta in Hbest. simpl in Hbest.
    assert (Search.bestMove l' = None \/ In (Search.bestMove l') (move0 :: moves)) as Hl'.
    { destruct Hbest as [Heq|Hin]; [by left|right].
      eapply sortMoves_In. exact Hin. }
    by destruct timedOut.
Qed.

(** The iterative deepening keeps a best move that is [null] or legal,
    provided the table only holds entries shallower than the next pass. *)
Lemma deepen_bestMove (board : Board) (color : Cell) (startTime timeLimitMs : Z)
    (remaining : nat) :
  forall (currentDepth : nat) (d : Search.Driver) (w : Search.World),
    Search.shallow (Z.of_nat currentDepth - 1) w ->
    Search.d_bestMove d = None \/ In (Search.d_bestMove d) (generateLegalMoves board color) ->
    let d' := fst (Search.deepen ZOBRIST_PIECES clock remaining currentDepth board color
                     startTime timeLimitMs d w) in
    Search.d_bestMove d' = None \/ In (Search.d_bestMove d') (generateLegalMoves board color).
Proof.
  induction remaining as [|remaining IH]; intros currentDepth d w Hw Hd; cbv zeta;
    [exact Hd|].
  cbn [Search.deepen]. unfold Search.dateNow. cbv iota.
  destruct (clock (Search.ticks w) - startTime >=? timeLimitMs); [exact Hd|].
  set (w' := Search.mkWorld (Search.table w) (S (Search.ticks w))).
  assert (Search.shallow (Z.of_nat currentDepth - 1) w') as Hw' by exact Hw.
  match goal with |- context [Search.minimax _ _ currentDepth ?b ?c ?al ?be ?m ?pv ?h ?dl w'] =>
    pose proof (minimax_root_move currentDepth b c al be m pv h dl w'
                  (probe_shallow (Z.of_nat currentDepth - 1) (Z.of_nat currentDepth) w' h al be
                     Hw' ltac:(lia))) as Hmove;
    pose proof (minimax_shallow (Z.of_nat currentDepth) currentDepth ltac:(lia)
                  b c al be m pv h dl w'
                  ltac:(intros k e Hke; apply Hw' in Hke; lia)) as Hw1;
    destruct (Search.minimax ZOBRIST_PIECES clock currentDepth b c al be m pv h dl w')
      as [result w1]
  end.
  cbv zeta in Hmove. simpl in Hmove, Hw1.
  destruct (Outcome.timeout result); [exact Hd|].
  apply IH; [|exact Hmove].
  intros k e Hke. apply Hw1 in Hke. lia.
Qed.

(** From an empty table [engineSearch] reports [null] or a legal move of
    the side to move. *)
Lemma engineSearch_bestMove (board : Board) (color : Cell) (options : SearchOptions.t) :
  let result :=
    fst (Search.engineSearch ZOBRIST_PIECES clock board color options Samples.freshWorld) in
  (EngineResult.bestMove result = None
   \/ In (EngineResult.bestMove result) (generateLegalMoves board color))
  /\ EngineResult.bestMoveAlgebraic result = moveToAlgebraic (EngineResult.bestMove result).
Proof.
  cbv zeta.
  destruct (Search.engineSearch ZOBRIST_PIECES clock board color options Samples.freshWorld)
    as [result wf] eqn:Hrun.
  unfold Search.engineSearch in Hrun. cbv zeta in Hrun.
  unfold Search.dateNow in Hrun. cbv iota in Hrun.
  destruct (generateLegalMoves board color) as [|move0 moves] eqn:Hmoves.
  { injection Hrun as <- _. simpl. auto. }
  match type of Hrun with context [Search.deepen _ _ ?n ?cd ?b ?c ?st ?tl ?d ?w] =>
    pose proof (deepen_bestMove b c st tl n cd d w
                  ltac:(intros k e Hke; simpl in Hke; by rewrite lookup_empty in Hke)
                  ltac:(by left)) as Hd;
    destruct (Search.deepen ZOBRIST_PIECES clock n cd b c st tl d w) as [d' w']
  end.
  cbv zeta in Hd. simpl in Hd. rewrite Hmoves in Hd.
  injection Hrun as <- _. simpl. auto.
Qed.

End DriverFacts.

(** C5: on the starting board that [createStartingBoard] builds, Black's
    legal openings are e3, f4, c5 and d6; whatever the hash table and the
    clock, the depth-2 search from an empty transposition table reports
    "pass" or one of these four, never c4, d3, e6 or f5. *)
Theorem engineSearch_opening (ZOBRIST_PIECES : Z -> Z -> Z) (clock : nat -> Z) :
  let result :=
    fst (Search.engineSearch ZOBRIST_PIECES clock createStartingBoard Black
           (SearchOptions.mk (Some 2) (Some 1000)) Samples.freshWorld) in
  map moveToAlgebraic (generateLegalMoves createStartingBoard Black)
    = [Js.lit "e3"; Js.lit "f4"; Js.lit "c5"; Js.lit "d6"]
  /\ In (EngineResult.bestMoveAlgebraic result)
       [Js.lit "pass"; Js.lit "e3"; Js.lit "f4"; Js.lit "c5"; Js.lit "d6"]
  /\ ~ In (EngineResult.bestMoveAlgebraic result)
         [Js.lit "c4"; Js.lit "d3"; Js.lit "e6"; Js.lit "f5"].
Proof.
  cbv zeta.
  assert (map moveToAlgebraic (generateLegalMoves createStartingBoard Black)
          = [Js.lit "e3"; Js.lit "f4"; Js.lit "c5"; Js.lit "d6"]) as Hopen
    by (vm_compute; reflexivity).
  destruct (engineSearch_bestMove ZOBRIST_PIECES clock createStartingBoard Black
              (SearchOptions.mk (Some 2) (Some 1000))) as [Hmove Hlabel].
  cbv zeta in Hmove, Hlabel.
  assert (In (EngineResult.bestMoveAlgebraic
                (fst (Search.engineSearch ZOBRIST_PIECES clock createStartingBoard Black
                        (SearchOptions.mk (Some 2) (Some 1000)) Samples.freshWorld)))
            [Js.lit "pass"; Js.lit "e3"; Js.lit "f4"; Js.lit "c5"; Js.lit "d6"]) as Hin.
  { rewrite Hlabel. destruct Hmove as [->|Hmove]; [by left|].
    right. rewrite <- Hopen. by apply in_map. }
  split; [exact Hopen|]. split; [exact Hin|].
  intros Hbad. revert Hin Hbad.
  generalize (EngineResult.bestMoveAlgebraic
                (fst (Search.engineSearch ZOBRIST_PIECES clock createStartingBoard Black
                        (SearchOptions.mk (Some 2) (Some 1000)) Samples.freshWorld))).
  intros label Hin Hbad. simpl in Hin, Hbad.
  repeat (destruct Hin as [<-|Hin];
          [repeat (destruct Hbad as [Hbad|Hbad]; [discriminate Hbad|]); destruct Hbad|]).
  destruct Hin.
Qed.

(** With the sample table and clock the search reports e3. *)
Lemma engineSearch_opening_sample :
  let result :=
    fst (Search.engineSearch Samples.sampleZobrist Samples.sampleClock createStartingBoard
           Black (SearchOptions.mk (Some 2) (Some 1000)) Samples.freshWorld) in
  EngineResult.bestMoveAlgebraic result = Js.lit "e3"
  /\ EngineResult.score result = -780
  /\ EngineResult.nodes result = 16
  /\ EngineResult.depthSearched result = 2.
Proof. vm_compute. repeat split. Qed.

(** * Further properties of the engine *)

(** ** Flanking runs *)

(** Where a ray loop stops: [n] steps from its entry, past [n] squares of
    the board that hold the opponent's colour, on a square that fails the
    loop test; the accumulator is untouched when [n] is 0 and comes out of
    [body] otherwise. *)
Lemma rayLoop_steps {A : Type} (board : Board) (opponent : Cell) (dr dc : Z)
    (body : Z -> Z -> A -> A) (fuel : nat) :
  forall (nr nc : Z) (acc : A) (x y : Z) (a : A),
    rayLoop fuel board opponent dr dc body nr nc acc = Some (x, y, a) ->
    exists n : nat,
      x = nr + Z.of_nat n * dr /\ y = nc + Z.of_nat n * dc
      /\ (forall k, (k < n)%nat ->
            inBounds (nr + Z.of_nat k * dr) (nc + Z.of_nat k * dc) = true
            /\ cellAt board (nr + Z.of_nat k * dr) (nc + Z.of_nat k * dc) = Some opponent)
      /\ inBounds x y && cellIs board x y opponent = false
      /\ (n = 0%nat -> a = acc)
      /\ (n <> 0%nat -> exists x' y' a', a = body x' y' a').
Proof.
  induction fuel as [|fuel IH]; intros nr nc acc x y a Hrun; [done|].
  cbn [rayLoop] in Hrun.
  destruct (inBounds nr nc && cellIs board nr nc opponent) eqn:Hgo.
  - apply IH in Hrun as (n & -> & -> & Hall & Hexit & Hzero & Hpos).
    apply andb_true_iff in Hgo as [Hin Hcell]. apply cellIs_true in Hcell.
    exists (S n). split; [lia|]. split; [lia|]. split; [|split; [|split; [done|]]].
    + intros [|k] Hk.
      * replace (nr + Z.of_nat 0 * dr) with nr by lia.
        replace (nc + Z.of_nat 0 * dc) with nc by lia. done.
      * specialize (Hall k ltac:(lia)).
        replace (nr + Z.of_nat (S k) * dr) with (nr + dr + Z.of_nat k * dr) by lia.
        replace (nc + Z.of_nat (S k) * dc) with (nc + dc + Z.of_nat k * dc) by lia. done.
    + exact Hexit.
    + intros _. destruct n as [|n].
      * rewrite Hzero by done. eauto.
      * apply Hpos. done.
  - injection Hrun as <- <- <-. exists 0%nat.
    split; [lia|]. split; [lia|]. split; [intros k Hk; lia|].
    split; [exact Hgo|]. split; done.
Qed.

(** X1: along each of the eight directions [hasFlipsInDirection] holds
    exactly when a run of one or more opponent discs starts next to the
    square and is followed, still on the board, by a disc of the mover. *)
Theorem hasFlipsInDirection_run (board : Board) (r c dr dc : Z) (color : Cell) :
  In (dr, dc) directions -> color <> Empty ->
  (hasFlipsInDirection board r c dr dc color = true
   <-> exists n : Z,
         1 <= n
         /\ (forall k, 1 <= k <= n ->
               inBounds (r + k * dr) (c + k * dc) = true
               /\ cellAt board (r + k * dr) (c + k * dc) = Some (negate color))
         /\ inBounds (r + (n + 1) * dr) (c + (n + 1) * dc) = true
         /\ cellAt board (r + (n + 1) * dr) (c + (n + 1) * dc) = Some color).
Proof.
  intros Hd Hcolor. unfold hasFlipsInDirection. cbv zeta.
  destruct (rayLoop_terminates board (negate color) dr dc (fun _ _ _ => true)
              (r + dr) (c + dc) false Hd) as [[[x y] h] Hrun].
  rewrite Hrun.
  apply rayLoop_steps in Hrun as (n & -> & -> & Hall & Hexit & Hzero & Hpos).
  split.
  - intros Hflip. apply andb_true_iff in Hflip as [Hflip Hend].
    apply andb_true_iff in Hflip as [Hh Hin]. apply cellIs_true in Hend.
    destruct n as [|n]; [rewrite Hzero in Hh by done; discriminate Hh|].
    exists (Z.of_nat (S n)). split; [lia|]. split; [|split].
    + intros k Hk. specialize (Hall (Z.to_nat (k - 1)) ltac:(lia)).
      rewrite Z2Nat.id in Hall by lia.
      replace (r + dr + (k - 1) * dr) with (r + k * dr) in Hall by lia.
      replace (c + dc + (k - 1) * dc) with (c + k * dc) in Hall by lia.
      exact Hall.
    + rewrite <- Hin. f_equal; lia.
    + rewrite <- Hend. f_equal; lia.
  - intros (m & Hm & Hrunm & Hendb & Hendc).
    assert (Z.of_nat n = m) as Hnm.
    { destruct (Z.lt_trichotomy (Z.of_nat n) m) as [Hlt|[Heq|Hgt]]; [|exact Heq|].
      - destruct (Hrunm (Z.of_nat n + 1) ltac:(lia)) as [Hb Hc].
        replace (r + (Z.of_nat n + 1) * dr) with (r + dr + Z.of_nat n * dr) in Hb, Hc by lia.
        replace (c + (Z.of_nat n + 1) * dc) with (c + dc + Z.of_nat n * dc) in Hb, Hc by lia.
        apply cellIs_true in Hc. rewrite Hb, Hc in Hexit. discriminate Hexit.
      - destruct (Hall (Z.to_nat m) ltac:(lia)) as [_ Hc].
        rewrite Z2Nat.id in Hc by lia.
        replace (r + dr + m * dr) with (r + (m + 1) * dr) in Hc by lia.
        replace (c + dc + m * dc) with (c + (m + 1) * dc) in Hc by lia.
        rewrite Hendc in Hc. destruct color; [by destruct Hcolor|discriminate|discriminate]. }
    destruct (Hpos ltac:(lia)) as (x' & y' & a' & ->).
    replace (r + dr + Z.of_nat n * dr) with (r + (m + 1) * dr) by lia.
    replace (c + dc + Z.of_nat n * dc) with (c + (m + 1) * dc) by lia.
    rewrite Hendb. apply cellIs_true in Hendc. rewrite Hendc. reflexivity.
Qed.

(** On the starting board Black's e3 looks south past White's e4 to
    Black's e5. *)
Lemma hasFlipsInDirection_run_witness :
  In (1, 0) directions /\ Black <> Empty
  /\ (hasFlipsInDirection createStartingBoard 2 4 1 0 Black = true
      <-> exists n : Z,
            1 <= n
            /\ (forall k, 1 <= k <= n ->
                  inBounds (2 + k * 1) (4 + k * 0) = true
                  /\ cellAt createStartingBoard (2 + k * 1) (4 + k * 0)
                     = Some (negate Black))
            /\ inBounds (2 + (n + 1) * 1) (4 + (n + 1) * 0) = true
            /\ cellAt createStartingBoard (2 + (n + 1) * 1) (4 + (n + 1) * 0) = Some Black).
Proof.
  assert (In (1, 0) directions) as Hd by (simpl; auto 10).
  assert (Black <> Empty) as Hc by discriminate.
  split; [exact Hd|]. split; [exact Hc|].
  exact (hasFlipsInDirection_run createStartingBoard 2 4 1 0 Black Hd Hc).
Defined.

(** ** Legal squares, exactly *)

(** X2: for a side that is not empty, a square is listed by
    [generateLegalMoves] exactly when it lies on the 8x8 grid, is empty,
    and [hasFlipsInDirection] holds in one of the eight directions. *)
Theorem generateLegalMoves_iff (board : Board) (color : Cell) (r c : Z) :
  color <> Empty ->
  (In (Some (Coord.mk r c)) (generateLegalMoves board color)
   <-> 0 <= r <= 7 /\ 0 <= c <= 7
       /\ cellAt board r c = Some Empty
       /\ exists d, In d directions
                    /\ hasFlipsInDirection board r c (fst d) (snd d) color = true).
Proof.
  intros Hcolor. split.
  - intros Hin. apply generateLegalMoves_In in Hin as (r' & c' & [= <- <-] & H). exact H.
  - intros (Hr & Hc & Hempty & d & Hd & Hflip).
    assert (In (Some (Coord.mk r c))
              (flat_map (fun r => flat_map (fun c => legalAt board color r c) indices)
                 indices)) as Hin.
    { apply in_flat_map. exists r. split; [by apply indices_range|].
      apply in_flat_map. exists c. split; [by apply indices_range|].
      unfold legalAt. apply cellIs_true in Hempty. rewrite Hempty. cbn [negb].
      assert (existsb (fun d => hasFlipsInDirection board r c (fst d) (snd d) color)
                directions = true) as ->.
      { apply existsb_exists. eauto. }
      by left. }
    unfold generateLegalMoves. destruct color; [by destruct Hcolor|exact Hin|exact Hin].
Qed.

Lemma generateLegalMoves_iff_witness :
  White <> Empty
  /\ (In (Some (Coord.mk 2 3)) (generateLegalMoves createStartingBoard White)
      <-> 0 <= 2 <= 7 /\ 0 <= 3 <= 7
          /\ cellAt createStartingBoard 2 3 = Some Empty
          /\ exists d, In d directions
                       /\ hasFlipsInDirection createStartingBoard 2 3 (fst d) (snd d) White
                          = true).
Proof.
  assert (White <> Empty) as Hc by discriminate.
  split; [exact Hc|]. exact (generateLegalMoves_iff createStartingBoard White 2 3 Hc).
Defined.

(** ** What [applyMove] writes *)

Lemma setCell_valid (board : Board) (r c : Z) (x : Cell) :
  validBoard board -> validBoard (setCell board r c x).
Proof.
  intros [Hrows Hcols]. unfold setCell.
  destruct ((0 <=? r) && (0 <=? c)); [|done].
  destruct (board !! Z.to_nat r) as [row|] eqn:Hrow; [|done].
  split; [by rewrite length_insert|].
  apply Forall_insert; [done|]. rewrite length_insert.
  rewrite Forall_forall in Hcols. apply Hcols. by eapply list_elem_of_lookup_2.
Qed.

Lemma setCells_valid (color : Cell) (squares : list (Z * Z)) : forall board,
  validBoard board ->
  validBoard (fold_left (fun nb f => setCell nb (fst f) (snd f) color) squares board).
Proof.
  induction squares as [|p squares IH]; intros board Hb; cbn [fold_left]; [done|].
  apply IH. by apply setCell_valid.
Qed.

(** X3: [applyMove] returns a board of 8 rows of 8 cells whenever it is
    given one and the move is a pass or a square of the 8x8 grid,
    whatever the colour and whether or not the move is legal. *)
Theorem applyMove_valid (board : Board) (move : Move) (color : Cell) :
  validBoard board ->
  (forall m, move = Some m -> inBounds (Coord.r m) (Coord.c m) = true) ->
  validBoard (fst (applyMove board move color)).
Proof.
  intros Hb _. destruct move as [m|]; [|exact Hb].
  rewrite applyMove_writes. apply setCells_valid. by apply setCell_valid.
Qed.

Lemma applyMove_valid_witness :
  validBoard createStartingBoard
  /\ (forall m, Some (Coord.mk 2 4) = Some m -> inBounds (Coord.r m) (Coord.c m) = true)
  /\ validBoard (fst (applyMove createStartingBoard (Some (Coord.mk 2 4)) Black)).
Proof.
  assert (validBoard createStartingBoard) as H.
  { split; [reflexivity|]. repeat constructor. }
  assert (forall m, Some (Coord.mk 2 4) = Some m -> inBounds (Coord.r m) (Coord.c m) = true)
    as Hm by (intros m [= <-]; reflexivity).
  split; [exact H|]. split; [exact Hm|].
  exact (applyMove_valid createStartingBoard (Some (Coord.mk 2 4)) Black H Hm).
Defined.

(** Reading a square after a series of writes of one colour onto squares
    of the board. *)
Lemma cellAt_setCells (color : Cell) (squares : list (Z * Z)) : forall board p,
  (forall q, In q squares -> is_Some (cellAt board (fst q) (snd q))) ->
  cellAt (fold_left (fun nb f => setCell nb (fst f) (snd f) color) squares board)
    (fst p) (snd p)
  = if decide (p ∈ squares) then Some color else cellAt board (fst p) (snd p).
Proof.
  induction squares as [|q squares IH]; intros board p Hsq; cbn [fold_left].
  - destruct (decide (p ∈ [])) as [Hin|_]; [by apply elem_of_nil in Hin|done].
  - destruct (Hsq q ltac:(by left)) as [old Hold].
    rewrite IH.
    + rewrite cellAt_setCell, Hold.
      destruct (decide (p ∈ squares)) as [Hin|Hout].
      * destruct (decide (p ∈ q :: squares)) as [_|Hout']; [done|].
        destruct Hout'. by right.
      * destruct (decide (fst q = fst p /\ snd q = snd p)) as [[H1 H2]|Hne].
        -- destruct (decide (p ∈ q :: squares)) as [_|Hout']; [done|].
           destruct Hout'. replace p with q; [by left|].
           destruct p, q; simpl in *; congruence.
        -- destruct (decide (p ∈ q :: squares)) as [Hin'|_]; [|done].
           apply elem_of_cons in Hin' as [->|Hin']; [by destruct Hne|done].
    + intros q' Hq'. rewrite cellAt_setCell, Hold.
      destruct (decide _); [by eexists|]. apply Hsq. by right.
Qed.

Lemma flipDirection_total (board : Board) (r c : Z) (color : Cell) (dirs : list (Z * Z)) :
  forall st,
    snd (fold_left (flipDirection board r c color) dirs st)
    = snd st
      + Z.of_nat (length (flat_map
                            (fun d => getFlipsInDirection board r c (fst d) (snd d) color)
                            dirs)).
Proof.
  induction dirs as [|d dirs IH]; intros st; cbn [fold_left flat_map]; [simpl; lia|].
  rewrite IH, length_app.
  assert (snd (flipDirection board r c color st d)
          = snd st + Z.of_nat (length (getFlipsInDirection board r c (fst d) (snd d) color)))
    as -> by reflexivity.
  lia.
Qed.

(** X4: after a move onto a square of the board, the new board holds the
    mover's colour on that square and on every square that
    [getFlippedPositions] lists, every other square is as before, and the
    flip count is the number of listed squares. *)
Theorem applyMove_effect (board : Board) (m : Coord.t) (color : Cell) (p : Z * Z) :
  is_Some (cellAt board (Coord.r m) (Coord.c m)) ->
  let flipped := Search.getFlippedPositions board (Some m) color in
  cellAt (fst (applyMove board (Some m) color)) (fst p) (snd p)
  = (if decide (p = (Coord.r m, Coord.c m) \/ p ∈ flipped)
     then Some color else cellAt board (fst p) (snd p))
  /\ snd (applyMove board (Some m) color) = Z.of_nat (length flipped).
Proof.
  intros [old Hold]. cbv zeta. split.
  - rewrite applyMove_writes.
    destruct (getFlippedPositions_facts board m color) as [_ Hfl].
    rewrite cellAt_setCells.
    + rewrite cellAt_setCell, Hold.
      destruct (decide (p ∈ Search.getFlippedPositions board (Some m) color)) as [Hin|Hout].
      * destruct (decide _) as [_|Hno]; [reflexivity|]. destruct Hno. right. exact Hin.
      * destruct (decide (Coord.r m = fst p /\ Coord.c m = snd p)) as [[H1 H2]|Hne].
        -- destruct (decide _) as [_|Hno]; [reflexivity|]. destruct Hno. left.
           destruct p as [p1 p2]. cbn [fst snd] in H1, H2. by rewrite H1, H2.
        -- destruct (decide _) as [[Heq|Hin]|_]; [|by destruct Hout|reflexivity].
           destruct Hne. by rewrite Heq.
    + intros q Hq. destruct (Hfl q Hq) as [_ Hc].
      rewrite cellAt_setCell, Hold. destruct (decide _); eexists; [reflexivity|exact Hc].
  - rewrite getFlippedPositions_flat. unfold applyMove. cbv zeta.
    rewrite flipDirection_total. cbn [snd]. apply Z.add_0_l.
Qed.

Lemma applyMove_effect_witness :
  is_Some (cellAt createStartingBoard 2 4)
  /\ snd (applyMove createStartingBoard (Some (Coord.mk 2 4)) Black)
     = Z.of_nat (length (Search.getFlippedPositions createStartingBoard
                           (Some (Coord.mk 2 4)) Black)).
Proof.
  assert (is_Some (cellAt createStartingBoard 2 4)) as H by (by eexists).
  split; [exact H|].
  exact (proj2 (applyMove_effect createStartingBoard (Coord.mk 2 4) Black (3, 4) H)).
Defined.

(** ** Disc counts after a move *)

Lemma countPieces_discs (board : Board) :
  countPieces board = (Tally.discs board Black, Tally.discs board White).
Proof.
  unfold countPieces, Tally.discs.
  rewrite (squares_nested
             (fun (n : Z * Z) r c =>
                if cellIs board r c Black then (fst n + 1, snd n)
                else if cellIs board r c White then (fst n, snd n + 1) else n)).
  assert (forall (l : list (Z * Z)) (a b : Z),
            fold_left
              (fun (n : Z * Z) p =>
                 if cellIs board (fst p) (snd p) Black then (fst n + 1, snd n)
                 else if cellIs board (fst p) (snd p) White then (fst n, snd n + 1) else n)
              l (a, b)
            = (fold_left
                 (fun n p => n + (if cellIs board (fst p) (snd p) Black then 1 else 0)) l a,
               fold_left
                 (fun n p => n + (if cellIs board (fst p) (snd p) White then 1 else 0)) l b))
    as Hfold.
  { induction l as [|p l IH]; intros a b; cbn [fold_left fst snd]; [reflexivity|].
    destruct (cellIs board (fst p) (snd p) Black) eqn:Hb.
    - assert (cellIs board (fst p) (snd p) White = false) as ->.
      { apply cellIs_true in Hb. unfold cellIs. apply bool_decide_eq_false. congruence. }
      cbn [fst snd]. rewrite IH. by rewrite Z.add_0_r.
    - destruct (cellIs board (fst p) (snd p) White); cbn [fst snd]; rewrite ?Z.add_0_r;
        apply IH. }
  apply Hfold.
Qed.

Lemma discs_setCell (board : Board) (r c : Z) (old x y : Cell) :
  inBounds r c = true -> cellAt board r c = Some old ->
  Tally.discs (setCell board r c x) y
  = Tally.discs board y + (if decide (x = y) then 1 else 0)
    - (if decide (old = y) then 1 else 0).
Proof.
  intros Hb Hold. unfold Tally.discs.
  rewrite (sum_fold_update
             (fun p => if cellIs board (fst p) (snd p) y then 1 else 0)
             (fun p => if cellIs (setCell board r c x) (fst p) (snd p) y then 1 else 0)
             (r, c) Zobrist.squares squares_NoDup).
  - destruct (decide ((r, c) ∈ Zobrist.squares)) as [_|Hout];
      [|destruct Hout; by apply list_elem_of_In, squares_In].
    cbn [fst snd]. unfold cellIs. rewrite cellAt_setCell, Hold.
    destruct (decide (r = r /\ c = c)) as [_|Hne]; [|by destruct Hne].
    destruct (decide (x = y)) as [->|Hxy], (decide (old = y)) as [->|Hoy].
    + rewrite !bool_decide_eq_true_2 by reflexivity. lia.
    + rewrite (bool_decide_eq_true_2 (Some y = Some y)) by reflexivity.
      rewrite (bool_decide_eq_false_2 (Some old = Some y)) by congruence. lia.
    + rewrite (bool_decide_eq_true_2 (Some y = Some y)) by reflexivity.
      rewrite (bool_decide_eq_false_2 (Some x = Some y)) by congruence. lia.
    + rewrite (bool_decide_eq_false_2 (Some x = Some y)) by congruence.
      rewrite (bool_decide_eq_false_2 (Some old = Some y)) by congruence. lia.
  - intros [r' c'] Hne. cbn [fst snd]. unfold cellIs. rewrite cellAt_setCell, Hold.
    destruct (decide (r = r' /\ c = c')) as [[<- <-]|_]; [by destruct Hne|reflexivity].
Qed.

Lemma discs_setCells (old color y : Cell) (fl : list (Z * Z)) : forall board,
  NoDup fl ->
  (forall p, In p fl -> inBounds (fst p) (snd p) = true
                        /\ cellAt board (fst p) (snd p) = Some old) ->
  Tally.discs (fold_left (fun nb f => setCell nb (fst f) (snd f) color) fl board) y
  = Tally.discs board y
    + Z.of_nat (length fl)
      * ((if decide (color = y) then 1 else 0) - (if decide (old = y) then 1 else 0)).
Proof.
  induction fl as [|p fl IH]; intros board Hnd Hfl; cbn [fold_left].
  - cbn [length]. lia.
  - apply NoDup_cons in Hnd as [Hp Hnd].
    destruct (Hfl p ltac:(by left)) as [Hb Hold].
    rewrite IH; [|exact Hnd|].
    + rewrite (discs_setCell board (fst p) (snd p) old color y Hb Hold).
      rewrite length_cons, Nat2Z.inj_succ. lia.
    + intros q Hq. destruct (Hfl q ltac:(by right)) as [Hqb Hqold].
      split; [exact Hqb|]. rewrite cellAt_setCell, Hold.
      destruct (decide (fst p = fst q /\ snd p = snd q)) as [[H1 H2]|_]; [|exact Hqold].
      destruct Hp. apply list_elem_of_In. replace p with q; [exact Hq|].
      destruct p, q; cbn [fst snd] in H1, H2. by rewrite H1, H2.
Qed.

Lemma applyMove_count (board : Board) (m : Coord.t) (color : Cell) :
  snd (applyMove board (Some m) color)
  = Z.of_nat (length (Search.getFlippedPositions board (Some m) color)).
Proof.
  rewrite getFlippedPositions_flat. unfold applyMove. cbv zeta.
  rewrite flipDirection_total. cbn [snd]. apply Z.add_0_l.
Qed.

(** X5: a legal move adds the placed disc and the flipped discs to the
    mover's count of [countPieces] and takes the flipped discs from the
    opponent's, so that the board holds one disc more. *)
Theorem countPieces_applyMove (board : Board) (color : Cell) (m : Coord.t) :
  In (Some m) (generateLegalMoves board color) ->
  let result := applyMove board (Some m) color in
  countPieces (fst result)
  = match color with
    | Black => (fst (countPieces board) + snd result + 1, snd (countPieces board) - snd result)
    | _ => (fst (countPieces board) - snd result, snd (countPieces board) + snd result + 1)
    end.
Proof.
  intros Hlegal. cbv zeta.
  assert (color <> Empty) as Hcolor by (by intros ->; destruct Hlegal).
  apply generateLegalMoves_In in Hlegal as (r & c & [= ->] & Hr & Hc & Hempty & _).
  assert (inBounds r c = true) as Hb by (unfold inBounds; zprop; lia).
  destruct (getFlippedPositions_facts board (Coord.mk r c) color) as [Hnd Hfl].
  rewrite applyMove_count, applyMove_writes, !countPieces_discs. cbn [fst snd Coord.r Coord.c].
  assert (forall y,
            Tally.discs
              (fold_left (fun nb f => setCell nb (fst f) (snd f) color)
                 (Search.getFlippedPositions board (Some (Coord.mk r c)) color)
                 (setCell board r c color)) y
            = Tally.discs board y
              + (if decide (color = y) then 1 else 0) - (if decide (Empty = y) then 1 else 0)
              + Z.of_nat (length (Search.getFlippedPositions board
                                    (Some (Coord.mk r c)) color))
                * ((if decide (color = y) then 1 else 0)
                   - (if decide (negate color = y) then 1 else 0))) as Hy.
  { intros y.
    rewrite (discs_setCells (negate color) color y _ _ Hnd).
    - by rewrite (discs_setCell board r c Empty color y Hb Hempty).
    - intros p Hp. destruct (Hfl p Hp) as [Hpb Hpc]. split; [exact Hpb|].
      rewrite cellAt_setCell, Hempty.
      destruct (decide (r = fst p /\ c = snd p)) as [[-> ->]|_]; [|exact Hpc].
      rewrite Hempty in Hpc. destruct color; [by destruct Hcolor|discriminate|discriminate]. }
  rewrite !Hy. clear Hy Hnd Hfl.
  generalize (Z.of_nat (length (Search.getFlippedPositions board
                                  (Some (Coord.mk r c)) color))).
  intros k.
  destruct color; [by destruct Hcolor| |];
    cbn [negate];
    repeat match goal with
           | |- context [decide (?a = ?b)] => destruct (decide (a = b)); try congruence
           end;
    f_equal; lia.
Qed.

Lemma countPieces_applyMove_witness :
  In (Some (Coord.mk 2 4)) (generateLegalMoves createStartingBoard Black)
  /\ countPieces (fst (applyMove createStartingBoard (Some (Coord.mk 2 4)) Black)) = (4, 1).
Proof.
  assert (In (Some (Coord.mk 2 4)) (generateLegalMoves createStartingBoard Black)) as H.
  { vm_compute. tauto. }
  split; [exact H|].
  exact (countPieces_applyMove createStartingBoard Black (Coord.mk 2 4) H).
Defined.

(** ** Scanning and collecting agree *)

Lemma hasFlips_iff_getFlips (board : Board) (r c dr dc : Z) (color : Cell) :
  hasFlipsInDirection board r c dr dc color = true
  <-> getFlipsInDirection board r c dr dc color <> [].
Proof.
  unfold hasFlipsInDirection, getFlipsInDirection. cbv zeta.
  pose proof (rayLoop_sim (fun (h : bool) (l : list (Z * Z)) => h = true <-> l <> [])
                board (negate color) dr dc
                (fun _ _ _ => true) (fun nr nc flips => flips ++ [(nr, nc)])) as Hsim.
  specialize (Hsim ltac:(intros x y a l _; split; [intros _; by destruct l|reflexivity])
                rayFuel (r + dr) (c + dc) false []
                ltac:(split; [discriminate|intros H; by destruct H])).
  destruct (rayLoop rayFuel board (negate color) dr dc (fun _ _ _ => true)
              (r + dr) (c + dc) false) as [[[x y] h]|];
    destruct (rayLoop rayFuel board (negate color) dr dc
                (fun nr nc flips => flips ++ [(nr, nc)]) (r + dr) (c + dc) [])
      as [[[x' y'] l]|]; try (by destruct Hsim).
  - destruct Hsim as (<- & <- & Hhl).
    rewrite <- andb_assoc, andb_true_iff.
    destruct (inBounds x y && cellIs board x y color).
    + rewrite <- Hhl. clear. split; [by intros [H _]|by intros H].
    + clear. split; [by intros [_ H]|by intros H].
Qed.

(** X6: the boolean scan of [hasFlipsInDirection] and the collecting scan
    of [getFlipsInDirection] agree: the first answers true exactly when
    the second returns at least one square. *)
Theorem hasFlipsInDirection_getFlipsInDirection
    (board : Board) (r c dr dc : Z) (color : Cell) :
  hasFlipsInDirection board r c dr dc color
  = bool_decide (getFlipsInDirection board r c dr dc color <> []).
Proof.
  destruct (hasFlipsInDirection board r c dr dc color) eqn:Hflip.
  - symmetry. apply bool_decide_eq_true. by apply hasFlips_iff_getFlips.
  - symmetry. apply bool_decide_eq_false. intros H.
    apply hasFlips_iff_getFlips in H. rewrite H in Hflip. discriminate Hflip.
Qed.

(** X7: for a side that is not empty, the squares [generateLegalMoves]
    lists are the empty squares of the grid for which the search's
    [getFlippedPositions] returns at least one square. *)
Theorem generateLegalMoves_getFlippedPositions (board : Board) (color : Cell) (r c : Z) :
  color <> Empty ->
  (In (Some (Coord.mk r c)) (generateLegalMoves board color)
   <-> 0 <= r <= 7 /\ 0 <= c <= 7
       /\ cellAt board r c = Some Empty
       /\ Search.getFlippedPositions board (Some (Coord.mk r c)) color <> []).
Proof.
  intros Hcolor.
  assert (Search.getFlippedPositions board (Some (Coord.mk r c)) color <> []
          <-> exists d, In d directions
                        /\ hasFlipsInDirection board r c (fst d) (snd d) color = true)
    as Hflips.
  { rewrite getFlippedPositions_flat. cbn [Coord.r Coord.c].
    generalize directions. intros dirs. induction dirs as [|d dirs IH]; cbn [flat_map].
    - split; [by intros H|by intros (d & [] & _)].
    - split.
      + intros Hne.
        destruct (getFlipsInDirection board r c (fst d) (snd d) color) as [|p l] eqn:Hd.
        * rewrite app_nil_l in Hne. apply IH in Hne as (d' & Hd' & Hflip).
          exists d'. split; [by right|exact Hflip].
        * exists d. split; [by left|]. apply hasFlips_iff_getFlips. by rewrite Hd.
      + intros (d' & [<-|Hd'] & Hflip).
        * apply hasFlips_iff_getFlips in Hflip.
          destruct (getFlipsInDirection board r c (fst d) (snd d) color); [by destruct Hflip|].
          discriminate.
        * intros Hnil. apply app_eq_nil in Hnil as [_ Hnil].
          revert Hnil. apply IH. by exists d'. }
  rewrite Hflips. split.
  - intros Hin. apply generateLegalMoves_In in Hin as (r' & c' & [= <- <-] & H). exact H.
  - intros (Hr & Hc & Hempty & d & Hd & Hflip).
    assert (In (Some (Coord.mk r c))
              (flat_map (fun r => flat_map (fun c => legalAt board color r c) indices)
                 indices)) as Hin.
    { apply in_flat_map. exists r. split; [by apply indices_range|].
      apply in_flat_map. exists c. split; [by apply indices_range|].
      unfold legalAt. apply cellIs_true in Hempty. rewrite Hempty. cbn [negb].
      assert (existsb (fun d => hasFlipsInDirection board r c (fst d) (snd d) color)
                directions = true) as ->.
      { apply existsb_exists. eauto. }
      by left. }
    unfold generateLegalMoves. destruct color; [by destruct Hcolor|exact Hin|exact Hin].
Qed.

Lemma generateLegalMoves_getFlippedPositions_witness :
  Black <> Empty
  /\ (In (Some (Coord.mk 2 4)) (generateLegalMoves createStartingBoard Black)
      <-> 0 <= 2 <= 7 /\ 0 <= 4 <= 7
          /\ cellAt createStartingBoard 2 4 = Some Empty
          /\ Search.getFlippedPositions createStartingBoard (Some (Coord.mk 2 4)) Black
             <> []).
Proof.
  assert (Black <> Empty) as Hc by discriminate.
  split; [exact Hc|].
  exact (generateLegalMoves_getFlippedPositions createStartingBoard Black 2 4 Hc).
Defined.

(** ** Reading a board back *)

Lemma join_split (sep : Z) (s : Js.str) : Js.join sep (Js.split sep s) = s.
Proof.
  assert (forall s, Js.split sep s <> []) as Hne.
  { intros [|u s']; cbn [Js.split]; [discriminate|].
    destruct (u =? sep); [discriminate|]. destruct (Js.split sep s'); discriminate. }
  induction s as [|u s IH]; cbn [Js.split]; [reflexivity|].
  destruct (Z.eqb_spec u sep) as [->|_].
  - specialize (Hne s). destruct (Js.split sep s) as [|line lines]; [by destruct Hne|].
    cbn [Js.join app]. f_equal. exact IH.
  - specialize (Hne s). destruct (Js.split sep s) as [|line lines]; [by destruct Hne|].
    destruct lines as [|line' lines]; cbn [Js.join app] in *; by rewrite IH.
Qed.

Lemma readRow_inv (line : Js.str) : forall (acc row : list Cell),
  readRow line acc = inr row -> exists cells, row = acc ++ cells /\ line = map cellChar cells.
Proof.
  induction line as [|u line IH]; intros acc row H; cbn [readRow] in H.
  - injection H as <-. exists []. by rewrite app_nil_r.
  - destruct (Z.eqb_spec u 46) as [->|_];
      [|destruct (Z.eqb_spec u 66) as [->|_];
        [|destruct (Z.eqb_spec u 87) as [->|_]; [|discriminate H]]];
      apply IH in H as (cells & -> & ->);
      [exists (Empty :: cells)|exists (Black :: cells)|exists (White :: cells)];
      by rewrite <- app_assoc.
Qed.

Lemma readRows_inv (lines : list Js.str) : forall (acc board : Board),
  readRows lines acc = inr board ->
  exists rows, board = acc ++ rows
               /\ lines = map (map cellChar) rows
               /\ Forall (fun row => length row = 8%nat) rows.
Proof.
  induction lines as [|line lines IH]; intros acc board H; cbn [readRows] in H.
  - injection H as <-. exists []. by rewrite app_nil_r.
  - destruct (Nat.eqb_spec (length line) 8) as [Hlen|_]; [|discriminate H].
    cbn [negb] in H.
    destruct (readRow line []) as [e|row] eqn:Hrow; [discriminate H|].
    apply readRow_inv in Hrow as (cells & -> & ->). rewrite app_nil_l in H.
    apply IH in H as (rows & -> & -> & Hall).
    exists (cells :: rows). rewrite <- app_assoc. split; [done|]. split; [done|].
    apply Forall_cons. split; [by rewrite length_map in Hlen|exact Hall].
Qed.

(** X8: [deserializeBoard] accepts exactly the strings that are, once
    trimmed, the text [serializeBoard] writes for a board of 8 rows of 8
    cells, and it returns that board; on every other string it throws. *)
Theorem deserializeBoard_accepts (s : Js.str) (board : Board) :
  deserializeBoard s = inr board
  <-> validBoard board /\ serializeBoard board = Js.trim s.
Proof.
  unfold deserializeBoard, serializeBoard. cbv zeta.
  rewrite (map_ext _ (map cellChar) rowText). split.
  - destruct (Nat.eqb_spec (length (Js.split 10 (Js.trim s))) 8) as [Hlen|_];
      [|discriminate].
    cbn [negb]. intros H. apply readRows_inv in H as (rows & -> & Hlines & Hall).
    rewrite app_nil_l. rewrite Hlines, length_map in Hlen.
    split; [by split|]. rewrite <- Hlines. apply join_split.
  - intros [[Hrows Hcols] <-].
    rewrite split_join.
    + rewrite length_map, Hrows. cbn [Nat.eqb negb]. by apply readRows_text.
    + by destruct board.
    + apply Forall_map, Forall_true. intros row. apply cellChar_not_newline.
Qed.

(** ** Labels of squares *)

(** X9: [algebraicToMove] returns a square with a numeric row exactly for
    the labels [moveToAlgebraic] writes for the 64 squares of the board,
    and it returns the square the label was written for. *)
Theorem algebraicToMove_square (algebraic : Js.str) (r c : Z) :
  algebraicToMove algebraic = Some (Js.mkCoord (Js.Num r) (Js.Num c))
  <-> 0 <= r <= 7 /\ 0 <= c <= 7 /\ algebraic = moveToAlgebraic (Some (Coord.mk r c)).
Proof.
  split.
  - intros H. split; [|split]; [| |symmetry; by apply moveToAlgebraic_algebraicToMove].
    + destruct algebraic as [|u0 [|u1 [|u2 rest]]];
        try (unfold algebraicToMove in H; destruct (decide _); discriminate H).
      rewrite algebraicToMove_two in H.
      destruct ((97 <=? u0) && (u0 <=? 104)) eqn:Hcol; [|discriminate H].
      destruct ((48 <=? u1) && (u1 <=? 57)) eqn:Hdigit; [|discriminate H].
      destruct ((49 <=? u1) && (u1 <=? 56)) eqn:Hrow; [|discriminate H].
      injection H as <- <-. zprop. lia.
    + destruct algebraic as [|u0 [|u1 [|u2 rest]]];
        try (unfold algebraicToMove in H; destruct (decide _); discriminate H).
      rewrite algebraicToMove_two in H.
      destruct ((97 <=? u0) && (u0 <=? 104)) eqn:Hcol; [|discriminate H].
      destruct ((48 <=? u1) && (u1 <=? 57)) eqn:Hdigit; [|discriminate H].
      destruct ((49 <=? u1) && (u1 <=? 56)) eqn:Hrow; [|discriminate H].
      injection H as <- <-. zprop. lia.
  - intros (Hr & Hc & ->). by apply algebraicToMove_moveToAlgebraic.
Qed.

(** ** Hashes *)

(** X10: after a legal move of Black, [updateHash] applied to the hash of
    the position gives the hash [hashBoard] computes from scratch for the
    new board with White to move. *)
Theorem updateHash_black_move (ZOBRIST_PIECES : Z -> Z -> Z) (board : Board) (m : Coord.t) :
  In (Some m) (generateLegalMoves board Black) ->
  Zobrist.updateHash ZOBRIST_PIECES (Zobrist.hashBoard ZOBRIST_PIECES board Black) m Black
    (Search.getFlippedPositions board (Some m) Black)
  = Zobrist.hashBoard ZOBRIST_PIECES (fst (applyMove board (Some m) Black)) White.
Proof.
  intros Hlegal. exact (updateHash_incremental ZOBRIST_PIECES board Black m Hlegal).
Qed.

Lemma updateHash_black_move_witness :
  In (Some (Coord.mk 2 4)) (generateLegalMoves createStartingBoard Black)
  /\ Zobrist.updateHash Samples.sampleZobrist
       (Zobrist.hashBoard Samples.sampleZobrist createStartingBoard Black)
       (Coord.mk 2 4) Black
       (Search.getFlippedPositions createStartingBoard (Some (Coord.mk 2 4)) Black)
     = Zobrist.hashBoard Samples.sampleZobrist Samples.afterE3 White.
Proof.
  assert (In (Some (Coord.mk 2 4)) (generateLegalMoves createStartingBoard Black)) as H.
  { vm_compute. tauto. }
  split; [exact H|].
  exact (updateHash_black_move Samples.sampleZobrist createStartingBoard (Coord.mk 2 4) H).
Defined.

(** X11: writing one square of the board changes [hashBoard] by the XOR
    of the table entries of the old and the new content of that square,
    whichever side is to move; an empty square has no entry. *)
Theorem hashBoard_setCell (ZOBRIST_PIECES : Z -> Z -> Z) (board : Board) (r c : Z)
    (old x sideToMove : Cell) :
  inBounds r c = true -> cellAt board r c = Some old ->
  Zobrist.hashBoard ZOBRIST_PIECES (setCell board r c x) sideToMove
  = Z.lxor (Zobrist.hashBoard ZOBRIST_PIECES board sideToMove)
      (Z.lxor (Zobrist.pieceConstant ZOBRIST_PIECES old (r * 8 + c))
              (Zobrist.pieceConstant ZOBRIST_PIECES x (r * 8 + c))).
Proof.
  intros Hb Hold.
  pose proof (pieceHash_setCell ZOBRIST_PIECES board r c old x Hb Hold) as Hpieces.
  destruct sideToMove.
  - exact Hpieces.
  - change (Zobrist.hashBoard ZOBRIST_PIECES ?b Black)
      with (Z.lxor (Zobrist.pieceHash ZOBRIST_PIECES b) Zobrist.ZOBRIST_SIDE_TO_MOVE).
    rewrite Hpieces. xor_chain.
  - exact Hpieces.
Qed.

Lemma hashBoard_setCell_witness :
  inBounds 2 4 = true /\ cellAt createStartingBoard 2 4 = Some Empty
  /\ Zobrist.hashBoard Samples.sampleZobrist (setCell createStartingBoard 2 4 Black) White
     = Z.lxor (Zobrist.hashBoard Samples.sampleZobrist createStartingBoard White)
         (Z.lxor 0 (Samples.sampleZobrist 20 0)).
Proof.
  assert (inBounds 2 4 = true) as Hb by reflexivity.
  assert (cellAt createStartingBoard 2 4 = Some Empty) as Hc by reflexivity.
  split; [exact Hb|]. split; [exact Hc|].
  exact (hashBoard_setCell Samples.sampleZobrist createStartingBoard 2 4 Empty Black White
           Hb Hc).
Defined.

Lemma lxor_64_bits (a b : Z) :
  0 <= a < 2 ^ 64 -> 0 <= b < 2 ^ 64 -> 0 <= Z.lxor a b < 2 ^ 64.
Proof.
  intros Ha Hb.
  assert (forall z, 0 <= z < 2 ^ 64 -> Z.log2 z < 64) as Hlog.
  { intros z Hz. destruct (Z.eq_dec z 0) as [->|Hne]; [done|].
    apply Z.log2_lt_pow2; lia. }
  assert (0 <= Z.lxor a b) as Hnonneg by (apply Z.lxor_nonneg; lia).
  split; [exact Hnonneg|].
  destruct (Z.eq_dec (Z.lxor a b) 0) as [->|Hne]; [done|].
  apply Z.log2_lt_pow2; [lia|].
  pose proof (Z.log2_lxor a b ltac:(lia) ltac:(lia)).
  pose proof (Hlog a Ha). pose proof (Hlog b Hb). lia.
Qed.

Lemma xor_fold_64_bits {X : Type} (g : X -> Z) (l : list X) :
  (forall p, 0 <= g p < 2 ^ 64) ->
  forall h, 0 <= h < 2 ^ 64 -> 0 <= fold_left (fun h p => Z.lxor h (g p)) l h < 2 ^ 64.
Proof.
  intros Hg. induction l as [|p l IH]; intros h Hh; cbn [fold_left]; [exact Hh|].
  apply IH. by apply lxor_64_bits.
Qed.

(** X12: with a table of 64-bit entries, as [initializeZobrist] fills it,
    [hashBoard] returns a 64-bit value, and [updateHash] turns a 64-bit
    hash into a 64-bit hash. *)
Theorem hashes_64_bits (ZOBRIST_PIECES : Z -> Z -> Z) :
  (forall pos colorIndex, 0 <= ZOBRIST_PIECES pos colorIndex < 2 ^ 64) ->
  (forall board sideToMove,
     0 <= Zobrist.hashBoard ZOBRIST_PIECES board sideToMove < 2 ^ 64)
  /\ (forall oldHash move color flippedPositions,
        0 <= oldHash < 2 ^ 64 ->
        0 <= Zobrist.updateHash ZOBRIST_PIECES oldHash move color flippedPositions
          < 2 ^ 64).
Proof.
  intros Htable.
  assert (0 <= Zobrist.ZOBRIST_SIDE_TO_MOVE < 2 ^ 64) as Hside by (by vm_compute).
  split.
  - intros board sideToMove.
    assert (0 <= Zobrist.pieceHash ZOBRIST_PIECES board < 2 ^ 64) as Hpieces.
    { rewrite pieceHash_squares. apply xor_fold_64_bits; [|lia].
      intros [r c]. unfold Zobrist.squareConstant, Zobrist.hashSquare. cbn [fst snd].
      destruct (cellIs board r c Empty); [lia|]. cbv zeta.
      rewrite Z.lxor_0_l. apply Htable. }
    destruct sideToMove; [exact Hpieces| |exact Hpieces].
    change (Zobrist.hashBoard ZOBRIST_PIECES board Black)
      with (Z.lxor (Zobrist.pieceHash ZOBRIST_PIECES board) Zobrist.ZOBRIST_SIDE_TO_MOVE).
    by apply lxor_64_bits.
  - intros oldHash move color flippedPositions Hold.
    unfold Zobrist.updateHash. cbv zeta.
    assert (forall l h, 0 <= h < 2 ^ 64 ->
              0 <= fold_left
                     (fun hash (f : Z * Z) =>
                        Z.lxor
                          (Z.lxor hash
                             (ZOBRIST_PIECES (fst f * 8 + snd f)
                                match color with Black => 1 | _ => 0 end))
                          (ZOBRIST_PIECES (fst f * 8 + snd f)
                             match color with Black => 0 | _ => 1 end)) l h
                < 2 ^ 64) as Hfold.
    { induction l as [|f l IH]; intros h Hh; cbn [fold_left]; [exact Hh|].
      apply IH. apply lxor_64_bits; [apply lxor_64_bits|]; auto. }
    specialize (Hfold flippedPositions
                  (Z.lxor (Z.lxor oldHash Zobrist.ZOBRIST_SIDE_TO_MOVE)
                     (ZOBRIST_PIECES (Coord.r move * 8 + Coord.c move)
                        match color with Black => 0 | _ => 1 end))
                  ltac:(apply lxor_64_bits; [apply lxor_64_bits|]; auto)).
    destruct (negate color); [exact Hfold| |exact Hfold].
    by apply lxor_64_bits.
Qed.

Lemma hashes_64_bits_witness :
  (forall pos colorIndex, 0 <= Samples.sampleZobrist pos colorIndex < 2 ^ 64)
  /\ 0 <= Zobrist.hashBoard Samples.sampleZobrist createStartingBoard Black < 2 ^ 64.
Proof.
  assert (forall pos colorIndex, 0 <= Samples.sampleZobrist pos colorIndex < 2 ^ 64) as H.
  { intros pos colorIndex. unfold Samples.sampleZobrist. apply Z.mod_pos_bound. lia. }
  split; [exact H|].
  exact (proj1 (hashes_64_bits Samples.sampleZobrist H) createStartingBoard Black).
Defined.

(** ** The terms of the evaluation *)

Lemma negate_involutive (x : Cell) : negate (negate x) = x.
Proof. by destruct x. Qed.

Lemma cellIs_opponent (board : Board) (r c : Z) (color : Cell) :
  color <> Empty -> cellIs board r c color = true -> cellIs board r c (negate color) = false.
Proof.
  intros Hcolor Hc. apply cellIs_true in Hc. unfold cellIs. apply bool_decide_eq_false.
  rewrite Hc. destruct color; [by destruct Hcolor|discriminate|discriminate].
Qed.

(** Two pairs of counters that are updated with the roles of the two
    sides exchanged stay mirror images of each other. *)
Lemma overSquares_mirror (f g : Z * Z -> Z -> Z -> Z * Z) :
  (forall n n' r c, fst n' = snd n -> snd n' = fst n ->
                    fst (g n' r c) = snd (f n r c) /\ snd (g n' r c) = fst (f n r c)) ->
  fst (Evaluation.overSquares g) = snd (Evaluation.overSquares f)
  /\ snd (Evaluation.overSquares g) = fst (Evaluation.overSquares f).
Proof.
  intros Hfg. unfold Evaluation.overSquares. rewrite !squares_nested.
  assert (forall (l : list (Z * Z)) (n n' : Z * Z),
            fst n' = snd n -> snd n' = fst n ->
            fst (fold_left (fun h p => g h (fst p) (snd p)) l n')
            = snd (fold_left (fun h p => f h (fst p) (snd p)) l n)
            /\ snd (fold_left (fun h p => g h (fst p) (snd p)) l n')
               = fst (fold_left (fun h p => f h (fst p) (snd p)) l n)) as Hfold.
  { induction l as [|p l IH]; intros n n' H1 H2; cbn [fold_left]; [by split|].
    destruct (Hfg n n' (fst p) (snd p) H1 H2) as [H1' H2']. by apply IH. }
  by apply Hfold.
Qed.

(** The counters of one side and of the other, for a test [keep] on
    squares and an amount [w] added per square. *)
Lemma sideCounters_mirror (board : Board) (color : Cell) (keep : Z -> Z -> bool)
    (w : Z -> Z -> Z) :
  color <> Empty ->
  let counters (color : Cell) :=
    Evaluation.overSquares (fun n r c =>
      if keep r c then
        if cellIs board r c color then (fst n + w r c, snd n)
        else if cellIs board r c (negate color) then (fst n, snd n + w r c)
        else n
      else n) in
  fst (counters (negate color)) = snd (counters color)
  /\ snd (counters (negate color)) = fst (counters color).
Proof.
  intros Hcolor. cbv zeta. apply overSquares_mirror.
  intros n n' r c H1 H2. rewrite negate_involutive.
  destruct (keep r c); [|by split].
  destruct (cellIs board r c color) eqn:Hmine.
  - rewrite (cellIs_opponent board r c color Hcolor Hmine). cbn [fst snd]. split; [done|lia].
  - destruct (cellIs board r c (negate color)); cbn [fst snd]; [split; [lia|done]|by split].
Qed.

Lemma legalMoves_count (board : Board) (color : Cell) :
  0 <= Z.of_nat (length (generateLegalMoves board color)) <= 64.
Proof.
  pose proof (sublist_length _ _ (generateLegalMoves_sublist board color)) as Hlen.
  change (length allSquares) with 64%nat in Hlen. lia.
Qed.

(** The quotient [k * (a - b) / (a + b + 1)] of the mobility and frontier
    scores, for all counts [a] and [b] that 64 squares allow: it lies
    strictly between [-|k|] and [|k|], and exchanging the counts negates
    it. *)
Lemma quotient_facts (a b : Z) :
  0 <= a <= 64 -> 0 <= b <= 64 ->
  let mobility (a b : Z) :=
    (Evaluation.ofZ 100 * Evaluation.ofZ (a - b) / Evaluation.ofZ (a + b + 1))%float in
  (PrimFloat.ltb (-100) (mobility a b) && PrimFloat.ltb (mobility a b) 100
   && PrimFloat.eqb (mobility b a) (- mobility a b)
   && PrimFloat.ltb (-50) (Evaluation.frontierFormula a b)
   && PrimFloat.ltb (Evaluation.frontierFormula a b) 50
   && PrimFloat.eqb (Evaluation.frontierFormula b a) (- Evaluation.frontierFormula a b))%float
  = true.
Proof.
  intros Ha Hb. cbv zeta.
  assert (forallb (fun a => forallb (fun b =>
            (PrimFloat.ltb (-100)
               (Evaluation.ofZ 100 * Evaluation.ofZ (a - b) / Evaluation.ofZ (a + b + 1))
             && PrimFloat.ltb
                  (Evaluation.ofZ 100 * Evaluation.ofZ (a - b) / Evaluation.ofZ (a + b + 1))
                  100
             && PrimFloat.eqb
                  (Evaluation.ofZ 100 * Evaluation.ofZ (b - a) / Evaluation.ofZ (b + a + 1))
                  (- (Evaluation.ofZ 100 * Evaluation.ofZ (a - b)
                      / Evaluation.ofZ (a + b + 1)))
             && PrimFloat.ltb (-50) (Evaluation.frontierFormula a b)
             && PrimFloat.ltb (Evaluation.frontierFormula a b) 50
             && PrimFloat.eqb (Evaluation.frontierFormula b a)
                  (- Evaluation.frontierFormula a b))%float)
            (seqZ 0 65)) (seqZ 0 65) = true) as Hall.
  { vm_compute. reflexivity. }
  rewrite forallb_forall in Hall.
  specialize (Hall a ltac:(apply list_elem_of_In, elem_of_seqZ; lia)).
  rewrite forallb_forall in Hall.
  exact (Hall b ltac:(apply list_elem_of_In, elem_of_seqZ; lia)).
Qed.

(** X13: the five terms of [evaluatePosition] are zero-sum: evaluated for
    the other side, the piece-square, stability and disc-difference
    scores are the negated scores, and so are (as numbers, [-0] and [0]
    being equal) the mobility and frontier scores. *)
Theorem evaluation_terms_zero_sum (board : Board) (color : Cell) :
  color <> Empty ->
  Evaluation.calculatePieceSquareScore board (negate color)
    = - Evaluation.calculatePieceSquareScore board color
  /\ Evaluation.calculateStabilityScore board (negate color)
     = - Evaluation.calculateStabilityScore board color
  /\ Evaluation.calculateDiscDifferenceScore board (negate color)
     = - Evaluation.calculateDiscDifferenceScore board color
  /\ PrimFloat.eqb (Evaluation.calculateMobilityScore board (negate color))
       (- Evaluation.calculateMobilityScore board color)%float = true
  /\ PrimFloat.eqb (Evaluation.calculateFrontierScore board (negate color))
       (- Evaluation.calculateFrontierScore board color)%float = true.
Proof.
  intros Hcolor. split; [|split; [|split; [|split]]].
  - unfold Evaluation.calculatePieceSquareScore. cbv zeta.
    destruct (sideCounters_mirror board color (fun _ _ => true) Evaluation.squareWeight
                Hcolor) as [H1 H2].
    cbv zeta in H1, H2. rewrite H1, H2. lia.
  - unfold Evaluation.calculateStabilityScore. cbv zeta.
    destruct (sideCounters_mirror board color
                (Evaluation.stableAt (Evaluation.calculateStableDiscs board))
                (fun _ _ => 1) Hcolor) as [H1 H2].
    cbv zeta in H1, H2. rewrite H1, H2. lia.
  - unfold Evaluation.calculateDiscDifferenceScore. cbv zeta.
    destruct (sideCounters_mirror board color (fun _ _ => true) (fun _ _ => 1) Hcolor)
      as [H1 H2].
    cbv zeta in H1, H2. rewrite H1, H2. lia.
  - unfold Evaluation.calculateMobilityScore. cbv zeta. rewrite negate_involutive.
    pose proof (quotient_facts _ _ (legalMoves_count board color)
                  (legalMoves_count board (negate color))) as Hq.
    cbv zeta in Hq. repeat (apply andb_true_iff in Hq as [Hq ?]). assumption.
  - unfold Evaluation.calculateFrontierScore. cbv zeta.
    destruct (sideCounters_mirror board color
                (fun r c => negb (cellIs board r c Empty) && Evaluation.isFrontier board r c)
                (fun _ _ => 1) Hcolor) as [H1 H2].
    cbv zeta in H1, H2.
    assert (forall color,
              Evaluation.frontierCounts board color
              = Evaluation.overSquares (fun n r c =>
                  if negb (cellIs board r c Empty) && Evaluation.isFrontier board r c then
                    if cellIs board r c color then (fst n + 1, snd n)
                    else if cellIs board r c (negate color) then (fst n, snd n + 1)
                    else n
                  else n)) as Hcounts.
    { intros color'. unfold Evaluation.frontierCounts, Evaluation.overSquares. cbv zeta.
      rewrite !squares_nested. apply fold_left_pointwise. intros n p.
      destruct (cellIs board (fst p) (snd p) Empty); reflexivity. }
    rewrite !Hcounts, H1, H2.
    rewrite <- (Hcounts color).
    destruct (frontierCounts_bound board color) as [Hmy Hopp].
    pose proof (quotient_facts _ _ Hmy Hopp) as Hq.
    cbv zeta in Hq. repeat (apply andb_true_iff in Hq as [Hq ?]). assumption.
Qed.

Lemma evaluation_terms_zero_sum_witness :
  Black <> Empty
  /\ Evaluation.calculatePieceSquareScore Samples.afterE3 (negate Black)
     = - Evaluation.calculatePieceSquareScore Samples.afterE3 Black.
Proof.
  assert (Black <> Empty) as Hc by discriminate.
  split; [exact Hc|]. exact (proj1 (evaluation_terms_zero_sum Samples.afterE3 Black Hc)).
Defined.

(** X14: on every board and for either side the mobility score lies
    strictly between -100 and 100, the frontier score strictly between
    -50 and 50, the disc-difference score between -64 and 64 and the
    stability score between -6400 and 6400. *)
Theorem evaluation_terms_range (board : Board) (color : Cell) :
  (PrimFloat.ltb (-100) (Evaluation.calculateMobilityScore board color)
   && PrimFloat.ltb (Evaluation.calculateMobilityScore board color) 100)%float = true
  /\ (PrimFloat.ltb (-50) (Evaluation.calculateFrontierScore board color)
      && PrimFloat.ltb (Evaluation.calculateFrontierScore board color) 50)%float = true
  /\ -64 <= Evaluation.calculateDiscDifferenceScore board color <= 64
  /\ -6400 <= Evaluation.calculateStabilityScore board color <= 6400.
Proof.
  split; [|split; [|split]].
  - unfold Evaluation.calculateMobilityScore. cbv zeta.
    pose proof (quotient_facts _ _ (legalMoves_count board color)
                  (legalMoves_count board (negate color))) as Hq.
    cbv zeta in Hq. repeat (apply andb_true_iff in Hq as [Hq ?]).
    apply andb_true_iff. by split.
  - unfold Evaluation.calculateFrontierScore. cbv zeta.
    destruct (frontierCounts_bound board color) as [Hmy Hopp].
    pose proof (quotient_facts _ _ Hmy Hopp) as Hq.
    cbv zeta in Hq. repeat (apply andb_true_iff in Hq as [Hq ?]).
    apply andb_true_iff. by split.
  - unfold Evaluation.calculateDiscDifferenceScore. cbv zeta.
    match goal with
    | |- context [Evaluation.overSquares ?f] =>
        pose proof (overSquares_bound f) as Hbound
    end.
    destruct Hbound as [H1 H2]; [|lia].
    intros n r c. destruct (cellIs board r c color); [by right; left|].
    destruct (cellIs board r c (negate color)); [by right; right|by left].
  - unfold Evaluation.calculateStabilityScore. cbv zeta.
    match goal with
    | |- context [Evaluation.overSquares ?f] =>
        pose proof (overSquares_bound f) as Hbound
    end.
    destruct Hbound as [H1 H2]; [|lia].
    intros n r c.
    destruct (Evaluation.stableAt (Evaluation.calculateStableDiscs board) r c); [|by left].
    destruct (cellIs board r c color); [by right; left|].
    destruct (cellIs board r c (negate color)); [by right; right|by left].
Qed.

(** ** The grid of stable discs *)

(** A grid whose marks all lie on occupied squares of the board. *)
Lemma blank_unmarked (r c : Z) :
  Evaluation.stableAt (replicate 8 (replicate 8 false)) r c = false.
Proof.
  unfold Evaluation.stableAt. destruct ((0 <=? r) && (0 <=? c)); [|reflexivity].
  destruct (replicate 8 (replicate 8 false) !! Z.to_nat r) as [row|] eqn:Hrow; [|reflexivity].
  apply lookup_replicate in Hrow as [-> _].
  destruct (replicate 8 false !! Z.to_nat c) as [b|] eqn:Hb; [|reflexivity].
  apply lookup_replicate in Hb as [-> _]. reflexivity.
Qed.

Lemma seedCorners_marks (board : Board) (r c : Z) :
  Evaluation.stableAt (Evaluation.seedCorners board) r c = true
  <-> In (r, c) [(0, 0); (0, 7); (7, 0); (7, 7)] /\ cellIs board r c Empty = false.
Proof.
  unfold Evaluation.seedCorners.
  assert (forall (l : list (Z * Z)) (stable : list (list bool)),
            Evaluation.stableGrid stable ->
            (forall k, In k l -> inBounds (fst k) (snd k) = true) ->
            Evaluation.stableAt
              (fold_left
                 (fun stable k =>
                    if negb (cellIs board (fst k) (snd k) Empty)
                    then Evaluation.markStable stable (fst k) (snd k) else stable)
                 l stable) r c = true
            <-> Evaluation.stableAt stable r c = true
                \/ (In (r, c) l /\ cellIs board r c Empty = false)) as Hfold.
  { induction l as [|k l IH]; intros stable Hgrid Hl; cbn [fold_left].
    - split; [by left|]. by intros [H|[[] _]].
    - rewrite IH.
      + destruct (cellIs board (fst k) (snd k) Empty) eqn:Hk; cbn [negb].
        * split; intros [H|[Hin Hocc]]; [by left|right; split; [by right|exact Hocc]
                                         |by left|].
          destruct Hin as [->|Hin]; [|right; by split].
          cbn [fst snd] in Hk. rewrite Hk in Hocc. discriminate Hocc.
        * rewrite stableAt_markStable by (auto; apply Hl; by left).
          destruct (decide (fst k = r /\ snd k = c)) as [[<- <-]|Hne].
          -- split; [|by left]. intros _. right. split; [left; by destruct k|exact Hk].
          -- split; intros [H|[Hin Hocc]]; [by left|right; split; [by right|exact Hocc]
                                            |by left|].
             destruct Hin as [->|Hin]; [by destruct Hne|right; by split].
      + destruct (negb (cellIs board (fst k) (snd k) Empty)); [|exact Hgrid].
        by apply markStable_grid.
      + intros k' Hk'. apply Hl. by right. }
  rewrite Hfold.
  - rewrite blank_unmarked. split; [by intros [H|H]|by right].
  - split; [reflexivity|]. repeat constructor.
  - intros k Hk. repeat (destruct Hk as [<-|Hk]; [reflexivity|]). destruct Hk.
Qed.

(** A pass keeps the marks it finds and marks only occupied squares of
    the board. *)
Lemma stablePass_marks (board : Board) (stable : list (list bool)) :
  Evaluation.stableGrid stable ->
  forall r c,
    Evaluation.stableAt (fst (Evaluation.stablePass board stable)) r c = true ->
    Evaluation.stableAt stable r c = true
    \/ (inBounds r c = true /\ cellIs board r c Empty = false).
Proof.
  intros Hgrid r c. unfold Evaluation.stablePass.
  rewrite (squares_nested
             (fun (st : list (list bool) * bool) r c =>
                if cellIs board r c Empty || Evaluation.stableAt (fst st) r c then st
                else if Evaluation.isDiscStable board (fst st) r c
                     then (Evaluation.markStable (fst st) r c, true)
                     else st)).
  assert (forall (l : list (Z * Z)) (st : list (list bool) * bool),
            (forall p, In p l -> inBounds (fst p) (snd p) = true) ->
            Evaluation.stableGrid (fst st) ->
            Evaluation.stableAt
              (fst (fold_left
                      (fun (st : list (list bool) * bool) p =>
                         if cellIs board (fst p) (snd p) Empty
                            || Evaluation.stableAt (fst st) (fst p) (snd p) then st
                         else if Evaluation.isDiscStable board (fst st) (fst p) (snd p)
                              then (Evaluation.markStable (fst st) (fst p) (snd p), true)
                              else st) l st)) r c = true ->
            Evaluation.stableAt (fst st) r c = true
            \/ (inBounds r c = true /\ cellIs board r c Empty = false)) as Hfold.
  { induction l as [|p l IH]; intros st Hl Hg; cbn [fold_left]; [by left|].
    intros H. apply IH in H; [|intros q Hq; apply Hl; by right|].
    - destruct H as [H|H]; [|by right].
      destruct (cellIs board (fst p) (snd p) Empty) eqn:Hocc; cbn [orb] in H; [by left|].
      destruct (Evaluation.stableAt (fst st) (fst p) (snd p)); [by left|].
      destruct (Evaluation.isDiscStable board (fst st) (fst p) (snd p)); [|by left].
      cbn [fst] in H. rewrite stableAt_markStable in H by (auto; apply Hl; by left).
      destruct (decide (fst p = r /\ snd p = c)) as [[<- <-]|_]; [|by left].
      right. split; [apply Hl; by left|exact Hocc].
    - destruct (cellIs board (fst p) (snd p) Empty
                || Evaluation.stableAt (fst st) (fst p) (snd p)); [exact Hg|].
      destruct (Evaluation.isDiscStable board (fst st) (fst p) (snd p)); [|exact Hg].
      by apply markStable_grid. }
  apply Hfold; [|exact Hgrid]. intros [r' c'] Hp. by apply squares_In.
Qed.

(** A pass that reports no change has changed nothing, and has found no
    unmarked disc that [isDiscStable] accepts. *)
Lemma stablePass_closed (board : Board) (stable : list (list bool)) :
  snd (Evaluation.stablePass board stable) = false ->
  fst (Evaluation.stablePass board stable) = stable
  /\ forall r c, inBounds r c = true -> cellIs board r c Empty = false ->
       Evaluation.isDiscStable board stable r c = true ->
       Evaluation.stableAt stable r c = true.
Proof.
  unfold Evaluation.stablePass.
  rewrite (squares_nested
             (fun (st : list (list bool) * bool) r c =>
                if cellIs board r c Empty || Evaluation.stableAt (fst st) r c then st
                else if Evaluation.isDiscStable board (fst st) r c
                     then (Evaluation.markStable (fst st) r c, true)
                     else st)).
  assert (forall (l : list (Z * Z)) (st : list (list bool) * bool),
            (snd st = false -> fst st = stable) ->
            let st' :=
              fold_left
                (fun (st : list (list bool) * bool) p =>
                   if cellIs board (fst p) (snd p) Empty
                      || Evaluation.stableAt (fst st) (fst p) (snd p) then st
                   else if Evaluation.isDiscStable board (fst st) (fst p) (snd p)
                        then (Evaluation.markStable (fst st) (fst p) (snd p), true)
                        else st) l st in
            snd st' = false ->
            fst st' = stable /\ snd st = false
            /\ forall p, In p l -> cellIs board (fst p) (snd p) Empty = false ->
                 Evaluation.isDiscStable board stable (fst p) (snd p) = true ->
                 Evaluation.stableAt stable (fst p) (snd p) = true) as Hfold.
  { induction l as [|p l IH]; intros st Hst; cbv zeta; cbn [fold_left].
    - intros H. split; [by apply Hst|]. split; [exact H|]. intros p [].
    - intros H. apply IH in H as (Hfst & Hsnd & Hclosed).
      + destruct (cellIs board (fst p) (snd p) Empty) eqn:Hocc; cbn [orb] in *.
        * split; [exact Hfst|]. split; [exact Hsnd|].
          intros q [<-|Hq] Hq1 Hq2; [|by apply Hclosed].
          rewrite Hocc in Hq1. discriminate Hq1.
        * destruct (Evaluation.stableAt (fst st) (fst p) (snd p)) eqn:Hmarked.
          -- split; [exact Hfst|]. split; [exact Hsnd|].
             intros q [<-|Hq] Hq1 Hq2; [|by apply Hclosed].
             rewrite <- (Hst Hsnd). exact Hmarked.
          -- destruct (Evaluation.isDiscStable board (fst st) (fst p) (snd p)) eqn:Hdisc;
               [discriminate Hsnd|].
             split; [exact Hfst|]. split; [exact Hsnd|].
             intros q [<-|Hq] Hq1 Hq2; [|by apply Hclosed].
             rewrite (Hst Hsnd) in Hdisc. rewrite Hdisc in Hq2. discriminate Hq2.
      + destruct (cellIs board (fst p) (snd p) Empty
                  || Evaluation.stableAt (fst st) (fst p) (snd p)); [exact Hst|].
        destruct (Evaluation.isDiscStable board (fst st) (fst p) (snd p)); [|exact Hst].
        discriminate. }
  intros H. specialize (Hfold Zobrist.squares (stable, false) ltac:(reflexivity)).
  cbv zeta in Hfold. apply Hfold in H as (Hfst & _ & Hclosed).
  split; [exact Hfst|]. intros r c Hb. apply (Hclosed (r, c)). by apply squares_In.
Qed.

(** A pass removes no mark. *)
Lemma stablePass_keeps (board : Board) (stable : list (list bool)) (r c : Z) :
  Evaluation.stableGrid stable ->
  Evaluation.stableAt stable r c = true ->
  Evaluation.stableAt (fst (Evaluation.stablePass board stable)) r c = true.
Proof.
  intros Hgrid Hm. unfold Evaluation.stablePass.
  rewrite (squares_nested
             (fun (st : list (list bool) * bool) r c =>
                if cellIs board r c Empty || Evaluation.stableAt (fst st) r c then st
                else if Evaluation.isDiscStable board (fst st) r c
                     then (Evaluation.markStable (fst st) r c, true)
                     else st)).
  assert (forall (l : list (Z * Z)) (st : list (list bool) * bool),
            (forall p, In p l -> inBounds (fst p) (snd p) = true) ->
            Evaluation.stableGrid (fst st) ->
            Evaluation.stableAt (fst st) r c = true ->
            Evaluation.stableAt
              (fst (fold_left
                      (fun (st : list (list bool) * bool) p =>
                         if cellIs board (fst p) (snd p) Empty
                            || Evaluation.stableAt (fst st) (fst p) (snd p) then st
                         else if Evaluation.isDiscStable board (fst st) (fst p) (snd p)
                              then (Evaluation.markStable (fst st) (fst p) (snd p), true)
                              else st) l st)) r c = true) as Hfold.
  { induction l as [|p l IHl]; intros st Hl Hg Hst; cbn [fold_left]; [exact Hst|].
    apply IHl; [intros q Hq; apply Hl; by right| |].
    - destruct (cellIs board (fst p) (snd p) Empty
                || Evaluation.stableAt (fst st) (fst p) (snd p)); [exact Hg|].
      destruct (Evaluation.isDiscStable board (fst st) (fst p) (snd p)); [|exact Hg].
      by apply markStable_grid.
    - destruct (cellIs board (fst p) (snd p) Empty
                || Evaluation.stableAt (fst st) (fst p) (snd p)); [exact Hst|].
      destruct (Evaluation.isDiscStable board (fst st) (fst p) (snd p)); [|exact Hst].
      cbn [fst]. rewrite stableAt_markStable by (auto; apply Hl; by left).
      destruct (decide _); [reflexivity|exact Hst]. }
  apply Hfold; [|exact Hgrid|exact Hm].
  intros [r' c'] Hp. by apply squares_In.
Qed.

(** One step of [while (changed)]. *)
Lemma stableLoop_step (board : Board) (fuel : nat) (stable : list (list bool)) :
  Evaluation.stableLoop (S fuel) board stable
  = if snd (Evaluation.stablePass board stable)
    then Evaluation.stableLoop fuel board (fst (Evaluation.stablePass board stable))
    else Some (fst (Evaluation.stablePass board stable)).
Proof. reflexivity. Qed.

Lemma stableLoop_closure (board : Board) (fuel : nat) :
  forall stable result : list (list bool),
    Evaluation.stableGrid stable ->
    Evaluation.stableLoop fuel board stable = Some result ->
    Evaluation.stableGrid result
    /\ (forall r c, Evaluation.stableAt stable r c = true ->
                    Evaluation.stableAt result r c = true)
    /\ (forall r c, Evaluation.stableAt result r c = true ->
                    Evaluation.stableAt stable r c = true
                    \/ (inBounds r c = true /\ cellIs board r c Empty = false))
    /\ Evaluation.stablePass board result = (result, false).
Proof.
  induction fuel as [|fuel IH]; intros stable result Hgrid Hrun; [discriminate Hrun|].
  rewrite stableLoop_step in Hrun.
  destruct (stablePass_progress board stable Hgrid) as (Hg & _ & _). cbv zeta in Hg.
  pose proof (stablePass_keeps board stable) as Hkeeps.
  pose proof (stablePass_marks board stable Hgrid) as Hnew.
  pose proof (stablePass_closed board stable) as Hclosed.
  destruct (Evaluation.stablePass board stable) as [grid changed] eqn:Hpass.
  cbn [fst snd] in Hrun, Hg, Hkeeps, Hnew, Hclosed.
  destruct changed.
  - destruct (IH _ _ Hg Hrun) as (Hgr & Hkeep & Hmarks & Hfix).
    split; [exact Hgr|]. split; [|split; [|exact Hfix]].
    + intros r c Hm. apply Hkeep. apply Hkeeps; [exact Hgrid|exact Hm].
    + intros r c Hm. destruct (Hmarks r c Hm) as [Hm'|Hocc]; [|right; exact Hocc].
      apply Hnew. exact Hm'.
  - injection Hrun as <-. destruct (Hclosed eq_refl) as [-> _].
    split; [exact Hgrid|]. split; [intros r c Hm; exact Hm|].
    split; [intros r c Hm; left; exact Hm|exact Hpass].
Qed.

(** X15: the grid [calculateStableDiscs] returns has 8 rows of 8 marks;
    it marks only occupied squares of the board, marks every occupied
    corner, and is closed: no unmarked disc is left that [isDiscStable]
    accepts, so that one more pass would change nothing. *)
Theorem calculateStableDiscs_closed (board : Board) :
  let stable := Evaluation.calculateStableDiscs board in
  Evaluation.stableGrid stable
  /\ (forall r c, Evaluation.stableAt stable r c = true ->
                  inBounds r c = true /\ cellIs board r c Empty = false)
  /\ (forall r c, In (r, c) [(0, 0); (0, 7); (7, 0); (7, 7)] ->
                  cellIs board r c Empty = false -> Evaluation.stableAt stable r c = true)
  /\ (forall r c, inBounds r c = true -> cellIs board r c Empty = false ->
                  Evaluation.isDiscStable board stable r c = true ->
                  Evaluation.stableAt stable r c = true)
  /\ Evaluation.stablePass board stable = (stable, false).
Proof.
  cbv zeta. unfold Evaluation.calculateStableDiscs. cbv zeta.
  destruct (calculateStableDiscs_terminates board) as [result Hrun].
  rewrite Hrun. cbn [default].
  destruct (stableLoop_closure board _ _ _ (seedCorners_grid board) Hrun)
    as (Hgrid & Hkeep & Hmarks & Hfix).
  split; [exact Hgrid|]. split; [|split; [|split; [|exact Hfix]]].
  - intros r c Hm. destruct (Hmarks r c Hm) as [Hseed|Hocc]; [|exact Hocc].
    apply seedCorners_marks in Hseed as [Hin Hocc]. split; [|exact Hocc].
    repeat (destruct Hin as [[= <- <-]|Hin]; [reflexivity|]). destruct Hin.
  - intros r c Hin Hocc. apply Hkeep. apply seedCorners_marks. by split.
  - assert (snd (Evaluation.stablePass board result) = false) as Hchanged
      by (by rewrite Hfix).
    exact (proj2 (stablePass_closed board result Hchanged)).
Qed.

(** ** Move ordering *)

Lemma insertMove_Permutation (cmp : Move -> Move -> Z) (x : Move) (sorted : list Move) :
  Search.insertMove cmp x sorted ≡ₚ x :: sorted.
Proof.
  induction sorted as [|y rest IH]; cbn [Search.insertMove]; [reflexivity|].
  destruct (cmp x y <=? 0); [reflexivity|].
  rewrite IH. apply perm_swap.
Qed.

(** X16: [orderMoves] returns a rearrangement of the moves it is given:
    no move is lost, added or repeated. *)
Theorem orderMoves_permutation (board : Board) (moves : list Move) (color : Cell) :
  Search.orderMoves board moves color ≡ₚ moves.
Proof.
  unfold Search.orderMoves, Search.sortMoves.
  induction moves as [|x moves IH]; cbn [foldr]; [reflexivity|].
  rewrite insertMove_Permutation. by rewrite IH.
Qed.

Lemma insertMove_In (cmp : Move -> Move -> Z) (x z : Move) (sorted : list Move) :
  In z (Search.insertMove cmp x sorted) -> z = x \/ In z sorted.
Proof.
  induction sorted as [|y rest IH]; cbn [Search.insertMove].
  - intros [<-|[]]. by left.
  - destruct (cmp x y <=? 0).
    + intros [<-|Hin]; [by left|by right].
    + intros [<-|Hin]; [right; by left|].
      destruct (IH Hin) as [->|Hrest]; [by left|right; by right].
Qed.

(** Insertion sort with a comparator that is total and transitive on the
    moves at hand sorts them. *)
Lemma sortMoves_sorted (cmp : Move -> Move -> Z) (P : Move -> Prop) :
  (forall a b, P a -> P b -> 0 < cmp a b -> cmp b a <= 0) ->
  (forall a b c, P a -> P b -> P c -> cmp a b <= 0 -> cmp b c <= 0 -> cmp a c <= 0) ->
  forall moves, (forall m, In m moves -> P m) ->
    (forall m, In m (Search.sortMoves cmp moves) -> P m)
    /\ StronglySorted (fun a b => cmp a b <= 0) (Search.sortMoves cmp moves).
Proof.
  intros Htotal Htrans.
  assert (forall x sorted,
            P x -> (forall m, In m sorted -> P m) ->
            StronglySorted (fun a b => cmp a b <= 0) sorted ->
            StronglySorted (fun a b => cmp a b <= 0) (Search.insertMove cmp x sorted))
    as Hinsert.
  { intros x. induction sorted as [|y rest IH]; intros Hx HP Hs; cbn [Search.insertMove].
    - constructor; constructor.
    - apply StronglySorted_inv in Hs as [Hrest Hy].
      destruct (Z.leb_spec (cmp x y) 0) as [Hle|Hgt].
      + constructor; [by constructor|].
        constructor; [exact Hle|].
        rewrite Forall_forall in Hy. apply Forall_forall. intros z Hz.
        apply (Htrans x y z); [exact Hx|apply HP; by left| |exact Hle|by apply Hy].
        apply HP. right. by apply list_elem_of_In.
      + constructor.
        * apply IH; [exact Hx|intros m Hm; apply HP; by right|exact Hrest].
        * apply Forall_forall. intros z Hz. apply list_elem_of_In, insertMove_In in Hz.
          destruct Hz as [->|Hz].
          -- apply Htotal; [exact Hx|apply HP; by left|exact Hgt].
          -- rewrite Forall_forall in Hy. by apply Hy, list_elem_of_In. }
  unfold Search.sortMoves.
  induction moves as [|x moves IH]; intros HP; cbn [foldr].
  - split; [intros m []|constructor].
  - destruct IH as [HPs Hs]; [intros m Hm; apply HP; by right|].
    split.
    + intros m Hm. apply insertMove_In in Hm as [->|Hm]; [apply HP; by left|by apply HPs].
    + apply Hinsert; [apply HP; by left|exact HPs|exact Hs].
Qed.

(** The comparator of [orderMoves] on moves that are squares. *)
Lemma compareMoves_order (board : Board) (color : Cell) :
  (forall a b, a <> None -> b <> None ->
               0 < Search.compareMoves board color a b ->
               Search.compareMoves board color b a <= 0)
  /\ (forall a b c, a <> None -> b <> None -> c <> None ->
                    Search.compareMoves board color a b <= 0 ->
                    Search.compareMoves board color b c <= 0 ->
                    Search.compareMoves board color a c <= 0).
Proof.
  split.
  - intros [a|] [b|] Ha Hb; [|by destruct Hb|by destruct Ha|by destruct Ha].
    unfold Search.compareMoves. cbv zeta.
    generalize (Search.isCorner a) (Search.isCorner b)
      (snd (applyMove board (Some a) color)) (snd (applyMove board (Some b) color))
      (Z.of_nat (length (generateLegalMoves (fst (applyMove board (Some a) color))
                           (negate color))))
      (Z.of_nat (length (generateLegalMoves (fst (applyMove board (Some b) color))
                           (negate color)))).
    intros ca cb fa fb ma mb.
    destruct ca, cb; cbn [andb negb];
      destruct (Z.eqb_spec fa fb), (Z.eqb_spec fb fa); cbn [negb]; lia.
  - intros [a|] [b|] [c|] Ha Hb Hc; try (by destruct Ha); try (by destruct Hb);
      try (by destruct Hc).
    unfold Search.compareMoves. cbv zeta.
    generalize (Search.isCorner a) (Search.isCorner b) (Search.isCorner c)
      (snd (applyMove board (Some a) color)) (snd (applyMove board (Some b) color))
      (snd (applyMove board (Some c) color))
      (Z.of_nat (length (generateLegalMoves (fst (applyMove board (Some a) color))
                           (negate color))))
      (Z.of_nat (length (generateLegalMoves (fst (applyMove board (Some b) color))
                           (negate color))))
      (Z.of_nat (length (generateLegalMoves (fst (applyMove board (Some c) color))
                           (negate color)))).
    intros ca cb cc fa fb fc ma mb mc.
    destruct ca, cb, cc; cbn [andb negb];
      destruct (Z.eqb_spec fa fb), (Z.eqb_spec fb fc), (Z.eqb_spec fa fc); cbn [negb]; lia.
Qed.

(** X17: on moves that are squares, the list [orderMoves] returns is
    sorted by its comparator: whenever one move stands before another the
    comparator does not put it after, so corners come first, then more
    flips, then fewer replies left to the opponent. *)
Theorem orderMoves_sorted (board : Board) (moves : list Move) (color : Cell) :
  (forall m, In m moves -> m <> None) ->
  StronglySorted (fun a b => Search.compareMoves board color a b <= 0)
    (Search.orderMoves board moves color).
Proof.
  intros Hsquares. destruct (compareMoves_order board color) as [Htotal Htrans].
  exact (proj2 (sortMoves_sorted (Search.compareMoves board color) (fun m => m <> None)
                  Htotal Htrans moves Hsquares)).
Qed.

Lemma orderMoves_sorted_witness :
  (forall m, In m (generateLegalMoves createStartingBoard Black) -> m <> None)
  /\ StronglySorted (fun a b => Search.compareMoves createStartingBoard Black a b <= 0)
       (Search.orderMoves createStartingBoard (generateLegalMoves createStartingBoard Black)
          Black).
Proof.
  assert (forall m, In m (generateLegalMoves createStartingBoard Black) -> m <> None) as H.
  { intros m Hm. apply generateLegalMoves_In in Hm as (r & c & -> & _). discriminate. }
  split; [exact H|].
  exact (orderMoves_sorted createStartingBoard (generateLegalMoves createStartingBoard Black)
           Black H).
Defined.

(** ** What a search does to the table and reports *)

Section MinimaxFacts.
Variable ZOBRIST_PIECES : Z -> Z -> Z.
Variable clock : nat -> Z.

Lemma store_grown (w0 w : Search.World) (boardHash depth originalAlpha : Z)
    (l : Search.Loop) :
  Table.grown w0 w ->
  Table.grown w0
    (Search.mkWorld (Search.store (Search.table w) boardHash depth originalAlpha l)
       (Search.ticks w)).
Proof.
  intros [Hkeys Hsize]. unfold Table.grown, Search.store in *. cbn [Search.table] in *.
  destruct (Z.ltb_spec (Z.of_nat (size (Search.table w))) Search.MAX_TT_SIZE) as [Hroom|_];
    [|by split].
  split.
  - intros k Hk. destruct (decide (k = boardHash)) as [->|Hne].
    + rewrite lookup_insert_eq. by eexists.
    + rewrite lookup_insert_ne by done. by apply Hkeys.
  - rewrite map_size_insert. destruct (Search.table w !! boardHash); cbn [id]; lia.
Qed.

Lemma minimax_grown (w0 : Search.World) (depth : nat) :
  forall board color alpha beta isMaximizing currentPV boardHash deadline w,
    Table.grown w0 w ->
    Table.grown w0
      (snd (Search.minimax ZOBRIST_PIECES clock depth board color alpha beta isMaximizing
              currentPV boardHash deadline w)).
Proof.
  induction depth as [|depth IH]; intros; cbn [Search.minimax];
    rewrite timeoutCheck_first_node;
    destruct (Search.probe (Search.table w) boardHash _ alpha beta); try done.
  destruct (generateLegalMoves board (if isMaximizing then color else negate color)).
  - destruct (generateLegalMoves board _); [done|].
    match goal with |- context [Search.minimax _ _ depth ?b ?c ?al ?be ?m ?pv ?h ?d ?w1] =>
      pose proof (IH b c al be m pv h d w1 ltac:(done)) as Hw1;
      destruct (Search.minimax ZOBRIST_PIECES clock depth b c al be m pv h d w1) end.
    done.
  - match goal with |- context [Search.moveLoop _ ?rec ?b ?cc ?m ?pv ?h ?ms ?l ?w1] =>
      pose proof (moveLoop_invariant ZOBRIST_PIECES (Table.grown w0) rec b cc m pv h
                    ltac:(intros; by apply IH) ms l w1 ltac:(done)) as Hw1;
      destruct (Search.moveLoop ZOBRIST_PIECES rec b cc m pv h ms l w1)
        as [[l' timedOut] w2]
    end.
    cbn [snd] in Hw1. destruct timedOut; [done|]. cbn [snd].
    by apply store_grown.
Qed.

(** The move loop keeps a principal variation that starts with
    [currentPV] and never lowers the node count, when the recursive calls
    return variations that start with the one they are given and count at
    least one node. *)
Lemma moveLoop_report
    (recur : Board -> Z -> Z -> list Js.str -> Z -> Search.World -> Outcome.t * Search.World)
    (board : Board) (currentColor : Cell) (isMaximizing : bool)
    (currentPV : list Js.str) (boardHash : Z) :
  (forall nb a b npv nh w,
      npv `prefix_of` Outcome.pv (fst (recur nb a b npv nh w))
      /\ 1 <= Outcome.nodes (fst (recur nb a b npv nh w))) ->
  forall moves l w,
    currentPV `prefix_of` Search.bestPV l ->
    let l' := fst (fst (Search.moveLoop ZOBRIST_PIECES recur board currentColor isMaximizing
                          currentPV boardHash moves l w)) in
    currentPV `prefix_of` Search.bestPV l' /\ Search.nodes l <= Search.nodes l'.
Proof.
  intros Hrecur. induction moves as [|move rest IH]; intros l w Hpv; cbv zeta.
  { cbn [Search.moveLoop fst]. split; [exact Hpv|lia]. }
  cbn [Search.moveLoop].
  match goal with |- context [recur ?nb ?a ?b ?npv ?nh w] =>
    destruct (Hrecur nb a b npv nh w) as [Hchild Hnodes];
    destruct (recur nb a b npv nh w) as [result w1] end.
  cbn [fst] in Hchild, Hnodes.
  assert (currentPV `prefix_of` Outcome.pv result) as Hnew.
  { etrans; [|exact Hchild]. by apply prefix_app_r. }
  destruct (Outcome.timeout result); [cbn [fst Search.bestPV Search.nodes]; split; [done|lia]|].
  match goal with |- context [if ?t then (?l1, false, w1) else _] =>
    assert (currentPV `prefix_of` Search.bestPV l1
            /\ Search.nodes l <= Search.nodes l1) as [Hpv1 Hn1];
    [|destruct t;
      [cbn [fst]; split; [exact Hpv1|lia]
      |destruct (IH l1 w1 Hpv1) as [Hpv' Hn']; split; [exact Hpv'|lia]]]
  end.
  destruct isMaximizing;
    [destruct (Outcome.score result >? Search.bestScore l)
    |destruct (Outcome.score result <? Search.bestScore l)];
    cbn [Search.bestPV Search.nodes]; split; (done || lia).
Qed.

Lemma minimax_report (depth : nat) :
  forall board color alpha beta isMaximizing currentPV boardHash deadline w,
    currentPV `prefix_of`
      Outcome.pv (fst (Search.minimax ZOBRIST_PIECES clock depth board color alpha beta
                         isMaximizing currentPV boardHash deadline w))
    /\ 1 <= Outcome.nodes
              (fst (Search.minimax ZOBRIST_PIECES clock depth board color alpha beta
                      isMaximizing currentPV boardHash deadline w)).
Proof.
  induction depth as [|depth IH]; intros; cbn [Search.minimax];
    rewrite timeoutCheck_first_node;
    destruct (Search.probe (Search.table w) boardHash _ alpha beta);
    try (cbn [fst Outcome.pv Outcome.nodes]; split; [reflexivity|lia]).
  destruct (generateLegalMoves board (if isMaximizing then color else negate color)).
  - destruct (generateLegalMoves board _).
    + cbn [fst Outcome.pv Outcome.nodes]. split; [by apply prefix_app_r|lia].
    + match goal with |- context [Search.minimax _ _ depth ?b ?c ?al ?be ?m ?pv ?h ?d ?w1] =>
        destruct (IH b c al be m pv h d w1) as [Hpv Hnodes];
        destruct (Search.minimax ZOBRIST_PIECES clock depth b c al be m pv h d w1) end.
      cbn [fst Outcome.pv Outcome.nodes] in *. split; [|lia].
      etrans; [|exact Hpv]. by apply prefix_app_r.
  - match goal with |- context [Search.moveLoop _ ?rec ?b ?cc ?m ?pv ?h ?ms ?l ?w1] =>
      pose proof (moveLoop_report rec b cc m pv h
                    ltac:(intros; apply IH) ms l w1 ltac:(reflexivity)) as Hloop;
      destruct (Search.moveLoop ZOBRIST_PIECES rec b cc m pv h ms l w1)
        as [[l' timedOut] w2]
    end.
    cbv zeta in Hloop. cbn [fst Search.nodes] in Hloop. destruct Hloop as [Hpv Hnodes].
    destruct timedOut; cbn [fst Outcome.pv Outcome.nodes]; split; (exact Hpv || lia).
Qed.

End MinimaxFacts.

(** X18: a call of [minimax] never removes a key from the transposition
    table, and never lets it grow past [MAX_TT_SIZE] entries (or past the
    size it already had). *)
Theorem minimax_table (ZOBRIST_PIECES : Z -> Z -> Z) (clock : nat -> Z) (depth : nat)
    (board : Board) (color : Cell) (alpha beta : Z) (isMaximizing : bool)
    (currentPV : list Js.str) (boardHash : Z) (deadline : option Z) (w : Search.World) :
  let w' :=
    snd (Search.minimax ZOBRIST_PIECES clock depth board color alpha beta isMaximizing
           currentPV boardHash deadline w) in
  (forall k, is_Some (Search.table w !! k) -> is_Some (Search.table w' !! k))
  /\ Z.of_nat (size (Search.table w'))
       <= Z.max (Z.of_nat (size (Search.table w))) Search.MAX_TT_SIZE.
Proof.
  cbv zeta.
  apply (minimax_grown ZOBRIST_PIECES clock w depth board color alpha beta isMaximizing
           currentPV boardHash deadline w).
  split; [auto|lia].
Qed.

(** X19: the principal variation [minimax] returns starts with the
    [currentPV] it was given, and the node count it returns is at least
    one. *)
Theorem minimax_pv_nodes (ZOBRIST_PIECES : Z -> Z -> Z) (clock : nat -> Z) (depth : nat)
    (board : Board) (color : Cell) (alpha beta : Z) (isMaximizing : bool)
    (currentPV : list Js.str) (boardHash : Z) (deadline : option Z) (w : Search.World) :
  let result :=
    fst (Search.minimax ZOBRIST_PIECES clock depth board color alpha beta isMaximizing
           currentPV boardHash deadline w) in
  currentPV `prefix_of` Outcome.pv result /\ 1 <= Outcome.nodes result.
Proof. cbv zeta. apply minimax_report. Qed.

(** ** What [engineSearch] reports *)

Lemma legal_flips (board : Board) (color : Cell) (m : Coord.t) :
  In (Some m) (generateLegalMoves board color) ->
  1 <= Z.of_nat (length (Search.getFlippedPositions board (Some m) color)).
Proof.
  intros Hlegal.
  apply generateLegalMoves_In in Hlegal as (r & c & [= ->] & _ & _ & _ & d & Hd & Hflip).
  rewrite getFlippedPositions_flat. cbn [Coord.r Coord.c].
  apply hasFlips_getFlips in Hflip. revert Hd Hflip. generalize directions.
  induction l as [|d' dirs IH]; intros Hd Hflip; [destruct Hd|].
  cbn [flat_map]. rewrite length_app. destruct Hd as [->|Hd].
  - destruct (getFlipsInDirection board r c (fst d) (snd d) color); [by destruct Hflip|].
    cbn [length]. lia.
  - specialize (IH Hd Hflip). lia.
Qed.

Section EngineFacts.
Variable ZOBRIST_PIECES : Z -> Z -> Z.
Variable clock : nat -> Z.

(** The iterative deepening has completed the depths below
    [currentDepth], one node at least for each, and completes no depth
    past the last one it is allowed. *)
Lemma deepen_depth (board : Board) (color : Cell) (startTime timeLimitMs : Z)
    (remaining : nat) :
  forall (currentDepth : nat) (d : Search.Driver) (w : Search.World),
    Search.d_depthSearched d = Z.of_nat currentDepth - 1 ->
    Search.d_depthSearched d <= Search.d_nodes d ->
    let d' := fst (Search.deepen ZOBRIST_PIECES clock remaining currentDepth board color
                     startTime timeLimitMs d w) in
    (Z.of_nat currentDepth - 1 <= Search.d_depthSearched d'
       <= Z.of_nat currentDepth - 1 + Z.of_nat remaining)
    /\ Search.d_depthSearched d' <= Search.d_nodes d'.
Proof.
  induction remaining as [|remaining IH]; intros currentDepth d w Hdepth Hnodes; cbv zeta.
  { cbn [Search.deepen fst]. lia. }
  cbn [Search.deepen]. unfold Search.dateNow. cbv iota.
  destruct (clock (Search.ticks w) - startTime >=? timeLimitMs); [cbn [fst]; lia|].
  match goal with |- context [Search.minimax _ _ currentDepth ?b ?c ?al ?be ?m ?pv ?h ?dl ?w'] =>
    destruct (minimax_report ZOBRIST_PIECES clock currentDepth b c al be m pv h dl w')
      as [_ Hcount];
    destruct (Search.minimax ZOBRIST_PIECES clock currentDepth b c al be m pv h dl w')
      as [result w1]
  end.
  cbn [fst] in Hcount.
  destruct (Outcome.timeout result); [cbn [fst]; lia|].
  match goal with |- context [Search.deepen _ _ remaining (S currentDepth) _ _ _ _ ?d1 w1] =>
    destruct (IH (S currentDepth) d1 w1) as [Hrange Hn];
      [cbn [Search.d_depthSearched]; lia
      |cbn [Search.d_depthSearched Search.d_nodes]; lia|]
  end.
  cbv zeta in Hrange, Hn. split; [lia|exact Hn].
Qed.

(** The clock reading at which no depth is searched leaves the driver
    and the table as they are. *)
Lemma deepen_idle (board : Board) (color : Cell) (startTime timeLimitMs : Z)
    (remaining currentDepth : nat) (d : Search.Driver) (w : Search.World) :
  remaining = 0%nat \/ timeLimitMs <= clock (Search.ticks w) - startTime ->
  fst (Search.deepen ZOBRIST_PIECES clock remaining currentDepth board color
         startTime timeLimitMs d w) = d
  /\ Search.table (snd (Search.deepen ZOBRIST_PIECES clock remaining currentDepth board color
                          startTime timeLimitMs d w)) = Search.table w.
Proof.
  intros [->|Hlate]; [by split|].
  destruct remaining as [|remaining]; [by split|].
  cbn [Search.deepen]. unfold Search.dateNow. cbv iota.
  assert ((clock (Search.ticks w) - startTime >=? timeLimitMs) = true) as ->
    by (apply Z.geb_le; lia).
  by split.
Qed.

End EngineFacts.

(** X20: from an empty transposition table, whatever the Zobrist table,
    the clock and the options, [engineSearch] reports either a pass with
    0 flips, or a legal move of the side to move together with its
    label and the number of discs it flips, which is at least one. *)
Theorem engineSearch_move (ZOBRIST_PIECES : Z -> Z -> Z) (clock : nat -> Z)
    (board : Board) (color : Cell) (options : SearchOptions.t) :
  let result :=
    fst (Search.engineSearch ZOBRIST_PIECES clock board color options Samples.freshWorld) in
  EngineResult.bestMoveAlgebraic result = moveToAlgebraic (EngineResult.bestMove result)
  /\ ((EngineResult.bestMove result = None /\ EngineResult.flips result = 0)
      \/ (In (EngineResult.bestMove result) (generateLegalMoves board color)
          /\ EngineResult.flips result
             = Z.of_nat (length (Search.getFlippedPositions board
                                   (EngineResult.bestMove result) color))
          /\ 1 <= EngineResult.flips result)).
Proof.
  cbv zeta.
  destruct (Search.engineSearch ZOBRIST_PIECES clock board color options Samples.freshWorld)
    as [result wf] eqn:Hrun.
  unfold Search.engineSearch in Hrun. cbv zeta in Hrun.
  unfold Search.dateNow in Hrun. cbv iota in Hrun.
  destruct (generateLegalMoves board color) as [|move0 moves] eqn:Hmoves.
  { injection Hrun as <- _. cbn [fst]. split; [reflexivity|]. left. by split. }
  match type of Hrun with context [Search.deepen _ _ ?n ?cd ?b ?c ?st ?tl ?d ?w] =>
    pose proof (deepen_bestMove ZOBRIST_PIECES clock b c st tl n cd d w
                  ltac:(intros k e Hke; simpl in Hke; by rewrite lookup_empty in Hke)
                  ltac:(by left)) as Hd;
    destruct (Search.deepen ZOBRIST_PIECES clock n cd b c st tl d w) as [d' w']
  end.
  cbv zeta in Hd. cbn [fst] in Hd. rewrite Hmoves in Hd.
  injection Hrun as <- _.
  cbn [fst EngineResult.bestMove EngineResult.flips EngineResult.bestMoveAlgebraic].
  split; [reflexivity|].
  destruct (Search.d_bestMove d') as [m|] eqn:Hbest.
  - right. destruct Hd as [Hd|Hd]; [discriminate Hd|].
    split; [exact Hd|].
    rewrite applyMove_count. split; [reflexivity|].
    apply legal_flips. rewrite Hmoves. exact Hd.
  - left. by split.
Qed.

(** X21: [engineSearch] reports a searched depth between 0 and the
    requested depth (6 when none is given), and a node count that is at
    least the searched depth. *)
Theorem engineSearch_depthSearched (ZOBRIST_PIECES : Z -> Z -> Z) (clock : nat -> Z)
    (board : Board) (color : Cell) (options : SearchOptions.t) (w : Search.World) :
  let result := fst (Search.engineSearch ZOBRIST_PIECES clock board color options w) in
  0 <= EngineResult.depthSearched result
    <= Z.max 0 (default 6 (SearchOptions.depth options))
  /\ EngineResult.depthSearched result <= EngineResult.nodes result.
Proof.
  cbv zeta.
  destruct (Search.engineSearch ZOBRIST_PIECES clock board color options w)
    as [result wf] eqn:Hrun.
  unfold Search.engineSearch in Hrun. cbv zeta in Hrun.
  unfold Search.dateNow in Hrun. cbv iota in Hrun.
  destruct (generateLegalMoves board color) as [|move0 moves] eqn:Hmoves.
  { injection Hrun as <- _. cbn [fst EngineResult.depthSearched EngineResult.nodes]. lia. }
  match type of Hrun with context [Search.deepen _ _ ?n ?cd ?b ?c ?st ?tl ?d ?w0] =>
    pose proof (deepen_depth ZOBRIST_PIECES clock b c st tl n cd d w0
                  ltac:(reflexivity) ltac:(reflexivity)) as Hd;
    destruct (Search.deepen ZOBRIST_PIECES clock n cd b c st tl d w0) as [d' w']
  end.
  cbv zeta in Hd. cbn [fst] in Hd.
  injection Hrun as <- _. cbn [fst EngineResult.depthSearched EngineResult.nodes].
  lia.
Qed.

(** X22: when the side has a legal move but no depth is searched, because
    the requested depth is 0 or less or because the time limit has run
    out at the first reading of the clock, [engineSearch] still reports a
    pass: no move, label "pass", 0 flips, score -999999, an empty
    variation, 0 nodes, depth 0; the transposition table is untouched. *)
Theorem engineSearch_no_search (ZOBRIST_PIECES : Z -> Z -> Z) (clock : nat -> Z)
    (board : Board) (color : Cell) (options : SearchOptions.t) (w : Search.World) :
  generateLegalMoves board color <> [] ->
  default 6 (SearchOptions.depth options) <= 0
  \/ default 2000 (SearchOptions.timeLimitMs options)
       <= clock (S (Search.ticks w)) - clock (Search.ticks w) ->
  let run := Search.engineSearch ZOBRIST_PIECES clock board color options w in
  EngineResult.bestMove (fst run) = None
  /\ EngineResult.bestMoveAlgebraic (fst run) = Js.lit "pass"
  /\ EngineResult.flips (fst run) = 0
  /\ EngineResult.score (fst run) = -999999
  /\ EngineResult.pv (fst run) = []
  /\ EngineResult.nodes (fst run) = 0
  /\ EngineResult.depthSearched (fst run) = 0
  /\ Search.table (snd run) = Search.table w.
Proof.
  intros Hlegal Hidle. cbv zeta.
  destruct (Search.engineSearch ZOBRIST_PIECES clock board color options w)
    as [result wf] eqn:Hrun.
  unfold Search.engineSearch in Hrun. cbv zeta in Hrun.
  unfold Search.dateNow in Hrun. cbv iota in Hrun.
  destruct (generateLegalMoves board color) as [|move0 moves] eqn:Hmoves;
    [by destruct Hlegal|].
  match type of Hrun with context [Search.deepen _ _ ?n ?cd ?b ?c ?st ?tl ?d ?w0] =>
    destruct (deepen_idle ZOBRIST_PIECES clock b c st tl n cd d w0) as [Hd Htable];
      [destruct Hidle as [Hdepth|Htime];
        [left; destruct (default 6 (SearchOptions.depth options)); [reflexivity|lia|reflexivity]
        |right; exact Htime]|];
    destruct (Search.deepen ZOBRIST_PIECES clock n cd b c st tl d w0) as [d' w']
  end.
  cbn [fst snd Search.table] in Hd, Htable. subst d'.
  injection Hrun as <- <-.
  cbn [fst snd EngineResult.bestMove EngineResult.flips EngineResult.bestMoveAlgebraic
       EngineResult.score EngineResult.pv EngineResult.nodes EngineResult.depthSearched
       Search.d_bestMove Search.d_bestScore Search.d_pv Search.d_nodes
       Search.d_depthSearched Search.table].
  repeat split; try reflexivity. exact Htable.
Qed.

Lemma engineSearch_no_search_witness :
  generateLegalMoves createStartingBoard Black <> []
  /\ EngineResult.bestMoveAlgebraic
       (fst (Search.engineSearch Samples.sampleZobrist Samples.sampleClock createStartingBoard
               Black (SearchOptions.mk (Some 0) None) Samples.freshWorld))
     = Js.lit "pass".
Proof.
  assert (generateLegalMoves createStartingBoard Black <> []) as H by (by vm_compute).
  split; [exact H|].
  refine (proj1 (proj2 (engineSearch_no_search Samples.sampleZobrist Samples.sampleClock
                          createStartingBoard Black (SearchOptions.mk (Some 0) None)
                          Samples.freshWorld H _))).
  left. cbn. lia.
Defined.

(** ** The entries of the Zobrist table *)

Lemma halves_apart (high low : Z) :
  0 <= low < 2 ^ 32 -> Z.land (Z.shiftl high 32) low = 0.
Proof.
  intros Hlow. apply Z.bits_inj'. intros n Hn. rewrite Z.land_spec, Z.bits_0.
  destruct (Z.lt_ge_cases n 32) as [Hlt|Hge].
  - rewrite Z.shiftl_spec_low by exact Hlt. reflexivity.
  - assert (Z.testbit low n = false) as ->; [|apply andb_false_r].
    destruct (Z.eq_dec low 0) as [->|Hne]; [apply Z.bits_0|].
    apply Z.bits_above_log2; [lia|].
    assert (Z.log2 low < 32) by (apply Z.log2_lt_pow2; lia). lia.
Qed.

(** X23: for two draws below 2^32, [generateRandom64BitBigInt] returns
    [high * 2^32 + low], a value below 2^64 from which both draws can be
    read back. *)
Theorem generateRandom64BitBigInt_value (high low : Z) :
  0 <= high < 2 ^ 32 -> 0 <= low < 2 ^ 32 ->
  let value := ZobristInit.generateRandom64BitBigInt high low in
  value = high * 2 ^ 32 + low
  /\ 0 <= value < 2 ^ 64
  /\ value / 2 ^ 32 = high /\ value mod 2 ^ 32 = low.
Proof.
  intros Hhigh Hlow. cbv zeta. unfold ZobristInit.generateRandom64BitBigInt.
  rewrite <- (Z.lxor_lor _ _ (halves_apart high low Hlow)).
  rewrite <- (Z.add_nocarry_lxor _ _ (halves_apart high low Hlow)).
  rewrite Z.shiftl_mul_pow2 by lia.
  split; [reflexivity|]. split; [lia|]. split.
  - rewrite Z.add_comm, Z.div_add by lia. rewrite Z.div_small by lia. lia.
  - rewrite Z.add_comm, Z.mod_add by lia. apply Z.mod_small. lia.
Qed.

Lemma generateRandom64BitBigInt_value_witness :
  0 <= 1 < 2 ^ 32 /\ 0 <= 2 < 2 ^ 32
  /\ ZobristInit.generateRandom64BitBigInt 1 2 = 1 * 2 ^ 32 + 2.
Proof.
  assert (0 <= 1 < 2 ^ 32) as H1 by lia. assert (0 <= 2 < 2 ^ 32) as H2 by lia.
  split; [exact H1|]. split; [exact H2|].
  exact (proj1 (generateRandom64BitBigInt_value 1 2 H1 H2)).
Defined.

(** ** The squares one direction flips *)

(** X24: what [getFlipsInDirection] returns is a run of consecutive
    squares that starts next to the move's square and follows the
    direction, in that order; every square of the run is on the board and
    holds an opponent disc, and when the run is not empty the square
    after it is on the board and holds a disc of the mover. *)
Theorem getFlipsInDirection_run (board : Board) (r c dr dc : Z) (color : Cell) :
  exists n : nat,
    getFlipsInDirection board r c dr dc color
    = map (fun k => (r + Z.of_nat k * dr, c + Z.of_nat k * dc)) (seq 1 n)
    /\ (forall k, (1 <= k <= n)%nat ->
          inBounds (r + Z.of_nat k * dr) (c + Z.of_nat k * dc) = true
          /\ cellAt board (r + Z.of_nat k * dr) (c + Z.of_nat k * dc)
             = Some (negate color))
    /\ (n <> 0%nat ->
          inBounds (r + Z.of_nat (S n) * dr) (c + Z.of_nat (S n) * dc) = true
          /\ cellAt board (r + Z.of_nat (S n) * dr) (c + Z.of_nat (S n) * dc)
             = Some color).
Proof.
  unfold getFlipsInDirection. cbv zeta.
  destruct (rayLoop rayFuel board (negate color) dr dc
              (fun nr nc flips => flips ++ [(nr, nc)]) (r + dr) (c + dc) [])
    as [[[x y] l]|] eqn:Hrun.
  2: { exists 0%nat. split; [reflexivity|]. split; [intros k Hk; lia|intros H; by destruct H]. }
  apply rayLoop_flips in Hrun as (n & -> & -> & -> & Hall).
  destruct (inBounds (r + dr + Z.of_nat n * dr) (c + dc + Z.of_nat n * dc)
            && cellIs board (r + dr + Z.of_nat n * dr) (c + dc + Z.of_nat n * dc) color)
    eqn:Hend.
  - exists n. split; [|split].
    + rewrite app_nil_l, <- seq_shift, map_map. apply map_ext. intros k. f_equal; lia.
    + intros [|k] Hk; [lia|]. destruct (Hall k ltac:(lia)) as [Hb Hc].
      replace (r + Z.of_nat (S k) * dr) with (r + dr + Z.of_nat k * dr) by lia.
      replace (c + Z.of_nat (S k) * dc) with (c + dc + Z.of_nat k * dc) by lia.
      split; [exact Hb|exact Hc].
    + intros _. apply andb_true_iff in Hend as [Hb Hc]. apply cellIs_true in Hc.
      replace (r + Z.of_nat (S n) * dr) with (r + dr + Z.of_nat n * dr) by lia.
      replace (c + Z.of_nat (S n) * dc) with (c + dc + Z.of_nat n * dc) by lia.
      split; [exact Hb|exact Hc].
  - exists 0%nat. split; [reflexivity|]. split; [intros k Hk; lia|intros H; by destruct H].
Qed.

(** ** What [minimax] stores *)

(** X25: when [minimax] searches a position with legal moves at depth 1
    or more (no usable entry in the table, no timeout) and the table ends
    below [MAX_TT_SIZE] entries, the entry it leaves under the position's
    hash records that hash, the depth, the score and the best move it
    returns. *)
Theorem minimax_stores (ZOBRIST_PIECES : Z -> Z -> Z) (clock : nat -> Z) (depth : nat)
    (board : Board) (color : Cell) (alpha beta : Z) (isMaximizing : bool)
    (currentPV : list Js.str) (boardHash : Z) (deadline : option Z) (w : Search.World) :
  Search.probe (Search.table w) boardHash (Z.of_nat (S depth)) alpha beta = None ->
  generateLegalMoves board (if isMaximizing then color else negate color) <> [] ->
  let run :=
    Search.minimax ZOBRIST_PIECES clock (S depth) board color alpha beta isMaximizing
      currentPV boardHash deadline w in
  Outcome.timeout (fst run) = false ->
  Z.of_nat (size (Search.table (snd run))) < Search.MAX_TT_SIZE ->
  exists flag,
    Search.table (snd run) !! boardHash
    = Some (TTEntry.mk boardHash (Z.of_nat (S depth)) (Outcome.score (fst run)) flag
              (Outcome.bestMove (fst run))).
Proof.
  intros Hprobe Hmoves. cbv zeta. cbn [Search.minimax].
  rewrite timeoutCheck_first_node, Hprobe.
  destruct (generateLegalMoves board (if isMaximizing then color else negate color))
    as [|move0 moves]; [by destruct Hmoves|].
  match goal with |- context [Search.moveLoop _ ?rec ?b ?cc ?m ?pv ?h ?ms ?l ?w1] =>
    destruct (Search.moveLoop ZOBRIST_PIECES rec b cc m pv h ms l w1)
      as [[l' timedOut] w2]
  end.
  destruct timedOut; cbn [fst snd Outcome.timeout]; [discriminate|].
  intros _. cbn [Search.table Outcome.score Outcome.bestMove]. unfold Search.store.
  destruct (Z.ltb_spec (Z.of_nat (size (Search.table w2))) Search.MAX_TT_SIZE)
    as [_|Hfull]; [|lia].
  intros _. eexists. apply lookup_insert_eq.
Qed.

Lemma minimax_stores_witness :
  let h := Zobrist.hashBoard Samples.sampleZobrist createStartingBoard Black in
  let run :=
    Search.minimax Samples.sampleZobrist Samples.sampleClock 1 createStartingBoard Black
      (- Search.INFINITY) Search.INFINITY true [] h None Samples.freshWorld in
  exists flag,
    Search.table (snd run) !! h
    = Some (TTEntry.mk h 1 (Outcome.score (fst run)) flag (Outcome.bestMove (fst run))).
Proof.
  cbv zeta.
  apply (minimax_stores Samples.sampleZobrist Samples.sampleClock 0 createStartingBoard Black
           (- Search.INFINITY) Search.INFINITY true []
           (Zobrist.hashBoard Samples.sampleZobrist createStartingBoard Black) None
           Samples.freshWorld).
  - reflexivity.
  - by vm_compute.
  - vm_compute. reflexivity.
  - vm_compute. reflexivity.
Defined.
